(** * Chunked event retrieval of the betting-game front end

    A shallow embedding of the two React components that poll the
    Sei EVM endpoint for [Roll] events:

    - the combined view ([CombinedGameEvents]: [fetchEventsForContract]
      and [fetchAllEvents]), and
    - the player view ([PlayerEvents]: [fetchRollEvents]).

    JavaScript numbers that hold block numbers and counters are modelled
    as [Z]; [bigint] values are [Z] as well.  An [async] function becomes
    a computation that is given the number of suspension points passed so
    far, and yields an outcome together with the actions it performed.
    The two fetches that the combined view starts side by side take
    their turns in an order that the provider decides. *)

From Stdlib Require Import ZArith List Bool String Ascii Lia Sorted Permutation.
From Stdlib Require Import DecimalString.
Import ListNotations.

Local Open Scope string_scope.
Local Open Scope list_scope.
Local Open Scope Z_scope.

Set Implicit Arguments.

(** ** Runtime functions of the language *)

(** [String.prototype.toLowerCase], on the characters an address can
    hold: the letters [A]-[Z] move to [a]-[z], every other character is
    kept. *)
Definition lowerChar (c : ascii) : ascii :=
  let n := nat_of_ascii c in
  if ((65 <=? n)%nat && (n <=? 90)%nat)%bool then ascii_of_nat (n + 32) else c.

Fixpoint toLowerCase (s : string) : string :=
  match s with
  | EmptyString => EmptyString
  | String c s' => String (lowerChar c) (toLowerCase s')
  end.

(** A string in a boolean position: only the empty string is falsy. *)
Definition truthy (s : string) : bool :=
  match s with
  | EmptyString => false
  | String _ _ => true
  end.

(** [a || b] on strings. *)
Definition orElse (a b : string) : string := if truthy a then a else b.

(** [Number(x)] for a non-negative [bigint]: the nearest double, ties to
    even.  A double has 53 significant bits; the result is an integer, so
    it is kept in [Z]. *)
Definition Number (x : Z) : Z :=
  if x <? 2 ^ 53 then x
  else
    let e := Z.log2 x - 52 in
    let q := Z.shiftr x e in
    let r := x - Z.shiftl q e in
    let half := 2 ^ (e - 1) in
    let q' := if ((half <? r) || ((r =? half) && Z.odd q))%bool then q + 1 else q in
    q' * 2 ^ e.

(** The double that an operation on numbers yields when its exact
    result is the integer [x]: the nearest double, ties to even, for
    either sign. *)
Definition roundToDouble (x : Z) : Z :=
  if x <? 0 then - Number (- x) else Number x.

(** [Math.ceil(a / b)] for integers [a] and a positive integer [b]. *)
Definition ceilDiv (a b : Z) : Z := - ((- a) / b).

(** ** Sorting and slicing *)

Section SortSlice.
Variable T : Type.
Variable key : T -> Z.

(** [xs.sort((a, b) => key(b) - key(a))]: the sort is stable, so an
    element is placed in front of the first element whose key is not
    greater than its own. *)
Fixpoint insertDesc (x : T) (l : list T) : list T :=
  match l with
  | [] => [x]
  | y :: l' => if key y <=? key x then x :: y :: l' else y :: insertDesc x l'
  end.

Definition sortDesc (l : list T) : list T := fold_right insertDesc [] l.

(** [xs.slice(0, n)]. *)
Definition slice0 (n : nat) (l : list T) : list T := firstn n l.

(** Descending order of the keys. *)
Definition SortedDesc (l : list T) : Prop :=
  Sorted (fun a b => key b <= key a) l.
End SortSlice.

(** ** The provider and the data it returns *)

(** An awaited call either resolves to a value or rejects; a synchronous
    call either returns or throws. *)
Inductive Outcome (A : Type) : Type :=
| Ok (a : A)
| Thrown.
Arguments Thrown {A}.

Definition rejected {A} (r : Outcome A) : bool :=
  match r with
  | Ok _ => false
  | Thrown => true
  end.

(** The fields of [ethers.Log] the components read. *)
Record Log := mkLog {
  logBlockNumber : Z;
  logTransactionHash : string;
  topics : list string;
  data : string
}.

(** [parsedLog.args] of a [Roll] event: the address as the library prints
    it and the three [uint256] values as [bigint]s. *)
Record RollArgs := mkArgs {
  argPlayer : string;
  argAmount : Z;
  argChoice : Z;
  argOutcome : Z;
  argWon : bool
}.

(** The one field of [ethers.Block] the components read. *)
Record Block := mkBlock { blockTimestamp : Z }.

(** What lies outside of the components: the JSON-RPC provider, the ABI
    decoder, the moment the effect is cleaned up, and the order in which
    the provider answers two fetches that wait for it at the same time.
    [None] is the [null] a call may return.  [teardown = Some k] says
    that [isMounted] is cleared during the [k]-th suspension of the
    cycle ([k = 0]: before the cycle starts), where the suspensions of
    two fetches that run side by side count in the order in which the
    provider ends them; [None] says that the view outlives the cycle.
    In [schedule], [true] is an answer to the first of two fetches
    started side by side and [false] an answer to the second; when the
    list is used up the first fetch is answered first. *)
Record World := mkWorld {
  getBlockNumber : Outcome Z;
  getLogs : string -> Z -> Z -> Outcome (list Log);
  getBlock : Z -> Outcome (option Block);
  parseLog : list string -> string -> Outcome (option RollArgs);
  teardown : option nat;
  schedule : list bool
}.

(** The value of the [isMounted] flag after [c] suspension points. *)
Definition mountedAt (w : World) (c : nat) : bool :=
  match teardown w with
  | None => true
  | Some k => (c <? k)%nat
  end.

(** ** Constants shared by the two components *)

Definition POLLING_INTERVAL : Z := 10000.
Definition TOTAL_BLOCKS_TO_CHECK : Z := 2000.
Definition MAX_CHUNK_SIZE : Z := 450.
Definition FETCH_ERROR : string := "Failed to fetch Sei EVM events".

(** ** Asynchronous computations *)

Section Async.
(** The type of the records held in the display buffer. *)
Variable E : Type.

(** What a cycle does that can be seen from outside: it suspends on a
    query, a block lookup or a delay, and it writes the component's
    state.  A trace lists the suspensions in the order in which they
    end.  [Later a] stands, while a caller runs, for an action [a] of a
    task the caller has stopped waiting for: the task performs [a]
    after the caller has run to its end. *)
Inductive Action : Type :=
| AwaitBlockNumber
| AwaitLogs (address : string) (fromBlock toBlock : Z)
| AwaitDelay
| AwaitBlock (blockNumber : Z)
| SetEvents (evs : list E)
| SetError (e : option string)
| SetLoading (b : bool)
| Later (a : Action).

Definition Trace := list Action.

Definition isAwait (a : Action) : bool :=
  match a with
  | AwaitBlockNumber | AwaitLogs _ _ _ | AwaitDelay | AwaitBlock _ => true
  | _ => false
  end.

Definition isSetter (a : Action) : bool :=
  match a with
  | SetEvents _ | SetError _ | SetLoading _ => true
  | _ => false
  end.

(** The number of suspension points a trace passes through. *)
Definition awaits (t : Trace) : nat := List.length (filter isAwait t).

(** A computation started after [c] suspension points. *)
Definition M (A : Type) : Type := nat -> Outcome A * Trace.

Definition ret {A} (a : A) : M A := fun _ => (Ok a, []).

Definition throw {A} : M A := fun _ => (Thrown, []).

Definition bind {A B} (m : M A) (f : A -> M B) : M B :=
  fun c =>
    let (r, t) := m c in
    match r with
    | Ok a => let (r', t') := f a (awaits t + c)%nat in (r', t ++ t')
    | Thrown => (Thrown, t)
    end.

(** [await p]: one suspension point, then the value or the rejection. *)
Definition await {A} (a : Action) (p : Outcome A) : M A :=
  fun _ => (p, [a]).

(** A write to the component's state. *)
Definition emit (a : Action) : M unit := fun _ => (Ok tt, [a]).

(** [try { m } catch { h }]. *)
Definition tryCatch {A} (m : M A) (h : M A) : M A :=
  fun c =>
    let (r, t) := m c in
    match r with
    | Ok a => (Ok a, t)
    | Thrown => let (r', t') := h (awaits t + c)%nat in (r', t ++ t')
    end.

(** [try { m } finally { f }], for a handler [f] that does not throw. *)
Definition tryFinally {A} (m : M A) (f : M unit) : M A :=
  fun c =>
    let (r, t) := m c in
    let (_, t') := f (awaits t + c)%nat in (r, t ++ t').

(** Two tasks side by side.  [ta] and [tb] are the actions of the
    tasks, [ea] and [eb] say whether the tasks end by rejecting, and
    the schedule [s] says which task moves next.  The caller waits
    until a task has rejected or both tasks have ended: when a task
    ends by rejecting, what is left of the other task is put off, and
    when it ends by returning, the other task goes on alone. *)
Fixpoint sideBySide (s : list bool) (ta tb : Trace) (ea eb : bool) : Trace :=
  match ta, tb with
  | [], _ => if ea then map Later tb else tb
  | _, [] => if eb then map Later ta else ta
  | a :: ta', b :: tb' =>
      match s with
      | [] => ta ++ (if ea then map Later tb else tb)
      | true :: s' => a :: sideBySide s' ta' tb ea eb
      | false :: s' => b :: sideBySide s' ta tb' ea eb
      end
  end.

(** The actions of a trace that its caller has waited for, and the
    actions that were put off. *)
Fixpoint direct (t : Trace) : Trace :=
  match t with
  | [] => []
  | Later _ :: t' => direct t'
  | a :: t' => a :: direct t'
  end.

Fixpoint deferred (t : Trace) : Trace :=
  match t with
  | [] => []
  | Later a :: t' => a :: deferred t'
  | _ :: t' => deferred t'
  end.

(** A call that nobody waits for, as the calls of the effect and of its
    timer are: the trace is what the function does until it ends,
    followed by what the tasks it has stopped waiting for go on to
    do. *)
Definition complete {A} (m : M A) : M A :=
  fun c => let (r, t) := m c in (r, direct t ++ deferred t).

Variable w : World.

(** [Promise.all([ma, mb])].  Both tasks are started; the provider
    answers them in the order of [schedule w].  The promise rejects as
    soon as one task rejects, and the caller resumes at once while the
    other task goes on; it resolves when both tasks have returned.
    The tasks are run as started at the clock of the call: the tasks of
    the combined view do not read the [isMounted] flag. *)
Definition promiseAll {A B} (ma : M A) (mb : M B) : M (A * B) :=
  fun c =>
    let (ra, ta) := ma c in
    let (rb, tb) := mb c in
    (match ra, rb with
     | Ok a, Ok b => Ok (a, b)
     | _, _ => Thrown
     end, sideBySide (schedule w) ta tb (rejected ra) (rejected rb)).

(** Reading the [isMounted] flag. *)
Definition isMounted : M bool := fun c => (Ok (mountedAt w c), []).

(** [if (isMounted) { m }]. *)
Definition whenMounted (m : M unit) : M unit :=
  bind isMounted (fun b => if b then m else ret tt).

(** ** The chunked log queries

    The loop both components run over the chunk index [i]: [n] is the
    number of indices left below [chunksNeeded].  [guard] is what the
    loop condition reads besides [i < chunksNeeded]: the combined view
    reads nothing, the player view reads [isMounted]. *)
Fixpoint chunkLoop (guard : M bool) (address : string)
    (startBlock latestBlock chunksNeeded : Z)
    (n : nat) (i : Z) (allLogs : list Log) : M (list Log) :=
  match n with
  | O => ret allLogs
  | S n' =>
      bind guard (fun go =>
      if go then
        let chunkStart := latestBlock - i * MAX_CHUNK_SIZE - MAX_CHUNK_SIZE in
        let chunkEnd := latestBlock - i * MAX_CHUNK_SIZE in
        let fromBlock := Z.max chunkStart startBlock in
        let toBlock := chunkEnd in
        bind (await (AwaitLogs address fromBlock toBlock)
                    (getLogs w address fromBlock toBlock)) (fun logs =>
        let allLogs := allLogs ++ logs in
        bind (if i <? chunksNeeded - 1 then await AwaitDelay (Ok tt) else ret tt)
             (fun _ =>
        chunkLoop guard address startBlock latestBlock chunksNeeded
                  n' (i + 1) allLogs))
      else ret allLogs)
  end.

(** The windows a trace has queried, in the order of the queries. *)
Fixpoint queried (t : Trace) : list (Z * Z) :=
  match t with
  | [] => []
  | AwaitLogs _ f l :: t' => (f, l) :: queried t'
  | _ :: t' => queried t'
  end.

(** ** The component's state *)

Record UI := mkUI {
  events : list E;
  loading : bool;
  error : option string
}.

Definition applyAction (ui : UI) (a : Action) : UI :=
  match a with
  | SetEvents evs => mkUI evs (loading ui) (error ui)
  | SetError e => mkUI (events ui) (loading ui) e
  | SetLoading b => mkUI (events ui) b (error ui)
  | _ => ui
  end.

(** The state after the writes of a trace. *)
Definition render (ui : UI) (t : Trace) : UI := fold_left applyAction t ui.
End Async.

Arguments AwaitBlockNumber {E}.
Arguments AwaitLogs {E}.
Arguments AwaitDelay {E}.
Arguments AwaitBlock {E}.
Arguments SetError {E}.
Arguments SetLoading {E}.
Arguments Later {E}.
Arguments throw {E A}.
Arguments ret {E A}.
Arguments queried {E}.

Declare Scope async_scope.
Delimit Scope async_scope with async.
Notation "x <- m ;; k" := (bind m (fun x => k))
  (at level 61, m at next level, right associativity) : async_scope.
Notation "m ;;; k" := (bind m (fun _ => k))
  (at level 61, right associativity) : async_scope.
Local Open Scope async_scope.

(** The window the loop computes for chunk index [i]. *)
Definition chunkWindow (startBlock latestBlock i : Z) : Z * Z :=
  (Z.max (latestBlock - i * MAX_CHUNK_SIZE - MAX_CHUNK_SIZE) startBlock,
   latestBlock - i * MAX_CHUNK_SIZE).

(** The windows of the indices [i, i + 1, ..] for [n] iterations. *)
Fixpoint windowsFrom (startBlock latestBlock : Z) (n : nat) (i : Z) : list (Z * Z) :=
  match n with
  | O => []
  | S n' => chunkWindow startBlock latestBlock i
            :: windowsFrom startBlock latestBlock n' (i + 1)
  end.

(** The windows of a whole run of the loop. *)
Definition chunkWindows (startBlock latestBlock : Z) : list (Z * Z) :=
  let totalBlocksToScan := latestBlock - startBlock in
  let chunksNeeded := ceilDiv totalBlocksToScan MAX_CHUNK_SIZE in
  windowsFrom startBlock latestBlock (Z.to_nat chunksNeeded) 0.

(** A block lies in an inclusive window. *)
Definition inWindow (b : Z) (win : Z * Z) : bool :=
  (fst win <=? b) && (b <=? snd win).

(** The number of blocks of an inclusive window. *)
Definition windowBlocks (win : Z * Z) : Z := snd win - fst win + 1.

(** ** The combined view *)

Module Combined.

Inductive GameType := dice | coinflip.

Record GameEvent := mkGameEvent {
  blockNumber : Z;
  transactionHash : string;
  player : string;
  amount : Z;
  choice : Z;
  outcome : Z;
  won : bool;
  gameType : GameType;
  timestamp : Z
}.

Definition DICE_CONTRACT_ADDRESS : string :=
  "0xd60aF0bbE2C6EFeD5651Ef48feb0BF0d77323D9e".
Definition COINFLIP_CONTRACT_ADDRESS : string :=
  "0xD0F83311d99e2DeC0517f49d31e1971590D5C09C".
Definition MAX_RESULTS : nat := 50.

Section Fetch.
Variable w : World.

(** The body of the [for (const log of allLogs)] loop, with its
    [try]/[catch]: the value is [parsedEvents] after the iteration. *)
Definition parseOne (gameType : GameType) (currentAccount : string)
    (log : Log) (parsedEvents : list GameEvent) : M GameEvent (list GameEvent) :=
  tryCatch
    (match parseLog w (topics log) (data log) with
     | Thrown => throw
     | Ok None => ret parsedEvents
     | Ok (Some args) =>
         let player := toLowerCase (argPlayer args) in
         if truthy currentAccount
            && negb (String.eqb player (toLowerCase currentAccount))
         then ret parsedEvents
         else
           block <- await (AwaitBlock (logBlockNumber log))
                          (getBlock w (logBlockNumber log)) ;;
           match block with
           | None => ret parsedEvents
           | Some b =>
               ret (parsedEvents ++
                    [ {| blockNumber := logBlockNumber log;
                         transactionHash := orElse (logTransactionHash log) "unknown";
                         player := player;
                         amount := argAmount args;
                         choice := Number (argChoice args);
                         outcome := Number (argOutcome args);
                         won := argWon args;
                         gameType := gameType;
                         timestamp := blockTimestamp b |} ])
           end
     end)
    (ret parsedEvents).

Fixpoint parseLogs (gameType : GameType) (currentAccount : string)
    (allLogs : list Log) (parsedEvents : list GameEvent)
    : M GameEvent (list GameEvent) :=
  match allLogs with
  | [] => ret parsedEvents
  | log :: rest =>
      parsedEvents' <- parseOne gameType currentAccount log parsedEvents ;;
      parseLogs gameType currentAccount rest parsedEvents'
  end.

Definition fetchEventsForContract (contractAddress : string)
    (gameType : GameType) (startBlock latestBlock : Z)
    (currentAccount : string) : M GameEvent (list GameEvent) :=
  let totalBlocksToScan := latestBlock - startBlock in
  let chunksNeeded := ceilDiv totalBlocksToScan MAX_CHUNK_SIZE in
  allLogs <- chunkLoop w (ret true) contractAddress startBlock latestBlock
               chunksNeeded (Z.to_nat chunksNeeded) 0 [] ;;
  parseLogs gameType currentAccount allLogs [].

(** [currentAccount || ''], for the address [useAccount] gives
    ([None]: no wallet is connected). *)
Definition accountOrEmpty (currentAccount : option string) : string :=
  match currentAccount with
  | Some a => orElse a ""
  | None => ""
  end.

(** A call [fetchAllEvents()] of the effect.  When one of the two
    fetches rejects, the function goes through [catch] and [finally]
    and ends, and the other fetch finishes its queries and lookups
    afterwards. *)
Definition fetchAllEvents (currentAccount : option string) : M GameEvent unit :=
  complete
    (tryFinally
       (tryCatch
          (whenMounted w (emit (SetError None) ;;; emit (SetLoading true)) ;;;
           latestBlock <- await AwaitBlockNumber (getBlockNumber w) ;;
           m <- isMounted _ w ;;
           if negb m then ret tt
           else
             let startBlock := Z.max (latestBlock - TOTAL_BLOCKS_TO_CHECK) 0 in
             both <- promiseAll w
                       (fetchEventsForContract DICE_CONTRACT_ADDRESS dice
                          startBlock latestBlock (accountOrEmpty currentAccount))
                       (fetchEventsForContract COINFLIP_CONTRACT_ADDRESS coinflip
                          startBlock latestBlock (accountOrEmpty currentAccount)) ;;
             let diceEvents := fst both in
             let coinflipEvents := snd both in
             m <- isMounted _ w ;;
             if negb m then ret tt
             else
               let allEvents :=
                 slice0 MAX_RESULTS (sortDesc blockNumber (diceEvents ++ coinflipEvents)) in
               emit (SetEvents allEvents))
          (whenMounted w (emit (SetError (Some FETCH_ERROR)))))
       (whenMounted w (emit (SetLoading false)))).
End Fetch.

End Combined.

(** ** The player view *)

Module Player.

Record RollEvent := mkRollEvent {
  blockNumber : Z;
  transactionHash : string;
  player : string;
  amount : Z;
  choice : Z;
  outcome : Z;
  won : bool;
  timestamp : Z
}.

Definition CONTRACT_ADDRESS : string :=
  "0xd60aF0bbE2C6EFeD5651Ef48feb0BF0d77323D9e".
Definition MAX_RESULTS : nat := 20.

Section Fetch.
Variable w : World.

(** The body of the [for (const log of allLogs)] loop, with its
    [try]/[catch]. *)
Definition parseOne (currentAccount : string)
    (log : Log) (parsedEvents : list RollEvent) : M RollEvent (list RollEvent) :=
  tryCatch
    (match parseLog w (topics log) (data log) with
     | Thrown => throw
     | Ok None => ret parsedEvents
     | Ok (Some args) =>
         let player := toLowerCase (argPlayer args) in
         if negb (String.eqb player (toLowerCase currentAccount))
         then ret parsedEvents
         else
           block <- await (AwaitBlock (logBlockNumber log))
                          (getBlock w (logBlockNumber log)) ;;
           match block with
           | None => ret parsedEvents
           | Some b =>
               m <- isMounted _ w ;;
               if negb m then ret parsedEvents
               else
                 ret (parsedEvents ++
                      [ {| blockNumber := logBlockNumber log;
                           transactionHash := orElse (logTransactionHash log) "unknown";
                           player := player;
                           amount := argAmount args;
                           choice := Number (argChoice args);
                           outcome := Number (argOutcome args);
                           won := argWon args;
                           timestamp := blockTimestamp b |} ])
           end
     end)
    (ret parsedEvents).

Fixpoint parseLogs (currentAccount : string)
    (allLogs : list Log) (parsedEvents : list RollEvent)
    : M RollEvent (list RollEvent) :=
  match allLogs with
  | [] => ret parsedEvents
  | log :: rest =>
      parsedEvents' <- parseOne currentAccount log parsedEvents ;;
      parseLogs currentAccount rest parsedEvents'
  end.

Definition fetchRollEvents (currentAccount : string) : M RollEvent unit :=
  tryFinally
    (tryCatch
       (whenMounted w (emit (SetError None) ;;; emit (SetLoading true)) ;;;
        latestBlock <- await AwaitBlockNumber (getBlockNumber w) ;;
        m <- isMounted _ w ;;
        if negb m then ret tt
        else
          let startBlock := Z.max (latestBlock - TOTAL_BLOCKS_TO_CHECK) 0 in
          let totalBlocksToScan := latestBlock - startBlock in
          let chunksNeeded := ceilDiv totalBlocksToScan MAX_CHUNK_SIZE in
          allLogs <- chunkLoop w (isMounted _ w) CONTRACT_ADDRESS startBlock
                       latestBlock chunksNeeded (Z.to_nat chunksNeeded) 0 [] ;;
          m <- isMounted _ w ;;
          if negb m then ret tt
          else
            parsedEvents <- parseLogs currentAccount allLogs [] ;;
            whenMounted w
              (let playerEvents :=
                 slice0 MAX_RESULTS (sortDesc blockNumber parsedEvents) in
               emit (SetEvents playerEvents)))
       (whenMounted w (emit (SetError (Some FETCH_ERROR)))))
    (whenMounted w (emit (SetLoading false))).

(** The body of the effect: without a connected wallet the list is
    cleared and no cycle is started. *)
Definition effect (isConnected : bool) (currentAccount : option string)
    : M RollEvent unit :=
  match currentAccount with
  | Some a =>
      if negb isConnected || negb (truthy a)
      then emit (SetEvents []) ;;; emit (SetLoading false)
      else fetchRollEvents a
  | None => emit (SetEvents []) ;;; emit (SetLoading false)
  end.
End Fetch.

End Player.

(** ** A sample chain

    A provider over a chain with four [Roll] logs, used to run the
    components on concrete input. *)

Definition sampleChain : list Log :=
  [ mkLog 1550 "0xt1" ["0xroll"] "A";
    mkLog 1200 "" ["0xroll"] "B";
    mkLog 900 "0xt3" ["0xroll"] "C";
    mkLog 700 "0xt4" ["0xroll"] "D" ].

(** The logs of the chain that lie in the queried range. *)
Definition sampleGetLogs (address : string) (fromBlock toBlock : Z) : Outcome (list Log) :=
  Ok (filter (fun log => (fromBlock <=? logBlockNumber log)
                         && (logBlockNumber log <=? toBlock)) sampleChain).

(** Block 700 cannot be resolved. *)
Definition sampleGetBlock (b : Z) : Outcome (option Block) :=
  if b =? 700 then Ok None else Ok (Some (mkBlock (b * 10))).

(** The data ["B"] does not decode. *)
Definition sampleParseLog (tps : list string) (d : string) : Outcome (option RollArgs) :=
  if String.eqb d "A" then Ok (Some (mkArgs "0xAbC" 100 3 5 false))
  else if String.eqb d "C" then Ok (Some (mkArgs "0xDEF" 250 (2 ^ 53 + 1) 1 true))
  else if String.eqb d "D" then Ok (Some (mkArgs "0xAbC" 70 0 1 false))
  else Thrown.

(** The provider answers the two fetches of the combined view in
    turns, the second one first. *)
Definition sampleSchedule : list bool :=
  [false; true; false; true; false; true; false; true; false; true].

Definition sampleWorld (td : option nat) : World :=
  mkWorld (Ok 2000) sampleGetLogs sampleGetBlock sampleParseLog td sampleSchedule.

(** The same chain behind a provider that rejects the query of the
    window that starts at block 650. *)
Definition failingWorld (td : option nat) : World :=
  mkWorld (Ok 2000)
    (fun address f t => if f =? 650 then Thrown else sampleGetLogs address f t)
    sampleGetBlock sampleParseLog td sampleSchedule.

(** The list a trace leaves in the display buffer of a view that showed
    nothing before. *)
Definition displayed {E} (t : Trace E) : list E :=
  events (render (mkUI [] true None) t).

Definition sampleCombinedDisplay : list Combined.GameEvent :=
  Eval vm_compute in
    displayed (snd (Combined.fetchAllEvents (sampleWorld None) None 0%nat)).

Definition samplePlayerDisplay : list Player.RollEvent :=
  Eval vm_compute in
    displayed (snd (Player.fetchRollEvents (sampleWorld None) "0xABC" 0%nat)).

(** ** Presentation *)

(** [String(n)] for an integer [n] below [10 ^ 21]: its decimal digits. *)
Definition showNumber (n : Z) : string := NilZero.string_of_int (Z.to_int n).

(** An index given to [String.prototype.slice], for a string of [len]
    characters: a negative index counts from the end, and every index is
    cut to the string. *)
Definition sliceIndex (len i : Z) : Z :=
  if i <? 0 then Z.max (len + i) 0 else Z.min i len.

(** [s.slice(start, stop)]; [None] is the [stop] that is left out. *)
Definition slice (s : string) (start : Z) (stop : option Z) : string :=
  let len := Z.of_nat (String.length s) in
  let from := sliceIndex len start in
  let to := match stop with
            | Some e => sliceIndex len e
            | None => len
            end in
  substring (Z.to_nat from) (Z.to_nat (Z.max (to - from) 0)) s.

(** The text both views show for an address:
    [player.slice(0, 6)], three dots, [player.slice(-4)]. *)
Definition shortPlayer (player : string) : string :=
  String.append (slice player 0 (Some 6))
    (String.append "..." (slice player (-4) None)).

(** The largest time value of a [Date], in milliseconds. *)
Definition MAX_TIME : Z := 8640000000000000.

(** [formatTimestamp(timestamp)], when [Date.now()] is [now]: a time
    value, so an integer of at most [MAX_TIME] in absolute value.  A
    [timestamp] outside of the range of [Date] makes an invalid date:
    [diff] is [NaN], every comparison fails, and the last branch prints
    [NaN].  [Date.now() - date.getTime()] subtracts two doubles, and
    yields the difference rounded to a double.  The divisions round
    their quotients before [Math.floor] cuts them, which does not show:
    the difference is below [2 ^ 54], and even from [2 ^ 53] on, so a
    quotient that is not an integer stays farther from the next integer
    than the rounding can move it. *)
Definition formatTimestamp (now timestamp : Z) : string :=
  if MAX_TIME <? Z.abs (timestamp * 1000) then "NaN days ago"
  else
    let diff := roundToDouble (now - timestamp * 1000) / 60000 in
    if diff <? 1 then "Just now"
    else if diff <? 60 then
      String.append (showNumber diff)
        (String.append " min" (String.append (if diff =? 1 then "" else "s") " ago"))
    else if diff <? 1440 then
      String.append (showNumber (diff / 60))
        (String.append " hour"
           (String.append (if diff / 60 =? 1 then "" else "s") " ago"))
    else
      String.append (showNumber (diff / 1440))
        (String.append " day"
           (String.append (if diff / 1440 =? 1 then "" else "s") " ago")).

(** What the combined view renders: the branches of its [return]s, and
    for the list the rows of the table ([events.slice(0, 12)]) and the
    cards of the mobile layout ([events.slice(0, 10)]).  The third,
    compact list is left out: its style keeps it off the page. *)
Module CombinedView.

Inductive Page : Type :=
| Loading
| Failure (message : string)
| NoBets
| RecentBets (table cards : list Combined.GameEvent).

Definition page (ui : UI Combined.GameEvent) : Page :=
  if loading ui && (List.length (events ui) =? 0)%nat then Loading
  else
    match error ui with
    | Some message =>
        if truthy message then Failure message
        else if (List.length (events ui) =? 0)%nat then NoBets
        else RecentBets (slice0 12 (events ui)) (slice0 10 (events ui))
    | None =>
        if (List.length (events ui) =? 0)%nat then NoBets
        else RecentBets (slice0 12 (events ui)) (slice0 10 (events ui))
    end.

End CombinedView.

(** What the player view renders. *)
Module PlayerView.

Inductive Page : Type :=
| Loading
| Failure (message : string)
| ConnectWallet
| NoBets (account : string)
| YourBets (rows : list Player.RollEvent).

Definition page (isConnected : bool) (currentAccount : option string)
    (ui : UI Player.RollEvent) : Page :=
  if loading ui && (List.length (events ui) =? 0)%nat then Loading
  else
    let rest :=
      match currentAccount with
      | Some a =>
          if negb isConnected || negb (truthy a) then ConnectWallet
          else if (List.length (events ui) =? 0)%nat then NoBets (shortPlayer a)
          else YourBets (events ui)
      | None => ConnectWallet
      end in
    match error ui with
    | Some message => if truthy message then Failure message else rest
    | None => rest
    end.

End PlayerView.

(** * The vocabulary of the properties *)

Section TraceVocabulary.
Variable E : Type.

(** The writes of a trace. *)
Definition writes (t : Trace E) : Trace E := filter (@isSetter E) t.

(** A requirement on every action of a trace, given the number of
    suspension points that precede the action. *)
Variable Q : nat -> Action E -> Prop.

Fixpoint traceOK (c : nat) (t : Trace E) : Prop :=
  match t with
  | [] => True
  | a :: t' => Q c a /\ traceOK (awaits [a] + c)%nat t'
  end.

(** The requirement [Q] on a trace that holds actions put off: such an
    action takes place at a clock that the caller does not know, so it
    has to be allowed at every clock. *)
Definition lifted (c : nat) (a : Action E) : Prop :=
  match a with
  | Later a' => forall c', Q c' a'
  | _ => Q c a
  end.

(** [triple P m R]: started at a clock satisfying [P], the computation
    [m] performs only actions allowed by [Q], and a value it returns
    satisfies [R] at the clock it ends with. *)
Definition triple {A} (P : nat -> Prop) (m : M E A) (R : A -> nat -> Prop) : Prop :=
  forall c, P c ->
    traceOK c (snd (m c))
    /\ forall a, fst (m c) = Ok a -> R a (awaits (snd (m c)) + c)%nat.
End TraceVocabulary.

(** Decoding and block lookups issue no log query. *)
Definition noLogQuery {E} (_ : nat) (a : Action E) : Prop :=
  match a with
  | AwaitLogs _ _ _ => False
  | _ => True
  end.

(** No list is stored for display. *)
Definition noPublish {E} (_ : nat) (a : Action E) : Prop :=
  match a with
  | SetEvents _ => False
  | _ => True
  end.

(** The first block of the range of a cycle. *)
Definition firstBlock (latestBlock : Z) : Z :=
  Z.max (latestBlock - TOTAL_BLOCKS_TO_CHECK) 0.

(** [log] was returned by a query of [address] over one of the windows
    of the range. *)
Definition fetched (w : World) (address : string) (s l : Z) (log : Log) : Prop :=
  exists win logs,
    In win (chunkWindows s l)
    /\ getLogs w address (fst win) (snd win) = Ok logs
    /\ In log logs.

(** A log query of the cycle rejects: one of the windows of the range,
    asked of [address]. *)
Definition logQueryFails (w : World) (address : string) (latest : Z) : Prop :=
  exists win,
    In win (chunkWindows (firstBlock latest) latest)
    /\ getLogs w address (fst win) (snd win) = Thrown.

(** The logs a query over [win] resolved to; none when it rejected. *)
Definition windowLogs (w : World) (address : string) (win : Z * Z) : list Log :=
  match getLogs w address (fst win) (snd win) with
  | Ok logs => logs
  | Thrown => []
  end.

Section CombinedVocabulary.
Import Combined.
Variable w : World.

(** An event of the combined view built from [log] for the filter
    [acct]. *)
Definition fromLog (acct : string) (ev : GameEvent) (log : Log) : Prop :=
  exists args b g,
    parseLog w (topics log) (data log) = Ok (Some args)
    /\ getBlock w (logBlockNumber log) = Ok (Some b)
    /\ (truthy acct = true -> toLowerCase (argPlayer args) = toLowerCase acct)
    /\ ev = {| blockNumber := logBlockNumber log;
               transactionHash := orElse (logTransactionHash log) "unknown";
               player := toLowerCase (argPlayer args);
               amount := argAmount args;
               choice := Number (argChoice args);
               outcome := Number (argOutcome args);
               won := argWon args;
               gameType := g;
               timestamp := blockTimestamp b |}.

Section OneAccount.
Variable currentAccount : option string.

(** What holds of every action of a cycle of the combined view. *)
Definition combinedOK (c : nat) (a : Action GameEvent) : Prop :=
  match a with
  | AwaitLogs address f t =>
      exists latest,
        getBlockNumber w = Ok latest
        /\ In (f, t) (chunkWindows (firstBlock latest) latest)
  | SetEvents evs =>
      mountedAt w c = true
      /\ SortedDesc blockNumber evs
      /\ (List.length evs <= MAX_RESULTS)%nat
      /\ exists latest,
           getBlockNumber w = Ok latest
           /\ forall ev, In ev evs ->
                exists address log,
                  fetched w address (firstBlock latest) latest log
                  /\ fromLog (accountOrEmpty currentAccount) ev log
  | SetError _ | SetLoading _ => mountedAt w c = true
  | _ => True
  end.

(** The fetch of one contract in a cycle that read [latest] as the
    block height. *)
Definition contractFetch (address : string) (g : GameType) (latest : Z)
    : M GameEvent (list GameEvent) :=
  fetchEventsForContract w address g (firstBlock latest) latest
    (accountOrEmpty currentAccount).
End OneAccount.

Section OneFilter.
Variable g : GameType.
Variable acct : string.

(** The events and the lookups of one iteration of the decoding loop,
    read off a run of the iteration on an empty list. *)
Definition contribution (log : Log) : list GameEvent :=
  match fst (parseOne w g acct log [] 0%nat) with
  | Ok evs => evs
  | Thrown => []
  end.

Definition lookups (log : Log) : Trace GameEvent :=
  snd (parseOne w g acct log [] 0%nat).
End OneFilter.
End CombinedVocabulary.

Section PlayerVocabulary.
Import Player.
Variable w : World.
Variable currentAccount : string.

(** An event of the player view built from [log] for the account of
    the view. *)
Definition fromLogOf (ev : RollEvent) (log : Log) : Prop :=
  exists args b,
    parseLog w (topics log) (data log) = Ok (Some args)
    /\ getBlock w (logBlockNumber log) = Ok (Some b)
    /\ toLowerCase (argPlayer args) = toLowerCase currentAccount
    /\ ev = {| blockNumber := logBlockNumber log;
               transactionHash := orElse (logTransactionHash log) "unknown";
               player := toLowerCase (argPlayer args);
               amount := argAmount args;
               choice := Number (argChoice args);
               outcome := Number (argOutcome args);
               won := argWon args;
               timestamp := blockTimestamp b |}.

(** What holds of every action of a cycle of the player view. *)
Definition playerOK (c : nat) (a : Action RollEvent) : Prop :=
  match a with
  | AwaitLogs address f t =>
      exists latest,
        getBlockNumber w = Ok latest
        /\ In (f, t) (chunkWindows (firstBlock latest) latest)
  | SetEvents evs =>
      mountedAt w c = true
      /\ SortedDesc blockNumber evs
      /\ (List.length evs <= MAX_RESULTS)%nat
      /\ exists latest,
           getBlockNumber w = Ok latest
           /\ forall ev, In ev evs ->
                exists log,
                  fetched w CONTRACT_ADDRESS (firstBlock latest) latest log
                  /\ fromLogOf ev log
  | SetError _ | SetLoading _ => mountedAt w c = true
  | _ => True
  end.

Definition playerContribution (log : Log) : list RollEvent :=
  match fst (parseOne w currentAccount log [] 0%nat) with
  | Ok evs => evs
  | Thrown => []
  end.

Definition playerLookups (log : Log) : Trace RollEvent :=
  snd (parseOne w currentAccount log [] 0%nat).

(** The chunk loop of a cycle that read [latest] as the block height. *)
Definition playerChunks (latest : Z) : M RollEvent (list Log) :=
  let cn := ceilDiv (latest - firstBlock latest) MAX_CHUNK_SIZE in
  chunkLoop w (isMounted _ w) CONTRACT_ADDRESS (firstBlock latest) latest
    cn (Z.to_nat cn) 0 [].
End PlayerVocabulary.

(** The events of the logs of the range of a cycle that read [latest]
    as the block height: for one contract of the combined view, for the
    two of them in the order the view joins them, and for the player
    view. *)
Definition contractEvents (w : World) (address : string) (g : Combined.GameType)
    (acct : string) (latest : Z) : list Combined.GameEvent :=
  flat_map (contribution w g acct)
    (flat_map (windowLogs w address) (chunkWindows (firstBlock latest) latest)).

Definition combinedEvents (w : World) (currentAccount : option string)
    (latest : Z) : list Combined.GameEvent :=
  contractEvents w Combined.DICE_CONTRACT_ADDRESS Combined.dice
    (Combined.accountOrEmpty currentAccount) latest
  ++ contractEvents w Combined.COINFLIP_CONTRACT_ADDRESS Combined.coinflip
       (Combined.accountOrEmpty currentAccount) latest.

Definition playerEvents (w : World) (currentAccount : string) (latest : Z)
    : list Player.RollEvent :=
  flat_map (playerContribution w currentAccount)
    (flat_map (windowLogs w Player.CONTRACT_ADDRESS)
       (chunkWindows (firstBlock latest) latest)).

(** The number of log queries of a trace, with those that are put
    off. *)
Definition asked {E} (t : Trace E) : nat :=
  List.length (queried (direct t ++ deferred t)).

(** The event the combined view builds from [log] when it does not
    look at the player: none when the log does not decode or its block
    does not resolve. *)
Definition everyPlayer (w : World) (g : Combined.GameType) (log : Log)
    : list Combined.GameEvent :=
  match parseLog w (topics log) (data log) with
  | Ok (Some args) =>
      match getBlock w (logBlockNumber log) with
      | Ok (Some b) =>
          [ {| Combined.blockNumber := logBlockNumber log;
               Combined.transactionHash := orElse (logTransactionHash log) "unknown";
               Combined.player := toLowerCase (argPlayer args);
               Combined.amount := argAmount args;
               Combined.choice := Number (argChoice args);
               Combined.outcome := Number (argOutcome args);
               Combined.won := argWon args;
               Combined.gameType := g;
               Combined.timestamp := blockTimestamp b |} ]
      | _ => []
      end
  | _ => []
  end.

(** The events of every player in the logs of the range of a cycle that
    read [latest] as the block height, for one contract. *)
Definition everyPlayerEvents (w : World) (address : string)
    (g : Combined.GameType) (latest : Z) : list Combined.GameEvent :=
  flat_map (everyPlayer w g)
    (flat_map (windowLogs w address) (chunkWindows (firstBlock latest) latest)).

(** A computation asks for logs at most [N] times, whenever it is
    started. *)
Definition queriesAtMost {E A} (N : nat) (m : M E A) : Prop :=
  forall c, (asked (snd (m c)) <= N)%nat.

(** The same provider and decoder, with another moment of teardown. *)
Definition withTeardown (w : World) (td : option nat) : World :=
  mkWorld (getBlockNumber w) (getLogs w) (getBlock w) (parseLog w) td (schedule w).

(** The contract a game type is fetched from. *)
Definition contractOf (g : Combined.GameType) : string :=
  match g with
  | Combined.dice => Combined.DICE_CONTRACT_ADDRESS
  | Combined.coinflip => Combined.COINFLIP_CONTRACT_ADDRESS
  end.

(** A trace keeps its log queries apart: [ok] says whether a log query
    may come next, which it may not after a log query until a delay has
    passed. *)
Fixpoint spaced {E} (ok : bool) (t : Trace E) : bool :=
  match t with
  | [] => true
  | AwaitLogs _ _ _ :: t' => ok && spaced false t'
  | AwaitDelay :: t' => spaced true t'
  | _ :: t' => spaced ok t'
  end.

(** * Properties *)

(** ** Lower-casing and number conversion *)

Lemma lowerChar_idempotent (c : ascii) : lowerChar (lowerChar c) = lowerChar c.
Proof.
  destruct c as [[] [] [] [] [] [] [] []]; reflexivity.
Qed.

Lemma toLowerCase_idempotent (s : string) :
  toLowerCase (toLowerCase s) = toLowerCase s.
Proof.
  induction s as [|c s IH]; simpl.
  - reflexivity.
  - now rewrite lowerChar_idempotent, IH.
Qed.

Lemma Number_exact (x : Z) : x <= 2 ^ 53 -> Number x = x.
Proof.
  intros Hx. unfold Number.
  destruct (x <? 2 ^ 53) eqn:Hlt; [reflexivity|].
  apply Z.ltb_ge in Hlt.
  assert (x = 2 ^ 53) as -> by lia.
  reflexivity.
Qed.

(** Rounding does not take a value below [2 ^ 53]. *)
Lemma Number_large (x : Z) : 2 ^ 53 <= x -> 2 ^ 53 <= Number x.
Proof.
  intros Hx. unfold Number.
  destruct (x <? 2 ^ 53) eqn:Hlt; [apply Z.ltb_lt in Hlt; lia|].
  set (e := Z.log2 x - 52).
  assert (53 <= Z.log2 x) as Hlog.
  { change 53 with (Z.log2 (2 ^ 53)). apply Z.log2_le_mono. exact Hx. }
  assert (1 <= e) as He by (unfold e; lia).
  pose proof (Z.log2_spec x ltac:(lia)) as [Hlow _].
  assert (2 ^ 52 <= Z.shiftr x e) as Hq.
  { rewrite Z.shiftr_div_pow2 by lia.
    apply Z.div_le_lower_bound; [apply Z.pow_pos_nonneg; lia|].
    rewrite <- Z.pow_add_r by lia.
    replace (e + 52) with (Z.log2 x) by (unfold e; lia). exact Hlow. }
  assert (2 <= 2 ^ e) as Hpow.
  { change 2 with (2 ^ 1) at 1. apply Z.pow_le_mono_r; lia. }
  set (q := Z.shiftr x e) in *.
  match goal with |- _ <= ?q' * _ => assert (2 ^ 52 <= q') as Hq' end.
  { destruct ((2 ^ (e - 1) <? x - Z.shiftl q e)
              || (x - Z.shiftl q e =? 2 ^ (e - 1)) && Z.odd q)%bool; lia. }
  change (2 ^ 53) with (2 ^ 52 * 2).
  apply Z.mul_le_mono_nonneg; lia.
Qed.

Lemma roundToDouble_exact (x : Z) : Z.abs x <= 2 ^ 53 -> roundToDouble x = x.
Proof.
  intros Hx. unfold roundToDouble.
  destruct (x <? 0) eqn:Hneg.
  - apply Z.ltb_lt in Hneg. rewrite Number_exact by lia. lia.
  - apply Z.ltb_ge in Hneg. apply Number_exact. lia.
Qed.

(** Rounding keeps a difference on its side of a minute. *)
Lemma roundToDouble_minute (x : Z) : roundToDouble x < 60000 <-> x < 60000.
Proof.
  unfold roundToDouble.
  destruct (x <? 0) eqn:Hneg.
  - apply Z.ltb_lt in Hneg.
    destruct (Z.le_gt_cases (2 ^ 53) (- x)) as [Hbig|Hsmall].
    + pose proof (Number_large Hbig). lia.
    + rewrite Number_exact by lia. lia.
  - apply Z.ltb_ge in Hneg.
    destruct (Z.le_gt_cases (2 ^ 53) x) as [Hbig|Hsmall].
    + pose proof (Number_large Hbig). lia.
    + rewrite Number_exact by lia. lia.
Qed.

(** ** Sorting and slicing *)

Section SortFacts.
Variable T : Type.
Variable key : T -> Z.

Lemma insertDesc_perm (x : T) (l : list T) :
  Permutation (insertDesc key x l) (x :: l).
Proof.
  induction l as [|y l IH]; simpl.
  - apply Permutation_refl.
  - destruct (key y <=? key x).
    + apply Permutation_refl.
    + eapply perm_trans; [apply perm_skip, IH | apply perm_swap].
Qed.

Lemma sortDesc_perm (l : list T) : Permutation (sortDesc key l) l.
Proof.
  induction l as [|x l IH]; simpl.
  - apply perm_nil.
  - eapply perm_trans; [apply insertDesc_perm | apply perm_skip, IH].
Qed.

Lemma sortDesc_In (x : T) (l : list T) : In x (sortDesc key l) <-> In x l.
Proof.
  split; apply Permutation_in;
    [apply sortDesc_perm | apply Permutation_sym, sortDesc_perm].
Qed.

Lemma insertDesc_hd (a x : T) (l : list T) :
  key x <= key a ->
  HdRel (fun a b => key b <= key a) a l ->
  HdRel (fun a b => key b <= key a) a (insertDesc key x l).
Proof.
  intros Hxa Hl. destruct l as [|y l]; simpl.
  - constructor. exact Hxa.
  - destruct (key y <=? key x); constructor.
    + exact Hxa.
    + inversion Hl; subst. assumption.
Qed.

Lemma insertDesc_sorted (x : T) (l : list T) :
  SortedDesc key l -> SortedDesc key (insertDesc key x l).
Proof.
  unfold SortedDesc. induction l as [|y l IH]; intros Hs; simpl.
  - repeat constructor.
  - destruct (key y <=? key x) eqn:Hyx.
    + constructor; [exact Hs|]. constructor. now apply Z.leb_le.
    + apply Z.leb_gt in Hyx.
      inversion Hs as [|? ? Hs' Hhd]; subst.
      constructor; [now apply IH|].
      apply insertDesc_hd; [lia | assumption].
Qed.

Lemma sortDesc_sorted (l : list T) : SortedDesc key (sortDesc key l).
Proof.
  induction l as [|x l IH]; simpl.
  - constructor.
  - now apply insertDesc_sorted.
Qed.

Lemma slice0_sorted (n : nat) (l : list T) :
  SortedDesc key l -> SortedDesc key (slice0 n l).
Proof.
  unfold SortedDesc, slice0. revert l.
  induction n as [|n IH]; intros l Hs; simpl.
  - constructor.
  - destruct l as [|x l]; [constructor|].
    inversion Hs as [|? ? Hs' Hhd]; subst.
    constructor; [now apply IH|].
    destruct l as [|y l]; destruct n; simpl; constructor.
    now inversion Hhd.
Qed.

Lemma slice0_length (n : nat) (l : list T) : (List.length (slice0 n l) <= n)%nat.
Proof. apply firstn_le_length. Qed.

Lemma slice0_In (n : nat) (x : T) (l : list T) : In x (slice0 n l) -> In x l.
Proof.
  unfold slice0. revert l. induction n as [|n IH]; intros [|y l]; simpl; try tauto.
  intros [->|H]; [now left | right; now apply IH].
Qed.

(** What both components store: sorted, cut to [n] entries, and made
    of the entries of the list they were given. *)
Lemma display_list (n : nat) (l : list T) :
  SortedDesc key (slice0 n (sortDesc key l))
  /\ (List.length (slice0 n (sortDesc key l)) <= n)%nat
  /\ forall x, In x (slice0 n (sortDesc key l)) -> In x l.
Proof.
  split; [|split].
  - apply slice0_sorted, sortDesc_sorted.
  - apply slice0_length.
  - intros x Hx. apply sortDesc_In. eapply slice0_In; eassumption.
Qed.
End SortFacts.

(** ** The chunk windows *)

Lemma ceilDiv_spec (a : Z) :
  (ceilDiv a MAX_CHUNK_SIZE - 1) * MAX_CHUNK_SIZE < a
  <= ceilDiv a MAX_CHUNK_SIZE * MAX_CHUNK_SIZE.
Proof.
  unfold ceilDiv, MAX_CHUNK_SIZE.
  pose proof (Z.div_mod (- a) 450 ltac:(lia)) as Hdm.
  pose proof (Z.mod_pos_bound (- a) 450 ltac:(lia)) as Hb.
  lia.
Qed.

Lemma windowsFrom_In (s l : Z) (n : nat) (i : Z) (win : Z * Z) :
  In win (windowsFrom s l n i) <->
  exists j, i <= j < i + Z.of_nat n /\ win = chunkWindow s l j.
Proof.
  revert i. induction n as [|n IH]; intros i; simpl.
  - split; [tauto | intros (j & Hj & _); lia].
  - rewrite IH. split.
    + intros [<-|(j & Hj & ->)]; [exists i | exists j]; split; auto; lia.
    + intros (j & Hj & ->).
      destruct (Z.eq_dec j i) as [->|Hne]; [now left | right].
      exists j; split; [lia | reflexivity].
Qed.

Lemma chunkWindows_In (s l : Z) (win : Z * Z) :
  In win (chunkWindows s l) <->
  exists j, 0 <= j < ceilDiv (l - s) MAX_CHUNK_SIZE /\ win = chunkWindow s l j.
Proof.
  unfold chunkWindows. rewrite windowsFrom_In.
  split; intros (j & Hj & ->); exists j; (split; [lia | reflexivity]).
Qed.

(** No window reaches below [startBlock] or above [latestBlock], and no
    window is empty. *)
Lemma chunkWindows_bounds (s l : Z) (win : Z * Z) :
  In win (chunkWindows s l) ->
  s <= fst win /\ fst win < snd win /\ snd win <= l.
Proof.
  rewrite chunkWindows_In. intros (j & Hj & ->).
  pose proof (ceilDiv_spec (l - s)) as Hc.
  unfold chunkWindow, MAX_CHUNK_SIZE in *; simpl. nia.
Qed.

(** A window holds at most [MAX_CHUNK_SIZE + 1] blocks. *)
Lemma chunkWindows_size (s l : Z) (win : Z * Z) :
  In win (chunkWindows s l) -> windowBlocks win <= MAX_CHUNK_SIZE + 1.
Proof.
  rewrite chunkWindows_In. intros (j & Hj & ->).
  unfold windowBlocks, chunkWindow, MAX_CHUNK_SIZE; simpl. lia.
Qed.

(** When the range holds more than one block, every block of it lies in
    some window. *)
Lemma chunkWindows_cover (s l b : Z) :
  s < l -> s <= b <= l ->
  exists win, In win (chunkWindows s l) /\ inWindow b win = true.
Proof.
  intros Hsl Hb.
  pose proof (ceilDiv_spec (l - s)) as Hc.
  set (n := ceilDiv (l - s) MAX_CHUNK_SIZE) in *.
  (* the index of the window of [b], counted from the top *)
  set (j := Z.min ((l - b) / MAX_CHUNK_SIZE) (n - 1)).
  pose proof (Z.div_mod (l - b) MAX_CHUNK_SIZE ltac:(unfold MAX_CHUNK_SIZE; lia)) as Hdm.
  pose proof (Z.mod_pos_bound (l - b) MAX_CHUNK_SIZE ltac:(unfold MAX_CHUNK_SIZE; lia)) as Hmb.
  assert (0 <= (l - b) / MAX_CHUNK_SIZE)
    by (apply Z.div_pos; unfold MAX_CHUNK_SIZE; lia).
  exists (chunkWindow s l j). split.
  - apply chunkWindows_In. exists j. split; [|reflexivity].
    unfold MAX_CHUNK_SIZE in *. subst j. lia.
  - unfold inWindow, chunkWindow; simpl.
    apply andb_true_iff; split; apply Z.leb_le;
      unfold MAX_CHUNK_SIZE in *; subst j; nia.
Qed.

(** Two windows in a row share a block: when the range needs more than
    one query, the first two windows both hold the block
    [l - MAX_CHUNK_SIZE], and the first one holds [MAX_CHUNK_SIZE + 1]
    blocks. *)
Lemma chunkWindows_overlap (s l : Z) :
  MAX_CHUNK_SIZE < l - s ->
  exists w1 w2 rest,
    chunkWindows s l = w1 :: w2 :: rest
    /\ inWindow (l - MAX_CHUNK_SIZE) w1 = true
    /\ inWindow (l - MAX_CHUNK_SIZE) w2 = true
    /\ windowBlocks w1 = MAX_CHUNK_SIZE + 1.
Proof.
  intros Hlen. unfold chunkWindows.
  pose proof (ceilDiv_spec (l - s)) as Hc.
  set (cn := ceilDiv (l - s) MAX_CHUNK_SIZE) in *.
  assert (2 <= cn) as Hcn by (unfold MAX_CHUNK_SIZE in *; lia).
  destruct (Z.to_nat cn) as [|[|n]] eqn:Hn; try lia.
  simpl. do 3 eexists. split; [reflexivity|].
  unfold inWindow, windowBlocks, chunkWindow, MAX_CHUNK_SIZE in *; simpl.
  repeat split; try (apply andb_true_iff; split; apply Z.leb_le); lia.
Qed.

(** ** Unfolding a sequence *)

Section Runs.
Variable E : Type.

Lemma fst_bind_ok {A B} (m : M E A) (f : A -> M E B) (c : nat) (a : A) (t : Trace E) :
  m c = (Ok a, t) -> fst (bind m f c) = fst (f a (awaits t + c)%nat).
Proof.
  intros H. unfold bind. rewrite H. now destruct (f a (awaits t + c)%nat).
Qed.

Lemma snd_bind_ok {A B} (m : M E A) (f : A -> M E B) (c : nat) (a : A) (t : Trace E) :
  m c = (Ok a, t) -> snd (bind m f c) = t ++ snd (f a (awaits t + c)%nat).
Proof.
  intros H. unfold bind. rewrite H. now destruct (f a (awaits t + c)%nat).
Qed.

Lemma fst_bind_thrown {A B} (m : M E A) (f : A -> M E B) (c : nat) :
  fst (m c) = Thrown -> fst (bind m f c) = Thrown.
Proof.
  unfold bind. destruct (m c) as [[a|] t]; simpl; [discriminate | reflexivity].
Qed.

Lemma snd_bind_thrown {A B} (m : M E A) (f : A -> M E B) (c : nat) :
  fst (m c) = Thrown -> snd (bind m f c) = snd (m c).
Proof.
  unfold bind. destruct (m c) as [[a|] t]; simpl; [discriminate | reflexivity].
Qed.

(** Running a computation step by step. *)
Lemma bind_eq {A B} (m : M E A) (f : A -> M E B) (c : nat) (a : A)
    (t t' : Trace E) (r' : Outcome B) :
  m c = (Ok a, t) -> f a (awaits t + c)%nat = (r', t') ->
  bind m f c = (r', t ++ t').
Proof. intros Hm Hf. unfold bind. now rewrite Hm, Hf. Qed.

Lemma bind_eq_thrown {A B} (m : M E A) (f : A -> M E B) (c : nat) (t : Trace E) :
  m c = (Thrown, t) -> bind m f c = (Thrown, t).
Proof. intros Hm. unfold bind. now rewrite Hm. Qed.

Lemma tryCatch_eq_ok {A} (m h : M E A) (c : nat) (a : A) (t : Trace E) :
  m c = (Ok a, t) -> tryCatch m h c = (Ok a, t).
Proof. intros Hm. unfold tryCatch. now rewrite Hm. Qed.

Lemma tryCatch_eq_thrown {A} (m h : M E A) (c : nat) (t t' : Trace E)
    (r' : Outcome A) :
  m c = (Thrown, t) -> h (awaits t + c)%nat = (r', t') ->
  tryCatch m h c = (r', t ++ t').
Proof. intros Hm Hh. unfold tryCatch. now rewrite Hm, Hh. Qed.

Lemma tryFinally_eq {A} (m : M E A) (f : M E unit) (c : nat)
    (r : Outcome A) (r' : Outcome unit) (t t' : Trace E) :
  m c = (r, t) -> f (awaits t + c)%nat = (r', t') ->
  tryFinally m f c = (r, t ++ t').
Proof. intros Hm Hf. unfold tryFinally. now rewrite Hm, Hf. Qed.

Lemma promiseAll_eq (w : World) {A B} (ma : M E A) (mb : M E B) (c : nat)
    (ra : Outcome A) (rb : Outcome B) (ta tb : Trace E) :
  ma c = (ra, ta) -> mb c = (rb, tb) ->
  promiseAll w ma mb c
  = (match ra, rb with Ok a, Ok b => Ok (a, b) | _, _ => Thrown end,
     sideBySide (schedule w) ta tb (rejected ra) (rejected rb)).
Proof. intros Ha Hb. unfold promiseAll. now rewrite Ha, Hb. Qed.

Lemma complete_eq {A} (m : M E A) (c : nat) (r : Outcome A) (t : Trace E) :
  m c = (r, t) -> complete m c = (r, direct t ++ deferred t).
Proof. intros Hm. unfold complete. now rewrite Hm. Qed.

Lemma writes_app (t t' : Trace E) : writes (t ++ t') = writes t ++ writes t'.
Proof. apply filter_app. Qed.

Lemma direct_app (t t' : Trace E) : direct (t ++ t') = direct t ++ direct t'.
Proof.
  induction t as [|a t IH]; simpl; [reflexivity|].
  destruct a; simpl; now rewrite ?IH.
Qed.

Lemma deferred_app (t t' : Trace E) : deferred (t ++ t') = deferred t ++ deferred t'.
Proof.
  induction t as [|a t IH]; simpl; [reflexivity|].
  destruct a; simpl; now rewrite ?IH.
Qed.

Lemma await_not_setter (a : Action E) : isAwait a = true -> isSetter a = false.
Proof. destruct a; simpl; intros H; try discriminate; reflexivity. Qed.

(** An action of a task, as it stands in the trace of two tasks side by
    side: taken now or put off. *)
Lemma sideBySide_Forall (G : Action E -> Prop) (s : list bool) :
  forall (ta tb : Trace E) (ea eb : bool),
  Forall (fun a => G a /\ G (Later a)) ta ->
  Forall (fun a => G a /\ G (Later a)) tb ->
  Forall G (sideBySide s ta tb ea eb).
Proof.
  assert (forall (t : Trace E) (e : bool),
            Forall (fun a => G a /\ G (Later a)) t ->
            Forall G (if e then map Later t else t)) as Hrest.
  { intros t e Ht. destruct e.
    - apply Forall_map. revert Ht. apply Forall_impl. tauto.
    - revert Ht. apply Forall_impl. tauto. }
  induction s as [|b s IH]; intros ta tb ea eb Ha Hb.
  - destruct ta as [|a ta], tb as [|b' tb];
      [ exact (Hrest _ ea Hb) | exact (Hrest _ ea Hb) | exact (Hrest _ eb Ha) | ].
    cbn [sideBySide]. apply Forall_app. split; [|exact (Hrest _ ea Hb)].
    revert Ha. apply Forall_impl. tauto.
  - destruct ta as [|a ta], tb as [|b' tb];
      [ exact (Hrest _ ea Hb) | exact (Hrest _ ea Hb) | exact (Hrest _ eb Ha) | ].
    simpl. destruct b.
    + inversion Ha; subst. constructor; [tauto|]. now apply IH.
    + inversion Hb; subst. constructor; [tauto|]. now apply IH.
Qed.

(** The state a trace leads to is the state its writes lead to. *)
Lemma render_writes (ui : UI E) (t : Trace E) : render ui (writes t) = render ui t.
Proof.
  revert ui. induction t as [|a t IH]; intros ui; simpl; [reflexivity|].
  destruct a; simpl; apply IH.
Qed.

(** While the view stays mounted. *)
Section Mounted.
Variable w : World.
Hypothesis Hnone : teardown w = None.

Lemma mounted_always (c : nat) : mountedAt w c = true.
Proof. unfold mountedAt. now rewrite Hnone. Qed.

Lemma isMounted_eq (c : nat) : isMounted E w c = (Ok true, []).
Proof. unfold isMounted. now rewrite mounted_always. Qed.

Lemma whenMounted_eq (m : M E unit) (c : nat) : whenMounted w m c = m c.
Proof.
  unfold whenMounted, bind. rewrite isMounted_eq. simpl.
  now destruct (m c).
Qed.
End Mounted.
End Runs.

(** ** Reasoning about asynchronous computations *)

Section Logic.
Variable E : Type.
Variable w : World.

Lemma awaits_app (t t' : Trace E) : awaits (t ++ t') = (awaits t + awaits t')%nat.
Proof. unfold awaits. now rewrite filter_app, length_app. Qed.

Variable Q : nat -> Action E -> Prop.

Lemma traceOK_app (c : nat) (t t' : Trace E) :
  traceOK Q c (t ++ t') <-> traceOK Q c t /\ traceOK Q (awaits t + c)%nat t'.
Proof.
  revert c. induction t as [|a t IH]; intros c; simpl.
  - tauto.
  - rewrite IH.
    replace (awaits (a :: t) + c)%nat with (awaits t + (awaits [a] + c))%nat
      by (change (a :: t) with ([a] ++ t); rewrite awaits_app; lia).
    tauto.
Qed.

Lemma triple_conseq {A} (P P' : nat -> Prop) (m : M E A) (R R' : A -> nat -> Prop) :
  triple Q P m R ->
  (forall c, P' c -> P c) ->
  (forall a c, R a c -> R' a c) ->
  triple Q P' m R'.
Proof.
  intros Hm HP HR c Hc. destruct (Hm c (HP c Hc)) as [Ht Hr].
  split; [exact Ht | intros a Ha; apply HR, Hr, Ha].
Qed.

Lemma triple_ret {A} (P : nat -> Prop) (a : A) (R : A -> nat -> Prop) :
  (forall c, P c -> R a c) -> triple Q P (ret a) R.
Proof.
  intros H c Hc; simpl. split; [exact I|].
  intros a' [= <-]. now apply H.
Qed.

Lemma triple_throw {A} (P : nat -> Prop) (R : A -> nat -> Prop) :
  triple Q P throw R.
Proof. intros c _; simpl. split; [exact I | discriminate]. Qed.

Lemma triple_bind {A B} (P : nat -> Prop) (m : M E A) (f : A -> M E B)
    (R : A -> nat -> Prop) (R' : B -> nat -> Prop) :
  triple Q P m R ->
  (forall a, triple Q (R a) (f a) R') ->
  triple Q P (bind m f) R'.
Proof.
  intros Hm Hf c Hc. unfold bind.
  destruct (Hm c Hc) as [Ht Hr].
  destruct (m c) as [[a|] t]; simpl in *.
  - specialize (Hf a _ (Hr a eq_refl)).
    destruct (f a (awaits t + c)%nat) as [r' t']; simpl in *.
    destruct Hf as [Ht' Hr'].
    split.
    + apply traceOK_app. now split.
    + intros b Hb.
      replace (awaits (t ++ t') + c)%nat with (awaits t' + (awaits t + c))%nat
        by (rewrite awaits_app; lia).
      now apply Hr'.
  - split; [exact Ht | discriminate].
Qed.

Lemma triple_await {A} (P : nat -> Prop) (a : Action E) (p : Outcome A)
    (R : A -> nat -> Prop) :
  (forall c, P c -> Q c a) ->
  (forall c x, P c -> p = Ok x -> R x (awaits [a] + c)%nat) ->
  triple Q P (await a p) R.
Proof.
  intros Ha Hp c Hc; simpl. split; [split; [now apply Ha | exact I]|].
  intros x Hx. now apply Hp.
Qed.

Lemma triple_emit (P : nat -> Prop) (a : Action E) (R : unit -> nat -> Prop) :
  isAwait a = false ->
  (forall c, P c -> Q c a) ->
  (forall c, P c -> R tt c) ->
  triple Q P (emit a) R.
Proof.
  intros Hs Ha Hr c Hc; simpl. split; [split; [now apply Ha | exact I]|].
  intros [] _. unfold awaits; simpl. rewrite Hs; simpl.
  now apply Hr.
Qed.

Lemma triple_isMounted (P : nat -> Prop) (R : bool -> nat -> Prop) :
  (forall c, P c -> R (mountedAt w c) c) ->
  triple Q P (isMounted E w) R.
Proof.
  intros H c Hc; simpl. split; [exact I|].
  intros b [= <-]. now apply H.
Qed.

Lemma triple_whenMounted (P : nat -> Prop) (m : M E unit) (R : unit -> nat -> Prop) :
  triple Q (fun c => P c /\ mountedAt w c = true) m R ->
  (forall c, P c -> mountedAt w c = false -> R tt c) ->
  triple Q P (whenMounted w m) R.
Proof.
  intros Hm Hr. unfold whenMounted.
  apply triple_bind with (R := fun b c => P c /\ b = mountedAt w c).
  - apply triple_isMounted. auto.
  - intros [|].
    + eapply triple_conseq; [exact Hm | | auto].
      intros c [Hc Hb]; auto.
    + apply triple_ret. intros c [Hc Hb]. now apply Hr.
Qed.

Lemma triple_tryCatch {A} (P : nat -> Prop) (m h : M E A) (R : A -> nat -> Prop) :
  triple Q P m R ->
  triple Q (fun _ => True) h R ->
  triple Q P (tryCatch m h) R.
Proof.
  intros Hm Hh c Hc. unfold tryCatch.
  destruct (Hm c Hc) as [Ht Hr].
  destruct (m c) as [[a|] t]; simpl in *.
  - split; [exact Ht | exact Hr].
  - specialize (Hh (awaits t + c)%nat I).
    destruct (h (awaits t + c)%nat) as [r' t']; simpl in *.
    destruct Hh as [Ht' Hr'].
    split.
    + apply traceOK_app. now split.
    + intros b Hb.
      replace (awaits (t ++ t') + c)%nat with (awaits t' + (awaits t + c))%nat
        by (rewrite awaits_app; lia).
      now apply Hr'.
Qed.

Lemma triple_tryFinally {A} (P : nat -> Prop) (m : M E A) (f : M E unit)
    (R : A -> nat -> Prop) (R' : unit -> nat -> Prop) :
  triple Q P m R ->
  triple Q (fun _ => True) f R' ->
  triple Q P (tryFinally m f) (fun _ _ => True).
Proof.
  intros Hm Hf c Hc. unfold tryFinally.
  destruct (Hm c Hc) as [Ht _].
  destruct (m c) as [r t]; simpl in *.
  specialize (Hf (awaits t + c)%nat I).
  destruct (f (awaits t + c)%nat) as [r' t']; simpl in *.
  split; [|trivial].
  apply traceOK_app. split; [exact Ht | apply Hf].
Qed.

(** A requirement that does not look at the clock. *)
Lemma traceOK_const (G : Action E -> Prop) (c : nat) (t : Trace E) :
  traceOK (fun _ => G) c t <-> Forall G t.
Proof.
  revert c. induction t as [|a t IH]; intros c; simpl.
  - split; auto.
  - rewrite IH. split.
    + intros [Ha Ht]. now constructor.
    + intros H. inversion H; subst. now split.
Qed.

Lemma traceOK_Forall (Q0 : nat -> Action E -> Prop) (c : nat) (t : Trace E) :
  Forall (fun a => forall c', Q0 c' a) t -> traceOK Q0 c t.
Proof.
  revert c. induction t as [|a t IH]; intros c Ht; simpl; [exact I|].
  inversion Ht; subst. split; [auto | now apply IH].
Qed.

(** Two tasks side by side that only suspend, on actions allowed at
    every clock: whichever way the provider answers them, the caller
    gets what both have returned. *)
Lemma triple_promiseAll {A B} (P : nat -> Prop) (ma : M E A) (mb : M E B)
    (Ra : A -> Prop) (Rb : B -> Prop) :
  triple (fun _ a => isAwait a = true /\ forall c, Q c a) P ma (fun a _ => Ra a) ->
  triple (fun _ a => isAwait a = true /\ forall c, Q c a) P mb (fun b _ => Rb b) ->
  triple (lifted Q) P (promiseAll w ma mb) (fun ab _ => Ra (fst ab) /\ Rb (snd ab)).
Proof.
  intros Ha Hb c Hc. unfold promiseAll.
  destruct (Ha c Hc) as [Hta Hra]. destruct (Hb c Hc) as [Htb Hrb].
  destruct (ma c) as [ra ta], (mb c) as [rb tb]; simpl in *.
  apply traceOK_const in Hta, Htb.
  split.
  - apply traceOK_Forall.
    apply sideBySide_Forall; [revert Hta | revert Htb]; apply Forall_impl;
      intros a [Hw Hq]; (split; [|intros c'; exact Hq]);
      intros c'; destruct a; simpl in *; try discriminate; apply Hq.
  - intros [a b] Hab. destruct ra as [a'|], rb as [b'|]; try discriminate.
    injection Hab as -> ->. simpl. split; [now apply Hra | now apply Hrb].
Qed.

(** What was allowed with actions put off is allowed once they have
    been performed. *)
Lemma traceOK_direct (c : nat) (t : Trace E) :
  traceOK (lifted Q) c t -> traceOK Q c (direct t).
Proof.
  revert c. induction t as [|a t IH]; intros c; simpl; [auto|].
  intros [Ha Ht]. destruct a; simpl in *; try (split; [exact Ha | now apply IH]).
  now apply IH.
Qed.

Lemma traceOK_deferred (c : nat) (t : Trace E) :
  traceOK (lifted Q) c t -> Forall (fun a => forall c', Q c' a) (deferred t).
Proof.
  revert c. induction t as [|a t IH]; intros c; simpl; [auto|].
  intros [Ha Ht]. destruct a; simpl in *; try (eapply IH; exact Ht).
  constructor; [exact Ha | eapply IH; exact Ht].
Qed.

Lemma triple_complete {A} (m : M E A) (R : A -> nat -> Prop) :
  triple (lifted Q) (fun _ => True) m R ->
  forall c, traceOK Q c (snd (complete m c)).
Proof.
  intros Hm c. destruct (Hm c I) as [Ht _]. unfold complete.
  destruct (m c) as [r t]; simpl in *.
  apply traceOK_app. split.
  - now apply traceOK_direct.
  - apply traceOK_Forall. eapply traceOK_deferred. exact Ht.
Qed.
End Logic.

(** ** The chunk loop *)

Section ChunkLoop.
Variable E : Type.
Variable w : World.
Variable Q : nat -> Action E -> Prop.

(** The loop queries only windows of the indices it runs over, and
    returns only logs that were given to it or that a query resolved
    to. *)
Lemma triple_chunkLoop (guard : M E bool) (address : string)
    (s l cn : Z) (PL : Log -> Prop) (n : nat) :
  forall (i : Z) (allLogs : list Log),
  triple Q (fun _ => True) guard (fun _ _ => True) ->
  (forall c j, i <= j < i + Z.of_nat n ->
     Q c (AwaitLogs address (Z.max (l - j * MAX_CHUNK_SIZE - MAX_CHUNK_SIZE) s)
                    (l - j * MAX_CHUNK_SIZE))) ->
  (forall c, Q c AwaitDelay) ->
  (forall j logs, i <= j < i + Z.of_nat n ->
     getLogs w address (Z.max (l - j * MAX_CHUNK_SIZE - MAX_CHUNK_SIZE) s)
             (l - j * MAX_CHUNK_SIZE) = Ok logs ->
     Forall PL logs) ->
  Forall PL allLogs ->
  triple Q (fun _ => True)
    (chunkLoop w guard address s l cn n i allLogs)
    (fun logs _ => Forall PL logs).
Proof.
  induction n as [|n IH]; intros i allLogs Hg Hq Hd Hl Hacc; simpl.
  - apply triple_ret. auto.
  - eapply triple_bind; [exact Hg|].
    intros [|]; [|apply triple_ret; auto].
    eapply triple_bind with (R := fun logs _ => Forall PL logs).
    { apply triple_await.
      - intros c _. apply Hq. lia.
      - intros c logs _ Hlogs. apply (Hl i); [lia | exact Hlogs]. }
    intros logs.
    eapply triple_bind with (R := fun _ _ => Forall PL logs).
    { destruct (i <? cn - 1).
      - apply triple_await; auto.
      - apply triple_ret; auto. }
    intros _. intros c Hc.
    apply (IH (i + 1) (allLogs ++ logs)); auto.
    + intros c' j Hj. apply Hq. lia.
    + intros j logs' Hj. apply Hl. lia.
    + apply Forall_app. auto.
Qed.

(** While the loop condition holds, a query that rejects makes the
    loop reject. *)
Lemma chunkLoop_rejects (guard : M E bool) (address : string)
    (s l cn : Z) (n : nat) :
  (forall c, guard c = (Ok true, [])) ->
  forall (i : Z) (allLogs : list Log) (c : nat) (j : Z),
  i <= j < i + Z.of_nat n ->
  getLogs w address (Z.max (l - j * MAX_CHUNK_SIZE - MAX_CHUNK_SIZE) s)
          (l - j * MAX_CHUNK_SIZE) = Thrown ->
  fst (chunkLoop w guard address s l cn n i allLogs c) = Thrown.
Proof.
  intros Hg.
  induction n as [|n IH]; intros i allLogs c j Hj Hthrown; [lia|].
  simpl. rewrite fst_bind_ok with (a := true) (t := []) by apply Hg.
  destruct (getLogs w address (Z.max (l - i * MAX_CHUNK_SIZE - MAX_CHUNK_SIZE) s)
                    (l - i * MAX_CHUNK_SIZE)) as [logs|] eqn:Hi.
  - assert (j <> i) by (intros ->; congruence).
    erewrite fst_bind_ok by reflexivity.
    destruct (i <? cn - 1).
    + erewrite fst_bind_ok by reflexivity.
      apply (IH (i + 1) _ _ j); [lia | exact Hthrown].
    + erewrite fst_bind_ok by reflexivity.
      apply (IH (i + 1) _ _ j); [lia | exact Hthrown].
  - apply fst_bind_thrown. reflexivity.
Qed.

Lemma queried_app (t t' : Trace E) : queried (t ++ t') = queried t ++ queried t'.
Proof.
  induction t as [|a t IH]; simpl; [reflexivity|].
  destruct a; simpl; now rewrite IH.
Qed.

(** While the loop condition holds and every query resolves, the loop
    returns, and it has queried the windows of its indices in order. *)
Lemma chunkLoop_resolves (guard : M E bool) (address : string)
    (s l cn : Z) (n : nat) :
  (forall c, guard c = (Ok true, [])) ->
  (forall f t, getLogs w address f t <> Thrown) ->
  forall (i : Z) (allLogs : list Log) (c : nat),
  (exists logs, fst (chunkLoop w guard address s l cn n i allLogs c) = Ok logs)
  /\ queried (snd (chunkLoop w guard address s l cn n i allLogs c))
     = windowsFrom s l n i.
Proof.
  intros Hg Hres.
  induction n as [|n IH]; intros i allLogs c; simpl.
  - split; [eexists|]; reflexivity.
  - rewrite fst_bind_ok with (a := true) (t := []) by apply Hg.
    rewrite snd_bind_ok with (a := true) (t := []) by apply Hg.
    destruct (getLogs w address (Z.max (l - i * MAX_CHUNK_SIZE - MAX_CHUNK_SIZE) s)
                      (l - i * MAX_CHUNK_SIZE)) as [logs|] eqn:Hi;
      [|now apply Hres in Hi].
    erewrite fst_bind_ok by reflexivity.
    erewrite snd_bind_ok by reflexivity.
    destruct (i <? cn - 1).
    + erewrite fst_bind_ok by reflexivity.
      erewrite snd_bind_ok by reflexivity.
      split; [apply IH|].
      rewrite !queried_app. simpl. unfold chunkWindow. f_equal. apply IH.
    + erewrite fst_bind_ok by reflexivity.
      erewrite snd_bind_ok by reflexivity.
      split; [apply IH|].
      rewrite !queried_app. simpl. unfold chunkWindow. f_equal. apply IH.
Qed.
End ChunkLoop.

(** ** Where a stored event comes from *)

Section TripleExtras.
Variable E : Type.
Variable Q : nat -> Action E -> Prop.

(** A fact that holds whenever the precondition does may be used. *)
Lemma triple_assume {A} (F : Prop) (P : nat -> Prop) (m : M E A)
    (R : A -> nat -> Prop) :
  (forall c, P c -> F) -> (F -> triple Q P m R) -> triple Q P m R.
Proof. intros HF Hm c Hc. exact (Hm (HF c Hc) c Hc). Qed.

(** Every action of an allowed trace is allowed at its own clock. *)
Lemma traceOK_split (c : nat) (pre post : Trace E) (a : Action E) :
  traceOK Q c (pre ++ a :: post) -> Q (awaits pre + c)%nat a.
Proof.
  intros H. apply traceOK_app in H. destruct H as [_ H]. simpl in H. tauto.
Qed.

Lemma traceOK_In (c : nat) (t : Trace E) (a : Action E) :
  traceOK Q c t -> In a t -> exists c', Q c' a.
Proof.
  intros H Hin. apply in_split in Hin. destruct Hin as (pre & post & ->).
  eexists. eapply traceOK_split. exact H.
Qed.
End TripleExtras.

Section CombinedLoops.
Import Combined.
Variable w : World.
Variable Q : nat -> Action GameEvent -> Prop.

Lemma triple_parseOne (g : GameType) (acct : string) (log : Log)
    (acc : list GameEvent) (PE : GameEvent -> Prop) :
  (forall c b, Q c (AwaitBlock b)) ->
  (forall ev, fromLog w acct ev log -> PE ev) ->
  Forall PE acc ->
  triple Q (fun _ => True) (parseOne w g acct log acc) (fun evs _ => Forall PE evs).
Proof.
  intros Hq Hpe Hacc. unfold parseOne.
  apply triple_tryCatch; [|apply triple_ret; auto].
  destruct (parseLog w (topics log) (data log)) as [[args|]|] eqn:Hparse;
    [ | apply triple_ret; auto | apply triple_throw ].
  destruct (truthy acct && negb (toLowerCase (argPlayer args) =? toLowerCase acct)%string)
    eqn:Hfilter; [apply triple_ret; auto|].
  eapply triple_bind
    with (R := fun block _ => getBlock w (logBlockNumber log) = Ok block).
  { apply triple_await; auto. }
  intros [b|]; [|apply triple_ret; auto].
  apply triple_assume with (F := getBlock w (logBlockNumber log) = Ok (Some b)); [auto|].
  intros Hblock. apply triple_ret. intros _ _.
  apply Forall_app. split; [exact Hacc|]. constructor; [|constructor].
  apply Hpe. exists args, b, g. repeat split; auto.
  intros Ht. rewrite Ht in Hfilter. simpl in Hfilter.
  apply negb_false_iff in Hfilter. now apply String.eqb_eq.
Qed.

Lemma triple_parseLogs (g : GameType) (acct : string) (PL : Log -> Prop)
    (PE : GameEvent -> Prop) (logs : list Log) :
  forall acc : list GameEvent,
  (forall c b, Q c (AwaitBlock b)) ->
  (forall ev log, PL log -> fromLog w acct ev log -> PE ev) ->
  Forall PL logs ->
  Forall PE acc ->
  triple Q (fun _ => True) (parseLogs w g acct logs acc) (fun evs _ => Forall PE evs).
Proof.
  induction logs as [|log logs IH]; intros acc Hq Hpe Hlogs Hacc; simpl.
  - apply triple_ret. auto.
  - inversion Hlogs as [|? ? Hlog Hrest]; subst.
    eapply triple_bind with (R := fun evs _ => Forall PE evs).
    + apply triple_parseOne; eauto.
    + intros evs c Hevs. apply IH; auto.
Qed.

(** The queries and lookups of one contract, and the events built
    from what they returned. *)
Lemma triple_fetchEventsForContract (address : string) (g : GameType)
    (s l : Z) (acct : string) :
  (forall c win, In win (chunkWindows s l) ->
     Q c (AwaitLogs address (fst win) (snd win))) ->
  (forall c, Q c AwaitDelay) ->
  (forall c b, Q c (AwaitBlock b)) ->
  triple Q (fun _ => True)
    (fetchEventsForContract w address g s l acct)
    (fun evs _ =>
       Forall (fun ev => exists log,
                 fetched w address s l log /\ fromLog w acct ev log) evs).
Proof.
  intros Hq Hd Hb. unfold fetchEventsForContract.
  eapply triple_bind with (R := fun logs _ => Forall (fetched w address s l) logs).
  - apply triple_conseq with (P := fun _ => True)
        (R := fun logs (_ : nat) => Forall (fetched w address s l) logs); auto.
    apply triple_chunkLoop; auto.
    + apply triple_ret. auto.
    + intros c j Hj.
      apply (Hq c (chunkWindow s l j)).
      apply chunkWindows_In. exists j. split; [lia | reflexivity].
    + intros j logs Hj Hlogs. apply Forall_forall. intros log Hin.
      exists (chunkWindow s l j), logs. split; [|split]; auto.
      apply chunkWindows_In. exists j. split; [lia | reflexivity].
  - intros logs. intros c Hc.
    apply triple_parseLogs with (PL := fetched w address s l); auto.
    intros ev log Hlog Hev. exists log. auto.
Qed.
End CombinedLoops.

(** ** A cycle of the combined view *)

Section CombinedCycle.
Import Combined.
Variable w : World.
Variable currentAccount : option string.

(** The trace of a cycle started at a clock [c]. *)
Lemma combined_cycle_trace (c : nat) :
  traceOK (combinedOK w currentAccount) c (snd (fetchAllEvents w currentAccount c)).
Proof.
  revert c. unfold fetchAllEvents. apply triple_complete with (R := fun _ _ => True).
  eapply triple_tryFinally with (R' := fun _ _ => True).
  2:{ apply triple_whenMounted; [|auto].
      apply triple_emit; simpl; tauto. }
  apply triple_tryCatch with (R := fun _ _ => True).
  2:{ apply triple_whenMounted; [|auto].
      apply triple_emit; simpl; tauto. }
  eapply triple_bind with (R := fun _ _ => True).
  { apply triple_whenMounted; [|auto].
    eapply triple_bind with (R := fun _ c => mountedAt w c = true).
    - apply triple_emit; simpl; tauto.
    - intros _. apply triple_emit; simpl; auto. }
  intros _.
  eapply triple_bind with (R := fun latest _ => getBlockNumber w = Ok latest).
  { apply triple_await; simpl; auto. }
  intros latest.
  apply triple_assume with (F := getBlockNumber w = Ok latest); [auto|].
  intros Hlatest.
  eapply triple_bind with (R := fun _ _ => True).
  { apply triple_isMounted. auto. }
  intros [|]; simpl; [|apply triple_ret; auto].
  fold (firstBlock latest).
  set (acct := accountOrEmpty currentAccount).
  set (PE := fun address ev => exists log,
               fetched w address (firstBlock latest) latest log
               /\ fromLog w acct ev log).
  eapply triple_bind
    with (R := fun both _ => Forall (PE DICE_CONTRACT_ADDRESS) (fst both)
                             /\ Forall (PE COINFLIP_CONTRACT_ADDRESS) (snd both)).
  { apply triple_promiseAll
      with (Ra := fun evs => Forall (PE DICE_CONTRACT_ADDRESS) evs)
           (Rb := fun evs => Forall (PE COINFLIP_CONTRACT_ADDRESS) evs).
    - apply triple_fetchEventsForContract; simpl; auto.
      intros c [f t] Hwin. split; [reflexivity|]. exists latest. auto.
    - apply triple_fetchEventsForContract; simpl; auto.
      intros c [f t] Hwin. split; [reflexivity|]. exists latest. auto. }
  intros [diceEvents coinflipEvents]; simpl.
  apply triple_assume
    with (F := Forall (PE DICE_CONTRACT_ADDRESS) diceEvents
               /\ Forall (PE COINFLIP_CONTRACT_ADDRESS) coinflipEvents); [auto|].
  intros [Hdice Hcoin].
  eapply triple_bind with (R := fun b c => b = mountedAt w c).
  { apply triple_isMounted. auto. }
  intros [|]; simpl; [|apply triple_ret; auto].
  apply triple_emit; [reflexivity | | auto].
  intros c Hc.
  destruct (display_list blockNumber MAX_RESULTS (diceEvents ++ coinflipEvents))
    as (Hsorted & Hlen & Hin).
  simpl. repeat split; auto.
  exists latest. split; [exact Hlatest|].
  intros ev Hev. apply Hin in Hev. apply in_app_or in Hev.
  destruct Hev as [Hev|Hev].
  - rewrite Forall_forall in Hdice. destruct (Hdice ev Hev) as (log & ? & ?).
    exists DICE_CONTRACT_ADDRESS, log. auto.
  - rewrite Forall_forall in Hcoin. destruct (Hcoin ev Hev) as (log & ? & ?).
    exists COINFLIP_CONTRACT_ADDRESS, log. auto.
Qed.
End CombinedCycle.

(** ** A cycle of the player view *)

Section PlayerLoops.
Import Player.
Variable w : World.
Variable Q : nat -> Action RollEvent -> Prop.

Lemma triple_player_parseOne (acct : string) (log : Log)
    (acc : list RollEvent) (PE : RollEvent -> Prop) :
  (forall c b, Q c (AwaitBlock b)) ->
  (forall ev, fromLogOf w acct ev log -> PE ev) ->
  Forall PE acc ->
  triple Q (fun _ => True) (parseOne w acct log acc) (fun evs _ => Forall PE evs).
Proof.
  intros Hq Hpe Hacc. unfold parseOne.
  apply triple_tryCatch; [|apply triple_ret; auto].
  destruct (parseLog w (topics log) (data log)) as [[args|]|] eqn:Hparse;
    [ | apply triple_ret; auto | apply triple_throw ].
  destruct (negb (toLowerCase (argPlayer args) =? toLowerCase acct)%string)
    eqn:Hfilter; [apply triple_ret; auto|].
  eapply triple_bind
    with (R := fun block _ => getBlock w (logBlockNumber log) = Ok block).
  { apply triple_await; auto. }
  intros [b|]; [|apply triple_ret; auto].
  apply triple_assume with (F := getBlock w (logBlockNumber log) = Ok (Some b)); [auto|].
  intros Hblock.
  eapply triple_bind with (R := fun _ _ => True).
  { apply triple_isMounted. auto. }
  intros [|]; simpl; apply triple_ret; auto. intros _ _.
  apply Forall_app. split; [exact Hacc|]. constructor; [|constructor].
  apply Hpe. exists args, b. repeat split; auto.
  apply negb_false_iff in Hfilter. now apply String.eqb_eq.
Qed.

Lemma triple_player_parseLogs (acct : string) (PL : Log -> Prop)
    (PE : RollEvent -> Prop) (logs : list Log) :
  forall acc : list RollEvent,
  (forall c b, Q c (AwaitBlock b)) ->
  (forall ev log, PL log -> fromLogOf w acct ev log -> PE ev) ->
  Forall PL logs ->
  Forall PE acc ->
  triple Q (fun _ => True) (parseLogs w acct logs acc) (fun evs _ => Forall PE evs).
Proof.
  induction logs as [|log logs IH]; intros acc Hq Hpe Hlogs Hacc; simpl.
  - apply triple_ret. auto.
  - inversion Hlogs as [|? ? Hlog Hrest]; subst.
    eapply triple_bind with (R := fun evs _ => Forall PE evs).
    + apply triple_player_parseOne; eauto.
    + intros evs c Hevs. apply IH; auto.
Qed.
End PlayerLoops.

Section PlayerCycle.
Import Player.
Variable w : World.
Variable currentAccount : string.

Lemma player_cycle :
  triple (playerOK w currentAccount) (fun _ => True) (fetchRollEvents w currentAccount)
         (fun _ _ => True).
Proof.
  unfold fetchRollEvents.
  eapply triple_tryFinally with (R' := fun _ _ => True).
  2:{ apply triple_whenMounted; [|auto].
      apply triple_emit; simpl; tauto. }
  apply triple_tryCatch with (R := fun _ _ => True).
  2:{ apply triple_whenMounted; [|auto].
      apply triple_emit; simpl; tauto. }
  eapply triple_bind with (R := fun _ _ => True).
  { apply triple_whenMounted; [|auto].
    eapply triple_bind with (R := fun _ c => mountedAt w c = true).
    - apply triple_emit; simpl; tauto.
    - intros _. apply triple_emit; simpl; auto. }
  intros _.
  eapply triple_bind with (R := fun latest _ => getBlockNumber w = Ok latest).
  { apply triple_await; simpl; auto. }
  intros latest.
  apply triple_assume with (F := getBlockNumber w = Ok latest); [auto|].
  intros Hlatest.
  eapply triple_bind with (R := fun _ _ => True).
  { apply triple_isMounted. auto. }
  intros [|]; simpl; [|apply triple_ret; auto].
  fold (firstBlock latest).
  set (PL := fetched w CONTRACT_ADDRESS (firstBlock latest) latest).
  eapply triple_bind with (R := fun logs _ => Forall PL logs).
  { apply triple_chunkLoop; auto.
    - apply triple_isMounted. auto.
    - intros c j Hj. simpl. exists latest. split; [exact Hlatest|].
      apply (proj2 (chunkWindows_In (firstBlock latest) latest _)).
      exists j. split; [lia | reflexivity].
    - simpl. auto.
    - intros j logs Hj Hlogs. apply Forall_forall. intros log Hin.
      exists (chunkWindow (firstBlock latest) latest j), logs.
      split; [|split]; auto.
      apply chunkWindows_In. exists j. split; [lia | reflexivity]. }
  intros logs.
  apply triple_assume with (F := Forall PL logs); [auto|].
  intros Hlogs.
  eapply triple_bind with (R := fun _ _ => True).
  { apply triple_isMounted. auto. }
  intros [|]; simpl; [|apply triple_ret; auto].
  set (PE := fun ev => exists log, PL log /\ fromLogOf w currentAccount ev log).
  eapply triple_bind with (R := fun evs _ => Forall PE evs).
  { apply triple_player_parseLogs with (PL := PL); simpl; auto.
    intros ev log Hlog Hev. exists log. auto. }
  intros parsedEvents.
  apply triple_assume with (F := Forall PE parsedEvents); [auto|].
  intros Hevs.
  apply triple_whenMounted; [|auto].
  apply triple_emit; [reflexivity | | auto].
  intros c [_ Hc].
  destruct (display_list blockNumber MAX_RESULTS parsedEvents)
    as (Hsorted & Hlen & Hin).
  simpl. repeat split; auto.
  exists latest. split; [exact Hlatest|].
  intros ev Hev. apply Hin in Hev.
  rewrite Forall_forall in Hevs. exact (Hevs ev Hev).
Qed.

Lemma player_cycle_trace (c : nat) :
  traceOK (playerOK w currentAccount) c (snd (fetchRollEvents w currentAccount c)).
Proof. apply player_cycle. exact I. Qed.
End PlayerCycle.

(** ** The windows a fetch queries *)

Section Windows.
Variable w : World.

Lemma noLogQuery_queried {E} (c : nat) (t : Trace E) :
  traceOK noLogQuery c t -> queried t = [].
Proof.
  revert c. induction t as [|a t IH]; intros c; simpl; [reflexivity|].
  intros [Ha Ht]. destruct a; simpl in *; try contradiction; eapply IH; eassumption.
Qed.

Lemma combined_parseLogs_queried (g : Combined.GameType) (acct : string)
    (logs : list Log) (acc : list Combined.GameEvent) (c : nat) :
  queried (snd (Combined.parseLogs w g acct logs acc c)) = [].
Proof.
  apply noLogQuery_queried with (c := c).
  apply (@triple_parseLogs w noLogQuery g acct (fun _ => True) (fun _ => True));
    simpl; auto.
  - apply Forall_forall. auto.
  - apply Forall_forall. auto.
Qed.

Lemma player_parseLogs_queried (acct : string)
    (logs : list Log) (acc : list Player.RollEvent) (c : nat) :
  queried (snd (Player.parseLogs w acct logs acc c)) = [].
Proof.
  apply noLogQuery_queried with (c := c).
  apply (@triple_player_parseLogs w noLogQuery acct (fun _ => True) (fun _ => True));
    simpl; auto.
  - apply Forall_forall. auto.
  - apply Forall_forall. auto.
Qed.

(** When every query resolves, the fetch of one contract queries the
    windows of the range, in order. *)
Lemma fetchEventsForContract_queried (address : string) (g : Combined.GameType)
    (s l : Z) (acct : string) (c : nat) :
  (forall f t, getLogs w address f t <> Thrown) ->
  queried (snd (Combined.fetchEventsForContract w address g s l acct c))
  = chunkWindows s l.
Proof.
  intros Hres. unfold Combined.fetchEventsForContract.
  set (cn := ceilDiv (l - s) MAX_CHUNK_SIZE).
  destruct (@chunkLoop_resolves Combined.GameEvent w (ret true)
              address s l cn (Z.to_nat cn) (fun _ => eq_refl) Hres 0 [] c)
    as [[logs Hok] Hq].
  destruct (chunkLoop w (ret true) address s l cn (Z.to_nat cn) 0 [] c)
    as [r t] eqn:Hrun.
  simpl in Hok, Hq. subst r.
  erewrite snd_bind_ok by exact Hrun.
  rewrite queried_app, Hq, combined_parseLogs_queried, app_nil_r.
  reflexivity.
Qed.
End Windows.

(** ** What one log adds to the result *)

Section CombinedRuns.
Import Combined.
Variable w : World.
Variable g : GameType.
Variable acct : string.

Lemma parseOne_eq (log : Log) (acc : list GameEvent) (c : nat) :
  parseOne w g acct log acc c = (Ok (acc ++ contribution w g acct log), lookups w g acct log).
Proof.
  unfold contribution, lookups, parseOne, tryCatch, bind, await, ret, throw.
  destruct (parseLog w (topics log) (data log)) as [[args|]|]; simpl;
    rewrite ?app_nil_r; try reflexivity.
  destruct (truthy acct && negb (toLowerCase (argPlayer args) =? toLowerCase acct)%string);
    simpl; rewrite ?app_nil_r; try reflexivity.
  destruct (getBlock w (logBlockNumber log)) as [[b|]|]; simpl;
    rewrite ?app_nil_r; reflexivity.
Qed.

Lemma parseLogs_eq (logs : list Log) :
  forall (acc : list GameEvent) (c : nat),
  parseLogs w g acct logs acc c
  = (Ok (acc ++ flat_map (contribution w g acct) logs), flat_map (lookups w g acct) logs).
Proof.
  induction logs as [|log logs IH]; intros acc c; simpl.
  - unfold ret. now rewrite app_nil_r.
  - erewrite bind_eq; [| apply parseOne_eq | apply IH].
    now rewrite <- app_assoc.
Qed.

Lemma contribution_undecodable (log : Log) :
  parseLog w (topics log) (data log) = Thrown
  \/ parseLog w (topics log) (data log) = Ok None ->
  contribution w g acct log = [].
Proof.
  unfold contribution, parseOne, tryCatch, bind, await, ret, throw.
  intros [H|H]; rewrite H; reflexivity.
Qed.

Lemma contribution_no_block (log : Log) :
  getBlock w (logBlockNumber log) = Ok None -> contribution w g acct log = [].
Proof.
  unfold contribution, parseOne, tryCatch, bind, await, ret, throw.
  intros H.
  destruct (parseLog w (topics log) (data log)) as [[args|]|]; simpl; try reflexivity.
  destruct (truthy acct && negb (toLowerCase (argPlayer args) =? toLowerCase acct)%string);
    simpl; try reflexivity.
  rewrite H. reflexivity.
Qed.

Lemma contribution_event (log : Log) (args : RollArgs) (b : Block) :
  parseLog w (topics log) (data log) = Ok (Some args) ->
  getBlock w (logBlockNumber log) = Ok (Some b) ->
  truthy acct = false \/ toLowerCase (argPlayer args) = toLowerCase acct ->
  contribution w g acct log
  = [ {| blockNumber := logBlockNumber log;
         transactionHash := orElse (logTransactionHash log) "unknown";
         player := toLowerCase (argPlayer args);
         amount := argAmount args;
         choice := Number (argChoice args);
         outcome := Number (argOutcome args);
         won := argWon args;
         gameType := g;
         timestamp := blockTimestamp b |} ].
Proof.
  unfold contribution, parseOne, tryCatch, bind, await, ret, throw.
  intros Hparse Hblock Hfilter. rewrite Hparse.
  assert (truthy acct && negb (toLowerCase (argPlayer args) =? toLowerCase acct)%string
          = false) as ->.
  { destruct Hfilter as [->| ->]; [reflexivity|].
    rewrite String.eqb_refl. apply andb_false_r. }
  rewrite Hblock. reflexivity.
Qed.
End CombinedRuns.

Section PlayerRuns.
Import Player.
Variable w : World.
Variable acct : string.
Hypothesis Hnone : teardown w = None.

Lemma player_parseOne_eq (log : Log) (acc : list RollEvent) (c : nat) :
  parseOne w acct log acc c
  = (Ok (acc ++ playerContribution w acct log), playerLookups w acct log).
Proof.
  unfold playerContribution, playerLookups, parseOne, tryCatch, bind, await,
    ret, throw, isMounted.
  destruct (parseLog w (topics log) (data log)) as [[args|]|]; simpl;
    rewrite ?app_nil_r; try reflexivity.
  destruct (negb (toLowerCase (argPlayer args) =? toLowerCase acct)%string);
    simpl; rewrite ?app_nil_r; try reflexivity.
  destruct (getBlock w (logBlockNumber log)) as [[b|]|]; simpl;
    rewrite ?mounted_always by exact Hnone; simpl;
    rewrite ?app_nil_r; reflexivity.
Qed.

Lemma player_parseLogs_eq (logs : list Log) :
  forall (acc : list RollEvent) (c : nat),
  parseLogs w acct logs acc c
  = (Ok (acc ++ flat_map (playerContribution w acct) logs), flat_map (playerLookups w acct) logs).
Proof.
  induction logs as [|log logs IH]; intros acc c; simpl.
  - unfold ret. now rewrite app_nil_r.
  - erewrite bind_eq; [| apply player_parseOne_eq | apply IH].
    now rewrite <- app_assoc.
Qed.

Lemma playerContribution_undecodable (log : Log) :
  parseLog w (topics log) (data log) = Thrown
  \/ parseLog w (topics log) (data log) = Ok None ->
  playerContribution w acct log = [].
Proof.
  unfold playerContribution, parseOne, tryCatch, bind, await, ret, throw.
  intros [H|H]; rewrite H; reflexivity.
Qed.

Lemma playerContribution_no_block (log : Log) :
  getBlock w (logBlockNumber log) = Ok None -> playerContribution w acct log = [].
Proof.
  unfold playerContribution, parseOne, tryCatch, bind, await, ret, throw.
  intros H.
  destruct (parseLog w (topics log) (data log)) as [[args|]|]; simpl; try reflexivity.
  destruct (negb (toLowerCase (argPlayer args) =? toLowerCase acct)%string);
    simpl; try reflexivity.
  rewrite H. reflexivity.
Qed.

Lemma playerContribution_event (log : Log) (args : RollArgs) (b : Block) :
  parseLog w (topics log) (data log) = Ok (Some args) ->
  getBlock w (logBlockNumber log) = Ok (Some b) ->
  toLowerCase (argPlayer args) = toLowerCase acct ->
  playerContribution w acct log
  = [ {| blockNumber := logBlockNumber log;
         transactionHash := orElse (logTransactionHash log) "unknown";
         player := toLowerCase (argPlayer args);
         amount := argAmount args;
         choice := Number (argChoice args);
         outcome := Number (argOutcome args);
         won := argWon args;
         timestamp := blockTimestamp b |} ].
Proof.
  unfold playerContribution, parseOne, tryCatch, bind, await, ret, throw, isMounted.
  intros Hparse Hblock Hfilter. rewrite Hparse, Hfilter, String.eqb_refl. simpl.
  rewrite Hblock. simpl. rewrite mounted_always by exact Hnone. reflexivity.
Qed.
End PlayerRuns.

(** ** Running a cycle while the view stays mounted *)

(** The start of a cycle, up to the flag read that follows the block
    height, and the handlers of [catch] and [finally]. *)
Ltac run_start Hnone Hlatest :=
  eapply bind_eq; [rewrite whenMounted_eq by exact Hnone; reflexivity|];
  eapply bind_eq; [unfold await; rewrite Hlatest; reflexivity|];
  eapply bind_eq; [apply isMounted_eq; exact Hnone|];
  cbn [negb].

Ltac run_handler Hnone := rewrite whenMounted_eq by exact Hnone; reflexivity.

Ltac run_no_height Hnone Hheight :=
  erewrite tryFinally_eq;
  [
  | eapply tryCatch_eq_thrown;
    [ eapply bind_eq; [rewrite whenMounted_eq by exact Hnone; reflexivity|];
      eapply bind_eq_thrown; unfold await; rewrite Hheight; reflexivity
    | run_handler Hnone ]
  | run_handler Hnone ];
  reflexivity.

Ltac run_rejected Hnone Hlatest Hthrown :=
  erewrite tryFinally_eq;
  [
  | eapply tryCatch_eq_thrown;
    [ run_start Hnone Hlatest; eapply bind_eq_thrown; exact Hthrown
    | run_handler Hnone ]
  | run_handler Hnone ];
  f_equal; simpl; rewrite <- !app_assoc; reflexivity.

Section PlayerForward.
Import Player.
Variable w : World.
Variable acct : string.
Hypothesis Hnone : teardown w = None.

Lemma player_cycle_no_height (c : nat) :
  getBlockNumber w = Thrown ->
  fetchRollEvents w acct c
  = (Ok tt, [SetError None; SetLoading true; AwaitBlockNumber;
             SetError (Some FETCH_ERROR); SetLoading false]).
Proof.
  intros Hheight. unfold fetchRollEvents. run_no_height Hnone Hheight.
Qed.

Lemma player_cycle_rejected (latest : Z) (c : nat) (t1 : Trace RollEvent) :
  getBlockNumber w = Ok latest ->
  playerChunks w latest (S c) = (Thrown, t1) ->
  fetchRollEvents w acct c
  = (Ok tt, [SetError None; SetLoading true; AwaitBlockNumber] ++ t1
            ++ [SetError (Some FETCH_ERROR); SetLoading false]).
Proof.
  intros Hlatest Hloop. unfold fetchRollEvents.
  run_rejected Hnone Hlatest Hloop.
Qed.

Lemma player_cycle_resolved (latest : Z) (c : nat) (logs : list Log)
    (t1 : Trace RollEvent) :
  getBlockNumber w = Ok latest ->
  playerChunks w latest (S c) = (Ok logs, t1) ->
  fetchRollEvents w acct c
  = (Ok tt, [SetError None; SetLoading true; AwaitBlockNumber] ++ t1
            ++ flat_map (playerLookups w acct) logs
            ++ [SetEvents (slice0 MAX_RESULTS
                             (sortDesc blockNumber
                                (flat_map (playerContribution w acct) logs)));
                SetLoading false]).
Proof.
  intros Hlatest Hloop. unfold fetchRollEvents.
  erewrite tryFinally_eq.
  2:{ eapply tryCatch_eq_ok.
      run_start Hnone Hlatest.
      eapply bind_eq. { exact Hloop. }
      eapply bind_eq. { apply isMounted_eq. exact Hnone. }
      cbn [negb].
      eapply bind_eq. { apply player_parseLogs_eq. exact Hnone. }
      run_handler Hnone. }
  2:{ run_handler Hnone. }
  f_equal. simpl. rewrite <- !app_assoc. reflexivity.
Qed.
End PlayerForward.

(** A trace of suspension points holds no write. *)
Lemma awaits_only_writes {E} (c : nat) (t : Trace E) :
  traceOK (fun _ a => isAwait a = true) c t -> writes t = [].
Proof.
  revert c. induction t as [|a t IH]; intros c; [reflexivity|].
  simpl. intros [Ha Ht]. unfold writes. simpl. rewrite (await_not_setter _ Ha).
  eapply IH. exact Ht.
Qed.

(** The fetch of a contract only suspends. *)
Lemma contractFetch_awaits (w : World) (acct : option string) (address : string)
    (g : Combined.GameType) (latest : Z) (c : nat) :
  Forall (fun a => isAwait a = true)
         (snd (contractFetch w acct address g latest c)).
Proof.
  apply (traceOK_const (fun a => isAwait a = true) c).
  apply (@triple_fetchEventsForContract w (fun _ a => isAwait a = true));
    simpl; auto.
Qed.

(** Two tasks that only suspend leave no write, neither in what the
    caller waits for nor in what is put off. *)
Lemma sideBySide_writes {E} (s : list bool) (ta tb : Trace E) (ea eb : bool) :
  Forall (fun a => isAwait a = true) ta ->
  Forall (fun a => isAwait a = true) tb ->
  writes (direct (sideBySide s ta tb ea eb)) = []
  /\ writes (deferred (sideBySide s ta tb ea eb)) = [].
Proof.
  intros Ha Hb.
  set (G := fun x : Action E =>
              match x with Later a => isAwait a = true | _ => isAwait x = true end).
  assert (Forall G (sideBySide s ta tb ea eb)) as H.
  { apply sideBySide_Forall; [revert Ha | revert Hb]; apply Forall_impl;
      intros a Hw; (split; [|exact Hw]); destruct a; simpl in *; auto; discriminate. }
  induction (sideBySide s ta tb ea eb) as [|x t IH]; [split; reflexivity|].
  inversion H as [|? ? Hx Ht]; subst. destruct (IH Ht) as [IH1 IH2].
  destruct x; simpl in *; try discriminate; auto.
  unfold writes in *. simpl. rewrite (await_not_setter _ Hx). auto.
Qed.

Section CombinedForward.
Import Combined.
Variable w : World.
Variable currentAccount : option string.
Hypothesis Hnone : teardown w = None.

Lemma combined_cycle_no_height (c : nat) :
  getBlockNumber w = Thrown ->
  fetchAllEvents w currentAccount c
  = (Ok tt, [SetError None; SetLoading true; AwaitBlockNumber;
             SetError (Some FETCH_ERROR); SetLoading false]).
Proof.
  intros Hheight. unfold fetchAllEvents, complete. run_no_height Hnone Hheight.
Qed.

(** A cycle that has read the block height: the two fetches side by
    side, then the list or the message, then what is left of a fetch
    that the cycle has stopped waiting for. *)
Lemma combined_cycle_run (latest : Z) (c : nat)
    (rd rc : Outcome (list GameEvent)) (td tc : Trace GameEvent) :
  getBlockNumber w = Ok latest ->
  contractFetch w currentAccount DICE_CONTRACT_ADDRESS dice latest (S c) = (rd, td) ->
  contractFetch w currentAccount COINFLIP_CONTRACT_ADDRESS coinflip latest (S c)
  = (rc, tc) ->
  fetchAllEvents w currentAccount c
  = (Ok tt,
     [SetError None; SetLoading true; AwaitBlockNumber]
     ++ direct (sideBySide (schedule w) td tc (rejected rd) (rejected rc))
     ++ match rd, rc with
        | Ok diceEvents, Ok coinflipEvents =>
            [SetEvents (slice0 MAX_RESULTS
                          (sortDesc blockNumber (diceEvents ++ coinflipEvents)));
             SetLoading false]
        | _, _ => [SetError (Some FETCH_ERROR); SetLoading false]
        end
     ++ deferred (sideBySide (schedule w) td tc (rejected rd) (rejected rc))).
Proof.
  intros Hlatest Hdice Hcoin. unfold fetchAllEvents.
  pose proof (promiseAll_eq w _ _ _ Hdice Hcoin) as Hall.
  set (both := sideBySide (schedule w) td tc (rejected rd) (rejected rc)) in *.
  destruct rd as [diceEvents|], rc as [coinflipEvents|].
  - erewrite complete_eq.
    2:{ erewrite tryFinally_eq.
        2:{ eapply tryCatch_eq_ok.
            run_start Hnone Hlatest.
            eapply bind_eq. { exact Hall. }
            eapply bind_eq. { apply isMounted_eq. exact Hnone. }
            cbn [negb]. reflexivity. }
        2:{ run_handler Hnone. }
        reflexivity. }
    f_equal. rewrite !direct_app, !deferred_app. simpl.
    rewrite ?app_nil_r, <- ?app_assoc. reflexivity.
  - erewrite complete_eq.
    2:{ erewrite tryFinally_eq.
        2:{ eapply tryCatch_eq_thrown;
              [ run_start Hnone Hlatest; eapply bind_eq_thrown; exact Hall
              | run_handler Hnone ]. }
        2:{ run_handler Hnone. }
        reflexivity. }
    f_equal. rewrite !direct_app, !deferred_app. simpl.
    rewrite ?app_nil_r, <- ?app_assoc. reflexivity.
  - erewrite complete_eq.
    2:{ erewrite tryFinally_eq.
        2:{ eapply tryCatch_eq_thrown;
              [ run_start Hnone Hlatest; eapply bind_eq_thrown; exact Hall
              | run_handler Hnone ]. }
        2:{ run_handler Hnone. }
        reflexivity. }
    f_equal. rewrite !direct_app, !deferred_app. simpl.
    rewrite ?app_nil_r, <- ?app_assoc. reflexivity.
  - erewrite complete_eq.
    2:{ erewrite tryFinally_eq.
        2:{ eapply tryCatch_eq_thrown;
              [ run_start Hnone Hlatest; eapply bind_eq_thrown; exact Hall
              | run_handler Hnone ]. }
        2:{ run_handler Hnone. }
        reflexivity. }
    f_equal. rewrite !direct_app, !deferred_app. simpl.
    rewrite ?app_nil_r, <- ?app_assoc. reflexivity.
Qed.

(** The writes of such a cycle. *)
Lemma combined_cycle_writes (latest : Z) (c : nat)
    (rd rc : Outcome (list GameEvent)) (td tc : Trace GameEvent) :
  getBlockNumber w = Ok latest ->
  contractFetch w currentAccount DICE_CONTRACT_ADDRESS dice latest (S c) = (rd, td) ->
  contractFetch w currentAccount COINFLIP_CONTRACT_ADDRESS coinflip latest (S c)
  = (rc, tc) ->
  writes (snd (fetchAllEvents w currentAccount c))
  = [SetError None; SetLoading true]
    ++ match rd, rc with
       | Ok diceEvents, Ok coinflipEvents =>
           [SetEvents (slice0 MAX_RESULTS
                         (sortDesc blockNumber (diceEvents ++ coinflipEvents)));
            SetLoading false]
       | _, _ => [SetError (Some FETCH_ERROR); SetLoading false]
       end.
Proof.
  intros Hlatest Hdice Hcoin.
  rewrite (combined_cycle_run c Hlatest Hdice Hcoin). cbn [snd].
  pose proof (contractFetch_awaits w currentAccount DICE_CONTRACT_ADDRESS dice
                latest (S c)) as Htd.
  pose proof (contractFetch_awaits w currentAccount COINFLIP_CONTRACT_ADDRESS coinflip
                latest (S c)) as Htc.
  rewrite Hdice in Htd. rewrite Hcoin in Htc. cbn [snd] in Htd, Htc.
  destruct (sideBySide_writes (schedule w) (rejected rd) (rejected rc) Htd Htc)
    as [H1 H2].
  change ([SetError None; SetLoading true; AwaitBlockNumber] ++ ?x)
    with ([SetError None; SetLoading true] ++ [AwaitBlockNumber] ++ x).
  rewrite !writes_app, H1, H2, app_nil_r.
  destruct rd, rc; reflexivity.
Qed.
End CombinedForward.

Section PlayerWindows.
Import Player.
Variable w : World.
Variable acct : string.
Hypothesis Hnone : teardown w = None.

(** When every query resolves, a cycle of the player view queries the
    windows of its range, in order. *)
Lemma player_cycle_queried (latest : Z) (c : nat) :
  getBlockNumber w = Ok latest ->
  (forall f t, getLogs w CONTRACT_ADDRESS f t <> Thrown) ->
  queried (snd (fetchRollEvents w acct c)) = chunkWindows (firstBlock latest) latest.
Proof.
  intros Hlatest Hres.
  set (cn := ceilDiv (latest - firstBlock latest) MAX_CHUNK_SIZE).
  destruct (@chunkLoop_resolves RollEvent w (isMounted _ w) CONTRACT_ADDRESS
              (firstBlock latest) latest cn (Z.to_nat cn)
              (@isMounted_eq RollEvent w Hnone) Hres 0 [] (S c))
    as [[logs Hok] Hq].
  destruct (chunkLoop w (isMounted _ w) CONTRACT_ADDRESS (firstBlock latest) latest
              cn (Z.to_nat cn) 0 [] (S c)) as [r t1] eqn:Hloop.
  simpl in Hok, Hq. subst r.
  change (playerChunks w latest (S c) = (Ok logs, t1)) in Hloop.
  rewrite (player_cycle_resolved w acct Hnone c Hlatest Hloop). simpl.
  rewrite !queried_app, Hq.
  pose proof (player_parseLogs_queried w acct logs [] 0%nat) as Hparse.
  rewrite (player_parseLogs_eq w acct Hnone) in Hparse. simpl in Hparse.
  rewrite Hparse. simpl. now rewrite app_nil_r.
Qed.
End PlayerWindows.

(** C1.  The windows of the fetch loop are not disjoint: whenever the
    range needs more than one query, the first two windows queried both
    hold the block [latestBlock - MAX_CHUNK_SIZE], and the first window
    holds [MAX_CHUNK_SIZE + 1] blocks, in the fetch of a contract of the
    combined view and in a cycle of the player view.  (The
    specification asks for windows that do not overlap, that cover every
    block exactly once and that hold at most [MAX_CHUNK_SIZE] blocks.) *)
Theorem fetch_windows_share_boundary_block (w : World) :
  (forall a f t, getLogs w a f t <> Thrown) ->
  (forall address g startBlock latestBlock acct c,
     MAX_CHUNK_SIZE < latestBlock - startBlock ->
     exists w1 w2 rest,
       queried (snd (Combined.fetchEventsForContract w address g
                       startBlock latestBlock acct c)) = w1 :: w2 :: rest
       /\ inWindow (latestBlock - MAX_CHUNK_SIZE) w1 = true
       /\ inWindow (latestBlock - MAX_CHUNK_SIZE) w2 = true
       /\ windowBlocks w1 = MAX_CHUNK_SIZE + 1)
  /\ (teardown w = None ->
      forall latestBlock acct c,
      getBlockNumber w = Ok latestBlock ->
      MAX_CHUNK_SIZE < latestBlock ->
      exists w1 w2 rest,
        queried (snd (Player.fetchRollEvents w acct c)) = w1 :: w2 :: rest
        /\ inWindow (latestBlock - MAX_CHUNK_SIZE) w1 = true
        /\ inWindow (latestBlock - MAX_CHUNK_SIZE) w2 = true
        /\ windowBlocks w1 = MAX_CHUNK_SIZE + 1).
Proof.
  intros Hres. split.
  - intros address g startBlock latestBlock acct c Hlen.
    rewrite fetchEventsForContract_queried by apply Hres.
    now apply chunkWindows_overlap.
  - intros Hnone latestBlock acct c Hlatest Hlen.
    rewrite (player_cycle_queried w acct Hnone c Hlatest) by apply Hres.
    apply chunkWindows_overlap.
    unfold firstBlock, TOTAL_BLOCKS_TO_CHECK, MAX_CHUNK_SIZE in *. lia.
Qed.

Lemma fetch_windows_share_boundary_block_witness :
  (exists w1 w2 rest,
     queried (snd (Combined.fetchEventsForContract (sampleWorld None)
                     Combined.DICE_CONTRACT_ADDRESS Combined.dice 0 2000 "" 0%nat))
     = w1 :: w2 :: rest
     /\ inWindow (2000 - MAX_CHUNK_SIZE) w1 = true
     /\ inWindow (2000 - MAX_CHUNK_SIZE) w2 = true
     /\ windowBlocks w1 = MAX_CHUNK_SIZE + 1)
  /\ (exists w1 w2 rest,
        queried (snd (Player.fetchRollEvents (sampleWorld None) "0xABC" 0%nat))
        = w1 :: w2 :: rest
        /\ inWindow (2000 - MAX_CHUNK_SIZE) w1 = true
        /\ inWindow (2000 - MAX_CHUNK_SIZE) w2 = true
        /\ windowBlocks w1 = MAX_CHUNK_SIZE + 1).
Proof.
  assert (forall a f t, getLogs (sampleWorld None) a f t <> Thrown) as Hres
    by (intros a f t; simpl; unfold sampleGetLogs; discriminate).
  split.
  - apply (proj1 (fetch_windows_share_boundary_block (sampleWorld None) Hres)).
    unfold MAX_CHUNK_SIZE. lia.
  - apply (proj2 (fetch_windows_share_boundary_block (sampleWorld None) Hres)
             eq_refl 2000 "0xABC" 0%nat eq_refl).
    unfold MAX_CHUNK_SIZE. lia.
Defined.

(** C2.  For the range 0 to 2000 both components query five windows,
    newest first, and each window ends on the block the window before it
    starts with: [1550,2000], [1100,1550], [650,1100], [200,650],
    [0,200].  (The specification lists the upper ends 1549, 1099, 649
    and 199.) *)
Theorem windows_of_range_0_2000 (w : World) :
  (forall a f t, getLogs w a f t <> Thrown) ->
  (forall address g acct c,
     queried (snd (Combined.fetchEventsForContract w address g 0 2000 acct c))
     = [(1550, 2000); (1100, 1550); (650, 1100); (200, 650); (0, 200)])
  /\ (teardown w = None -> getBlockNumber w = Ok 2000 ->
      forall acct c,
        queried (snd (Player.fetchRollEvents w acct c))
        = [(1550, 2000); (1100, 1550); (650, 1100); (200, 650); (0, 200)]).
Proof.
  intros Hres. split.
  - intros address g acct c.
    rewrite fetchEventsForContract_queried by apply Hres. reflexivity.
  - intros Hnone Hlatest acct c.
    rewrite (player_cycle_queried w acct Hnone c Hlatest) by apply Hres.
    reflexivity.
Qed.

Lemma windows_of_range_0_2000_witness :
  queried (snd (Combined.fetchEventsForContract (sampleWorld None)
                  Combined.DICE_CONTRACT_ADDRESS Combined.dice 0 2000 "" 0%nat))
  = [(1550, 2000); (1100, 1550); (650, 1100); (200, 650); (0, 200)]
  /\ queried (snd (Player.fetchRollEvents (sampleWorld None) "0xabc" 0%nat))
     = [(1550, 2000); (1100, 1550); (650, 1100); (200, 650); (0, 200)].
Proof.
  assert (forall a f t, getLogs (sampleWorld None) a f t <> Thrown) as Hres
    by (intros a f t; simpl; unfold sampleGetLogs; discriminate).
  split.
  - apply (proj1 (windows_of_range_0_2000 (sampleWorld None) Hres)).
  - apply (proj2 (windows_of_range_0_2000 (sampleWorld None) Hres));
      reflexivity.
Defined.

(** ** The list stored for display *)

(** Picks an entry of a computed trace. *)
Ltac pick_action := vm_compute; repeat (first [left; reflexivity | right]).

(** C3.  Every list a cycle stores for display is sorted descending by
    block number and holds at most [MAX_RESULTS] events: 50 in the
    combined view, 20 in the player view. *)
Theorem stored_list_sorted_and_capped (w : World) :
  (forall acct c evs,
     In (SetEvents evs) (snd (Combined.fetchAllEvents w acct c)) ->
     SortedDesc Combined.blockNumber evs /\ (List.length evs <= 50)%nat)
  /\ (forall acct c evs,
        In (SetEvents evs) (snd (Player.fetchRollEvents w acct c)) ->
        SortedDesc Player.blockNumber evs /\ (List.length evs <= 20)%nat).
Proof.
  split; intros acct c evs Hin.
  - destruct (traceOK_In _ _ _ _ (combined_cycle_trace w acct c) Hin) as [c' H].
    simpl in H. tauto.
  - destruct (traceOK_In _ _ _ _ (player_cycle_trace w acct c) Hin) as [c' H].
    simpl in H. tauto.
Qed.

Lemma stored_list_sorted_and_capped_witness :
  (SortedDesc Combined.blockNumber sampleCombinedDisplay
   /\ (List.length sampleCombinedDisplay <= 50)%nat)
  /\ (SortedDesc Player.blockNumber samplePlayerDisplay
      /\ (List.length samplePlayerDisplay <= 20)%nat).
Proof.
  split.
  - apply (proj1 (stored_list_sorted_and_capped (sampleWorld None)) None 0%nat).
    pick_action.
  - apply (proj2 (stored_list_sorted_and_capped (sampleWorld None)) "0xABC" 0%nat).
    pick_action.
Defined.

(** ** The range of a cycle *)

(** C4.  With a provider that returns only logs of the queried range,
    every log query of a cycle lies within [startBlock, latestBlock] as
    computed at the start of the cycle, and so does the block number of
    every event the cycle stores. *)
Theorem events_within_fetch_range (w : World) (latest : Z) :
  (forall a f t logs log,
     getLogs w a f t = Ok logs -> In log logs -> f <= logBlockNumber log <= t) ->
  getBlockNumber w = Ok latest ->
  (forall acct c,
     (forall a f t,
        In (AwaitLogs a f t) (snd (Combined.fetchAllEvents w acct c)) ->
        firstBlock latest <= f /\ t <= latest)
     /\ (forall evs ev,
           In (SetEvents evs) (snd (Combined.fetchAllEvents w acct c)) ->
           In ev evs ->
           firstBlock latest <= Combined.blockNumber ev <= latest))
  /\ (forall acct c,
        (forall a f t,
           In (AwaitLogs a f t) (snd (Player.fetchRollEvents w acct c)) ->
           firstBlock latest <= f /\ t <= latest)
        /\ (forall evs ev,
              In (SetEvents evs) (snd (Player.fetchRollEvents w acct c)) ->
              In ev evs ->
              firstBlock latest <= Player.blockNumber ev <= latest)).
Proof.
  intros Hhonest Hlatest.
  assert (forall address log, fetched w address (firstBlock latest) latest log ->
                              firstBlock latest <= logBlockNumber log <= latest)
    as Hfetched.
  { intros address log (win & logs & Hwin & Hlogs & Hin).
    apply chunkWindows_bounds in Hwin.
    pose proof (Hhonest _ _ _ _ _ Hlogs Hin). lia. }
  split; intros acct c; split.
  - intros a f t Hin.
    destruct (traceOK_In _ _ _ _ (combined_cycle_trace w acct c) Hin)
      as (c' & latest' & Hl' & Hwin).
    assert (latest' = latest) as -> by congruence.
    apply chunkWindows_bounds in Hwin. simpl in Hwin. lia.
  - intros evs ev Hin Hev.
    destruct (traceOK_In _ _ _ _ (combined_cycle_trace w acct c) Hin)
      as (c' & _ & _ & _ & latest' & Hl' & Hfrom).
    assert (latest' = latest) as -> by congruence.
    destruct (Hfrom ev Hev) as (address & log & Hlog & args & b & g & _ & _ & _ & ->).
    simpl. eapply Hfetched; eassumption.
  - intros a f t Hin.
    destruct (traceOK_In _ _ _ _ (player_cycle_trace w acct c) Hin)
      as (c' & latest' & Hl' & Hwin).
    assert (latest' = latest) as -> by congruence.
    apply chunkWindows_bounds in Hwin. simpl in Hwin. lia.
  - intros evs ev Hin Hev.
    destruct (traceOK_In _ _ _ _ (player_cycle_trace w acct c) Hin)
      as (c' & _ & _ & _ & latest' & Hl' & Hfrom).
    assert (latest' = latest) as -> by congruence.
    destruct (Hfrom ev Hev) as (log & Hlog & args & b & _ & _ & _ & ->).
    simpl. eapply Hfetched; eassumption.
Qed.

Lemma sampleWorld_honest (td : option nat) :
  forall a f t logs log,
    getLogs (sampleWorld td) a f t = Ok logs -> In log logs ->
    f <= logBlockNumber log <= t.
Proof.
  intros a f t logs log Hlogs Hin.
  assert (logs = filter (fun log => (f <=? logBlockNumber log)
                                    && (logBlockNumber log <=? t)) sampleChain) as ->.
  { cbv beta iota delta [getLogs sampleWorld sampleGetLogs] in Hlogs. congruence. }
  apply filter_In in Hin. destruct Hin as [_ Hin].
  apply andb_true_iff in Hin. destruct Hin as [H1 H2].
  apply Z.leb_le in H1, H2. lia.
Qed.

Lemma events_within_fetch_range_witness :
  Forall (fun ev => 0 <= Combined.blockNumber ev <= 2000) sampleCombinedDisplay
  /\ Forall (fun ev => 0 <= Player.blockNumber ev <= 2000) samplePlayerDisplay.
Proof.
  pose proof (events_within_fetch_range (sampleWorld None)
                (@sampleWorld_honest None) eq_refl) as [Hc Hp].
  split; apply Forall_forall; intros ev Hev.
  - apply (proj2 (Hc None 0%nat) sampleCombinedDisplay ev); [pick_action | exact Hev].
  - apply (proj2 (Hp "0xABC" 0%nat) samplePlayerDisplay ev); [pick_action | exact Hev].
Defined.

(** ** The player filter *)

Lemma lowered_player_matches (p acct : string) :
  toLowerCase p = toLowerCase acct ->
  toLowerCase (toLowerCase p) = toLowerCase acct.
Proof. intros H. now rewrite toLowerCase_idempotent. Qed.

(** C5.  With a non-empty player filter [P], every event the fetch of a
    contract returns, and every event either view stores, has a player
    field that equals [P] once both are lower-cased. *)
Theorem filtered_events_match_player (w : World) (P : string) :
  truthy P = true ->
  (forall address g s l c evs ev,
     fst (Combined.fetchEventsForContract w address g s l P c) = Ok evs ->
     In ev evs ->
     toLowerCase (Combined.player ev) = toLowerCase P)
  /\ (forall c evs ev,
        In (SetEvents evs) (snd (Combined.fetchAllEvents w (Some P) c)) ->
        In ev evs ->
        toLowerCase (Combined.player ev) = toLowerCase P)
  /\ (forall c evs ev,
        In (SetEvents evs) (snd (Player.fetchRollEvents w P c)) ->
        In ev evs ->
        toLowerCase (Player.player ev) = toLowerCase P).
Proof.
  intros HP. split; [|split].
  - intros address g s l c evs ev Hrun Hev.
    destruct (@triple_fetchEventsForContract w (fun _ _ => True) address g s l P)
      with (c := c) as [_ Hres]; auto.
    specialize (Hres evs Hrun). rewrite Forall_forall in Hres.
    destruct (Hres ev Hev) as (log & _ & args & b & g' & _ & _ & Hfilter & ->).
    simpl. apply lowered_player_matches. now apply Hfilter.
  - intros c evs ev Hin Hev.
    destruct (traceOK_In _ _ _ _ (combined_cycle_trace w (Some P) c) Hin)
      as (c' & _ & _ & _ & latest & _ & Hfrom).
    destruct (Hfrom ev Hev) as (address & log & _ & args & b & g & _ & _ & Hfilter & ->).
    simpl. apply lowered_player_matches.
    assert (Combined.accountOrEmpty (Some P) = P) as HP'
      by (simpl; unfold orElse; now rewrite HP).
    rewrite HP' in Hfilter. now apply Hfilter.
  - intros c evs ev Hin Hev.
    destruct (traceOK_In _ _ _ _ (player_cycle_trace w P c) Hin)
      as (c' & _ & _ & _ & latest & _ & Hfrom).
    destruct (Hfrom ev Hev) as (log & _ & args & b & _ & _ & Hfilter & ->).
    simpl. now apply lowered_player_matches.
Qed.

Lemma filtered_events_match_player_witness :
  Forall (fun ev => toLowerCase (Player.player ev) = toLowerCase "0xABC")
         samplePlayerDisplay.
Proof.
  apply Forall_forall. intros ev Hev.
  apply (proj2 (proj2 (@filtered_events_match_player (sampleWorld None) "0xABC"
                         eq_refl)) 0%nat samplePlayerDisplay ev);
    [pick_action | exact Hev].
Defined.

(** ** Teardown *)

(** C9, as the specification states it, fails: the flag is not checked
    after every suspension point.  A combined view torn down during its
    second suspension, the first log query, goes on through all of its
    27 suspension points and all of its 10 log queries, as if it were
    mounted; only its writes stop.  The player view stops after the
    delay that follows its first log query. *)
Lemma torn_down_fetch_keeps_querying :
  teardown (sampleWorld (Some 2%nat)) = Some 2%nat
  /\ filter (@isAwait _) (snd (Combined.fetchAllEvents (sampleWorld (Some 2%nat)) None 0%nat))
     = filter (@isAwait _) (snd (Combined.fetchAllEvents (sampleWorld None) None 0%nat))
  /\ awaits (snd (Combined.fetchAllEvents (sampleWorld (Some 2%nat)) None 0%nat)) = 27%nat
  /\ List.length
       (queried (snd (Combined.fetchAllEvents (sampleWorld (Some 2%nat)) None 0%nat)))
     = 10%nat
  /\ writes (snd (Combined.fetchAllEvents (sampleWorld (Some 2%nat)) None 0%nat))
     = [SetError None; SetLoading true]
  /\ snd (Player.fetchRollEvents (sampleWorld (Some 2%nat)) "0xABC" 0%nat)
     = [SetError None; SetLoading true; AwaitBlockNumber;
        AwaitLogs Player.CONTRACT_ADDRESS 1550 2000; AwaitDelay].
Proof. repeat split; reflexivity. Qed.

(** C9, amended.  When the view is torn down during the [k]-th
    suspension of a cycle, every write of the cycle to the component's
    state comes before that suspension ends: fewer than [k] suspension
    points precede it.  After the teardown the cycle writes neither a
    result nor an error nor the loading flag, in both components, also
    when one of the two fetches of the combined view rejects while the
    other is still under way, and whichever of them the provider
    answers first. *)
Theorem no_write_after_teardown (w : World) (k : nat) :
  teardown w = Some k ->
  (forall acct pre a post,
     snd (Combined.fetchAllEvents w acct 0%nat) = pre ++ a :: post ->
     isSetter a = true -> (awaits pre < k)%nat)
  /\ (forall acct pre a post,
        snd (Player.fetchRollEvents w acct 0%nat) = pre ++ a :: post ->
        isSetter a = true -> (awaits pre < k)%nat).
Proof.
  intros Hk.
  assert (forall c, mountedAt w c = true -> (c < k)%nat) as Hm.
  { intros c. unfold mountedAt. rewrite Hk. apply Nat.ltb_lt. }
  split; intros acct pre a post Htrace Hset.
  - pose proof (combined_cycle_trace w acct 0%nat) as Hok.
    rewrite Htrace in Hok. apply traceOK_split in Hok.
    rewrite Nat.add_0_r in Hok.
    destruct a; simpl in Hset, Hok; try discriminate; apply Hm; tauto.
  - pose proof (player_cycle_trace w acct 0%nat) as Hok.
    rewrite Htrace in Hok. apply traceOK_split in Hok.
    rewrite Nat.add_0_r in Hok.
    destruct a; simpl in Hset, Hok; try discriminate; apply Hm; tauto.
Qed.

Lemma no_write_after_teardown_witness :
  (awaits [SetError None; SetLoading true; AwaitBlockNumber;
           AwaitLogs Combined.COINFLIP_CONTRACT_ADDRESS 1550 2000;
           AwaitLogs Combined.DICE_CONTRACT_ADDRESS 1550 2000;
           AwaitDelay; AwaitDelay;
           AwaitLogs Combined.COINFLIP_CONTRACT_ADDRESS 1100 1550;
           AwaitLogs Combined.DICE_CONTRACT_ADDRESS 1100 1550;
           AwaitDelay; AwaitDelay;
           AwaitLogs Combined.COINFLIP_CONTRACT_ADDRESS 650 1100
           : Action Combined.GameEvent] < 12)%nat
  /\ (awaits [SetError None : Action Player.RollEvent] < 3)%nat.
Proof.
  split.
  - apply (proj1 (@no_write_after_teardown (failingWorld (Some 12%nat)) 12%nat eq_refl)
             None
             [SetError None; SetLoading true; AwaitBlockNumber;
              AwaitLogs Combined.COINFLIP_CONTRACT_ADDRESS 1550 2000;
              AwaitLogs Combined.DICE_CONTRACT_ADDRESS 1550 2000;
              AwaitDelay; AwaitDelay;
              AwaitLogs Combined.COINFLIP_CONTRACT_ADDRESS 1100 1550;
              AwaitLogs Combined.DICE_CONTRACT_ADDRESS 1100 1550;
              AwaitDelay; AwaitDelay;
              AwaitLogs Combined.COINFLIP_CONTRACT_ADDRESS 650 1100]
             (SetError (Some FETCH_ERROR))
             [SetLoading false; AwaitLogs Combined.DICE_CONTRACT_ADDRESS 650 1100]);
      reflexivity.
  - apply (proj2 (@no_write_after_teardown (sampleWorld (Some 3%nat)) 3%nat eq_refl)
             "0xABC" [SetError None] (SetLoading true)
             [AwaitBlockNumber;
              AwaitLogs Player.CONTRACT_ADDRESS 1550 2000; AwaitDelay]);
      reflexivity.
Defined.

(** ** Logs that cannot be turned into an event *)

(** C6.  A log that fails to decode (the decoder throws or returns
    [null]), or whose block resolves to [null], is skipped and nothing
    else: the decoding loop returns, and it returns what it returns for
    the same logs without the failing one.  In the player view this is
    said of a view that stays mounted. *)
Theorem failed_log_is_skipped (w : World) (bad : Log) :
  parseLog w (topics bad) (data bad) = Thrown
  \/ parseLog w (topics bad) (data bad) = Ok None
  \/ getBlock w (logBlockNumber bad) = Ok None ->
  (forall g acct l1 l2 acc c,
     exists evs,
       fst (Combined.parseLogs w g acct (l1 ++ bad :: l2) acc c) = Ok evs
       /\ fst (Combined.parseLogs w g acct (l1 ++ l2) acc c) = Ok evs)
  /\ (teardown w = None ->
      forall acct l1 l2 acc c,
      exists evs,
        fst (Player.parseLogs w acct (l1 ++ bad :: l2) acc c) = Ok evs
        /\ fst (Player.parseLogs w acct (l1 ++ l2) acc c) = Ok evs).
Proof.
  intros Hbad. split.
  - intros g acct l1 l2 acc c.
    assert (contribution w g acct bad = []) as Hnil.
    { destruct Hbad as [H|[H|H]];
        [ apply contribution_undecodable; now left
        | apply contribution_undecodable; now right
        | now apply contribution_no_block ]. }
    eexists. rewrite !parseLogs_eq. simpl.
    rewrite !flat_map_app. simpl. rewrite Hnil. simpl. split; reflexivity.
  - intros Hnone acct l1 l2 acc c.
    assert (playerContribution w acct bad = []) as Hnil.
    { destruct Hbad as [H|[H|H]];
        [ apply playerContribution_undecodable; now left
        | apply playerContribution_undecodable; now right
        | now apply playerContribution_no_block ]. }
    eexists. rewrite !(player_parseLogs_eq w acct Hnone). simpl.
    rewrite !flat_map_app. simpl. rewrite Hnil. simpl. split; reflexivity.
Qed.

Lemma failed_log_is_skipped_witness :
  exists evs,
    fst (Combined.parseLogs (sampleWorld None) Combined.dice ""
           ([mkLog 1550 "0xt1" ["0xroll"] "A"]
            ++ mkLog 1200 "" ["0xroll"] "B"
            :: [mkLog 900 "0xt3" ["0xroll"] "C"]) [] 0%nat) = Ok evs
    /\ fst (Combined.parseLogs (sampleWorld None) Combined.dice ""
              ([mkLog 1550 "0xt1" ["0xroll"] "A"]
               ++ [mkLog 900 "0xt3" ["0xroll"] "C"]) [] 0%nat) = Ok evs.
Proof.
  apply (proj1 (@failed_log_is_skipped (sampleWorld None)
                  (mkLog 1200 "" ["0xroll"] "B") (or_introl eq_refl))).
Defined.

(** ** Numeric fields *)

(** C8, as the specification states it, fails: a [choice] of [2 ^ 53 + 1] is a
    [uint256] value, and the event built from it holds [2 ^ 53]. *)
Lemma choice_above_2_53_is_rounded :
  exists args ev,
    parseLog (sampleWorld None) ["0xroll"] "C" = Ok (Some args)
    /\ 0 <= argChoice args < 2 ^ 256
    /\ fst (Combined.parseOne (sampleWorld None) Combined.dice ""
              (mkLog 900 "0xt3" ["0xroll"] "C") [] 0%nat) = Ok [ev]
    /\ Combined.choice ev <> argChoice args.
Proof.
  do 2 eexists. split; [reflexivity|]. split; [simpl; lia|].
  split; [reflexivity|]. simpl. discriminate.
Qed.

(** C8, amended.  A log that decodes, passes the filter and has a block
    yields one event; its [amount] is the decoded value whatever the
    value is, and its [choice] and [outcome] are the decoded values
    whenever those are at most [2 ^ 53]. *)
Theorem numeric_fields_match_raw_values (w : World) (log : Log)
    (args : RollArgs) (b : Block) :
  parseLog w (topics log) (data log) = Ok (Some args) ->
  getBlock w (logBlockNumber log) = Ok (Some b) ->
  (forall g acct c,
     truthy acct = false \/ toLowerCase (argPlayer args) = toLowerCase acct ->
     exists ev,
       fst (Combined.parseOne w g acct log [] c) = Ok [ev]
       /\ Combined.amount ev = argAmount args
       /\ (argChoice args <= 2 ^ 53 -> Combined.choice ev = argChoice args)
       /\ (argOutcome args <= 2 ^ 53 -> Combined.outcome ev = argOutcome args))
  /\ (teardown w = None ->
      forall acct c,
      toLowerCase (argPlayer args) = toLowerCase acct ->
      exists ev,
        fst (Player.parseOne w acct log [] c) = Ok [ev]
        /\ Player.amount ev = argAmount args
        /\ (argChoice args <= 2 ^ 53 -> Player.choice ev = argChoice args)
        /\ (argOutcome args <= 2 ^ 53 -> Player.outcome ev = argOutcome args)).
Proof.
  intros Hparse Hblock. split.
  - intros g acct c Hfilter. eexists.
    rewrite parseOne_eq, (contribution_event w g acct log Hparse Hblock Hfilter).
    simpl. repeat split; intros H; apply Number_exact; exact H.
  - intros Hnone acct c Hfilter. eexists.
    rewrite (player_parseOne_eq w acct Hnone),
      (playerContribution_event w acct Hnone log Hparse Hblock Hfilter).
    simpl. repeat split; intros H; apply Number_exact; exact H.
Qed.

Lemma numeric_fields_match_raw_values_witness :
  exists ev,
    fst (Combined.parseOne (sampleWorld None) Combined.dice "0xABC"
           (mkLog 1550 "0xt1" ["0xroll"] "A") [] 0%nat) = Ok [ev]
    /\ Combined.amount ev = 100
    /\ (3 <= 2 ^ 53 -> Combined.choice ev = 3)
    /\ (5 <= 2 ^ 53 -> Combined.outcome ev = 5).
Proof.
  apply (proj1 (@numeric_fields_match_raw_values (sampleWorld None)
                  (mkLog 1550 "0xt1" ["0xroll"] "A")
                  (mkArgs "0xAbC" 100 3 5 false) (mkBlock 15500)
                  eq_refl eq_refl) Combined.dice "0xABC" 0%nat).
  right. reflexivity.
Defined.

(** ** A query that rejects *)

Lemma noPublish_spec {E} (c : nat) (t : Trace E) :
  traceOK noPublish c t -> forall evs, ~ In (SetEvents evs) t.
Proof.
  intros Hok evs Hin.
  destruct (traceOK_In _ _ _ _ Hok Hin) as [c' H]. exact H.
Qed.

Section Rejection.
Variable E : Type.
Variable w : World.
Variable Q : nat -> Action E -> Prop.

(** A computation that always rejects returns nothing. *)
Lemma triple_never {A} (P : nat -> Prop) (m : M E A) (R : A -> nat -> Prop) :
  triple Q P m R -> (forall c, fst (m c) = Thrown) ->
  triple Q P m (fun _ _ => False).
Proof.
  intros Hm Hthrown c Hc. destruct (Hm c Hc) as [Ht _].
  split; [exact Ht|]. intros a Ha. rewrite Hthrown in Ha. discriminate.
Qed.

(** The loop of the player view over a range with a rejecting query
    returns only when it has seen the view torn down. *)
Lemma triple_chunkLoop_torn_down (address : string) (s l cn : Z) (n : nat) :
  (forall c a, isAwait a = true -> Q c a) ->
  forall (i : Z) (allLogs : list Log) (j : Z),
  i <= j < i + Z.of_nat n ->
  getLogs w address (Z.max (l - j * MAX_CHUNK_SIZE - MAX_CHUNK_SIZE) s)
          (l - j * MAX_CHUNK_SIZE) = Thrown ->
  triple Q (fun _ => True)
    (chunkLoop w (isMounted E w) address s l cn n i allLogs)
    (fun _ c => mountedAt w c = false).
Proof.
  intros HQ.
  induction n as [|n IH]; intros i allLogs j Hj Hthrown; [lia|].
  simpl.
  eapply triple_bind with (R := fun go c => go = mountedAt w c).
  { apply triple_isMounted. auto. }
  intros [|]; [|apply triple_ret; auto].
  eapply triple_bind
    with (R := fun logs _ =>
                 getLogs w address (Z.max (l - i * MAX_CHUNK_SIZE - MAX_CHUNK_SIZE) s)
                         (l - i * MAX_CHUNK_SIZE) = Ok logs).
  { apply triple_await; auto. }
  intros logs.
  apply triple_assume
    with (F := getLogs w address (Z.max (l - i * MAX_CHUNK_SIZE - MAX_CHUNK_SIZE) s)
                       (l - i * MAX_CHUNK_SIZE) = Ok logs); [auto|].
  intros Hlogs.
  assert (j <> i) by (intros ->; congruence).
  eapply triple_bind with (R := fun _ _ => True).
  { destruct (i <? cn - 1).
    - apply triple_await; auto.
    - apply triple_ret; auto. }
  intros _. apply (IH (i + 1) _ j); [lia | exact Hthrown].
Qed.
End Rejection.

Section CombinedRejection.
Import Combined.
Variable w : World.
Variable currentAccount : option string.

Lemma contractFetch_rejects (address : string) (g : GameType) (latest : Z) (c : nat) :
  logQueryFails w address latest ->
  fst (contractFetch w currentAccount address g latest c) = Thrown.
Proof.
  intros (win & Hwin & Hthrown).
  apply chunkWindows_In in Hwin. destruct Hwin as (j & Hj & ->).
  unfold contractFetch, fetchEventsForContract.
  apply fst_bind_thrown.
  apply chunkLoop_rejects with (j := j); [reflexivity | lia | exact Hthrown].
Qed.

(** A cycle of the combined view with a rejecting query stores no
    list, whenever the view is torn down. *)
Lemma combined_cycle_no_publish (c : nat) :
  getBlockNumber w = Thrown
  \/ (exists latest,
        getBlockNumber w = Ok latest
        /\ (logQueryFails w DICE_CONTRACT_ADDRESS latest
            \/ logQueryFails w COINFLIP_CONTRACT_ADDRESS latest)) ->
  traceOK noPublish c (snd (fetchAllEvents w currentAccount c)).
Proof.
  intros Hfail. revert c.
  unfold fetchAllEvents. apply triple_complete with (R := fun _ _ => True).
  eapply triple_tryFinally with (R' := fun _ _ => True).
  2:{ apply triple_whenMounted; [|auto]. apply triple_emit; simpl; auto. }
  apply triple_tryCatch with (R := fun _ _ => True).
  2:{ apply triple_whenMounted; [|auto]. apply triple_emit; simpl; auto. }
  eapply triple_bind with (R := fun _ _ => True).
  { apply triple_whenMounted; [|auto].
    eapply triple_bind with (R := fun _ _ => True).
    - apply triple_emit; simpl; auto.
    - intros _. apply triple_emit; simpl; auto. }
  intros _.
  eapply triple_bind with (R := fun latest _ => getBlockNumber w = Ok latest).
  { apply triple_await; simpl; auto. }
  intros latest.
  apply triple_assume with (F := getBlockNumber w = Ok latest); [auto|].
  intros Hlatest.
  destruct Hfail as [Hfail|(latest' & Hlatest' & Hfail)];
    [rewrite Hfail in Hlatest; discriminate|].
  rewrite Hlatest in Hlatest'. injection Hlatest' as <-.
  eapply triple_bind with (R := fun _ _ => True).
  { apply triple_isMounted. auto. }
  intros [|]; simpl; [|apply triple_ret; auto].
  eapply triple_bind with (R := fun _ _ => False).
  2:{ intros both. eapply triple_assume with (F := False); [auto | tauto]. }
  eapply triple_conseq
    with (P := fun _ => True)
         (R := fun both (_ : nat) =>
                 (fun _ => logQueryFails w DICE_CONTRACT_ADDRESS latest -> False) (fst both)
                 /\ (fun _ => logQueryFails w COINFLIP_CONTRACT_ADDRESS latest -> False)
                      (snd both));
    [ | auto | intros both _ [H1 H2]; destruct Hfail; tauto ].
  apply triple_promiseAll
    with (Ra := fun _ => logQueryFails w DICE_CONTRACT_ADDRESS latest -> False)
         (Rb := fun _ => logQueryFails w COINFLIP_CONTRACT_ADDRESS latest -> False).
  - intros c' _.
    destruct (@triple_fetchEventsForContract w
                (fun _ a => isAwait a = true /\ forall c, noPublish c a)
                DICE_CONTRACT_ADDRESS dice
                (firstBlock latest) latest (accountOrEmpty currentAccount))
      with (c := c') as [Ht _]; simpl; auto.
    split; [exact Ht|]. intros evs Hevs Hf.
    pose proof (contractFetch_rejects dice c' Hf) as Hr.
    unfold contractFetch, firstBlock in Hr. rewrite Hr in Hevs. discriminate.
  - intros c' _.
    destruct (@triple_fetchEventsForContract w
                (fun _ a => isAwait a = true /\ forall c, noPublish c a)
                COINFLIP_CONTRACT_ADDRESS
                coinflip (firstBlock latest) latest (accountOrEmpty currentAccount))
      with (c := c') as [Ht _]; simpl; auto.
    split; [exact Ht|]. intros evs Hevs Hf.
    pose proof (contractFetch_rejects coinflip c' Hf) as Hr.
    unfold contractFetch, firstBlock in Hr. rewrite Hr in Hevs. discriminate.
Qed.
End CombinedRejection.

Section PlayerRejection.
Import Player.
Variable w : World.
Variable currentAccount : string.

(** A cycle of the player view with a rejecting query stores no list,
    whenever the view is torn down. *)
Lemma player_cycle_no_publish (c : nat) :
  getBlockNumber w = Thrown
  \/ (exists latest,
        getBlockNumber w = Ok latest
        /\ logQueryFails w CONTRACT_ADDRESS latest) ->
  traceOK noPublish c (snd (fetchRollEvents w currentAccount c)).
Proof.
  intros Hfail.
  cut (triple noPublish (fun _ => True) (fetchRollEvents w currentAccount)
              (fun _ _ => True)); [intros H; now apply H|].
  unfold fetchRollEvents.
  eapply triple_tryFinally with (R' := fun _ _ => True).
  2:{ apply triple_whenMounted; [|auto]. apply triple_emit; simpl; auto. }
  apply triple_tryCatch with (R := fun _ _ => True).
  2:{ apply triple_whenMounted; [|auto]. apply triple_emit; simpl; auto. }
  eapply triple_bind with (R := fun _ _ => True).
  { apply triple_whenMounted; [|auto].
    eapply triple_bind with (R := fun _ _ => True).
    - apply triple_emit; simpl; auto.
    - intros _. apply triple_emit; simpl; auto. }
  intros _.
  eapply triple_bind with (R := fun latest _ => getBlockNumber w = Ok latest).
  { apply triple_await; simpl; auto. }
  intros latest.
  apply triple_assume with (F := getBlockNumber w = Ok latest); [auto|].
  intros Hlatest.
  destruct Hfail as [Hfail|(latest' & Hlatest' & win & Hwin & Hthrown)];
    [rewrite Hfail in Hlatest; discriminate|].
  rewrite Hlatest in Hlatest'. injection Hlatest' as <-.
  apply chunkWindows_In in Hwin. destruct Hwin as (j & Hj & ->).
  eapply triple_bind with (R := fun _ _ => True).
  { apply triple_isMounted. auto. }
  intros [|]; simpl; [|apply triple_ret; auto].
  eapply triple_bind with (R := fun _ c => mountedAt w c = false).
  { apply triple_chunkLoop_torn_down with (j := j).
    - intros c' a Ha. destruct a; simpl in *; auto; discriminate.
    - fold (firstBlock latest). lia.
    - exact Hthrown. }
  intros logs.
  eapply triple_bind with (R := fun m c => m = mountedAt w c /\ mountedAt w c = false).
  { apply triple_isMounted. auto. }
  intros [|]; simpl; [|apply triple_ret; auto].
  apply triple_assume with (F := False); [|tauto].
  intros c' [H1 H2]. congruence.
Qed.
End PlayerRejection.

(** C7.  When the block-height query or one of the log queries of a
    cycle rejects, the cycle stores no event list, whenever the view is
    torn down; and in a view that stays mounted its writes are: the
    error cleared and loading set at the start, then the one message
    ["Failed to fetch Sei EVM events"], then loading cleared.  The list
    on display is the list of before the cycle. *)
Theorem failed_query_aborts_cycle (w : World) :
  (getBlockNumber w = Thrown
   \/ (exists latest,
         getBlockNumber w = Ok latest
         /\ (logQueryFails w Combined.DICE_CONTRACT_ADDRESS latest
             \/ logQueryFails w Combined.COINFLIP_CONTRACT_ADDRESS latest)) ->
   forall acct c,
     (forall evs, ~ In (SetEvents evs) (snd (Combined.fetchAllEvents w acct c)))
     /\ (teardown w = None ->
         writes (snd (Combined.fetchAllEvents w acct c))
         = [SetError None; SetLoading true;
            SetError (Some FETCH_ERROR); SetLoading false]
         /\ forall ui,
              render ui (snd (Combined.fetchAllEvents w acct c))
              = mkUI (events ui) false (Some FETCH_ERROR)))
  /\ (getBlockNumber w = Thrown
      \/ (exists latest,
            getBlockNumber w = Ok latest
            /\ logQueryFails w Player.CONTRACT_ADDRESS latest) ->
      forall acct c,
        (forall evs, ~ In (SetEvents evs) (snd (Player.fetchRollEvents w acct c)))
        /\ (teardown w = None ->
            writes (snd (Player.fetchRollEvents w acct c))
            = [SetError None; SetLoading true;
               SetError (Some FETCH_ERROR); SetLoading false]
            /\ forall ui,
                 render ui (snd (Player.fetchRollEvents w acct c))
                 = mkUI (events ui) false (Some FETCH_ERROR))).
Proof.
  assert (forall E (t : Trace E),
            writes t = [SetError None; SetLoading true;
                        SetError (Some FETCH_ERROR); SetLoading false] ->
            forall ui, render ui t = mkUI (events ui) false (Some FETCH_ERROR))
    as Hrender.
  { intros E t Ht ui. rewrite <- render_writes, Ht. reflexivity. }
  assert (forall E c (t : Trace E),
            traceOK (fun _ a => isAwait a = true) c t -> writes t = []) as Hawaits.
  { intros E c t. apply awaits_only_writes. }
  split; intros Hfail acct c.
  - split; [apply noPublish_spec with (c := c), combined_cycle_no_publish, Hfail|].
    intros Hnone.
    cut (writes (snd (Combined.fetchAllEvents w acct c))
         = [SetError None; SetLoading true;
            SetError (Some FETCH_ERROR); SetLoading false]);
      [intros H; split; [exact H | now apply Hrender]|].
    destruct Hfail as [Hheight|(latest & Hlatest & Hfail)].
    + rewrite (combined_cycle_no_height w acct Hnone c Hheight). reflexivity.
    + destruct (contractFetch w acct Combined.DICE_CONTRACT_ADDRESS Combined.dice
                  latest (S c)) as [rd td] eqn:Hd.
      destruct (contractFetch w acct Combined.COINFLIP_CONTRACT_ADDRESS
                  Combined.coinflip latest (S c)) as [rc tc] eqn:Hc.
      rewrite (combined_cycle_writes w acct Hnone c Hlatest Hd Hc).
      assert (match rd, rc with Ok _, Ok _ => False | _, _ => True end) as Hthrown.
      { destruct Hfail as [Hf|Hf].
        - pose proof (contractFetch_rejects acct Combined.dice (S c) Hf) as Hr.
          rewrite Hd in Hr. simpl in Hr. now subst rd.
        - pose proof (contractFetch_rejects acct Combined.coinflip (S c) Hf) as Hr.
          rewrite Hc in Hr. simpl in Hr. subst rc. now destruct rd. }
      destruct rd, rc; try contradiction; reflexivity.
  - split; [apply noPublish_spec with (c := c), player_cycle_no_publish, Hfail|].
    intros Hnone.
    cut (writes (snd (Player.fetchRollEvents w acct c))
         = [SetError None; SetLoading true;
            SetError (Some FETCH_ERROR); SetLoading false]);
      [intros H; split; [exact H | now apply Hrender]|].
    destruct Hfail as [Hheight|(latest & Hlatest & win & Hwin & Hthrown)].
    + rewrite (player_cycle_no_height w acct Hnone c Hheight). reflexivity.
    + apply chunkWindows_In in Hwin. destruct Hwin as (j & Hj & ->).
      destruct (playerChunks w latest (S c)) as [r t1] eqn:Hloop.
      assert (r = Thrown) as ->.
      { change r with (fst (r, t1)). rewrite <- Hloop. unfold playerChunks.
        apply chunkLoop_rejects with (j := j);
          [apply isMounted_eq, Hnone | lia | exact Hthrown]. }
      rewrite (player_cycle_rejected w acct Hnone c Hlatest Hloop). simpl.
      assert (writes t1 = []) as Ht1.
      { apply Hawaits with (c := S c).
        replace t1 with (snd (playerChunks w latest (S c))) by now rewrite Hloop.
        apply (@triple_chunkLoop Player.RollEvent w (fun _ a => isAwait a = true))
          with (PL := fun _ => True); simpl; auto.
        - apply triple_isMounted. auto.
        - intros. apply Forall_forall. auto. }
      change (writes ([SetError None; SetLoading true] ++ [AwaitBlockNumber] ++ t1
                      ++ [SetError (Some FETCH_ERROR); SetLoading false])
              = [SetError None; SetLoading true;
                 SetError (Some FETCH_ERROR); SetLoading false]).
      rewrite !writes_app, Ht1. reflexivity.
Qed.

Lemma failingWorld_query_fails (td : option nat) (address : string) :
  logQueryFails (failingWorld td) address 2000.
Proof.
  exists (650, 1100). split; [|reflexivity].
  vm_compute. do 2 right. left. reflexivity.
Qed.

Lemma failed_query_aborts_cycle_witness :
  render (mkUI sampleCombinedDisplay false None)
         (snd (Combined.fetchAllEvents (failingWorld None) None 0%nat))
  = mkUI sampleCombinedDisplay false (Some FETCH_ERROR)
  /\ render (mkUI samplePlayerDisplay false None)
            (snd (Player.fetchRollEvents (failingWorld None) "0xABC" 0%nat))
     = mkUI samplePlayerDisplay false (Some FETCH_ERROR).
Proof.
  split.
  - apply (proj2 (proj2 (proj1 (failed_query_aborts_cycle (failingWorld None))
                           (or_intror
                              (ex_intro _ 2000
                                 (conj eq_refl
                                    (or_introl
                                       (@failingWorld_query_fails None
                                          Combined.DICE_CONTRACT_ADDRESS)))))
                           None 0%nat) eq_refl)
             (mkUI sampleCombinedDisplay false None)).
  - apply (proj2 (proj2 (proj2 (failed_query_aborts_cycle (failingWorld None))
                           (or_intror
                              (ex_intro _ 2000
                                 (conj eq_refl
                                    (@failingWorld_query_fails None
                                       Player.CONTRACT_ADDRESS))))
                           "0xABC" 0%nat) eq_refl)
             (mkUI samplePlayerDisplay false None)).
Defined.

(** * Presentation *)

(** ** Addresses *)

Lemma string_length_append (a b : string) :
  String.length (String.append a b) = (String.length a + String.length b)%nat.
Proof. induction a as [|c a IH]; simpl; [reflexivity | now rewrite IH]. Qed.

Lemma substring_whole (s : string) (m : nat) :
  (String.length s <= m)%nat -> substring 0 m s = s.
Proof.
  revert m. induction s as [|c s IH]; intros m Hm; simpl.
  - now destruct m.
  - destruct m as [|m]; simpl in *; [lia|]. rewrite IH; [reflexivity | lia].
Qed.

Lemma substring_prefix (a b : string) :
  substring 0 (String.length a) (String.append a b) = a.
Proof.
  induction a as [|c a IH]; simpl.
  - now destruct b.
  - now rewrite IH.
Qed.

Lemma substring_skip (a b : string) (m : nat) :
  substring (String.length a) m (String.append a b) = substring 0 m b.
Proof. induction a as [|c a IH]; simpl; [reflexivity | exact IH]. Qed.

Lemma string_append_assoc (a b c : string) :
  String.append a (String.append b c) = String.append (String.append a b) c.
Proof. induction a as [|x a IH]; simpl; [reflexivity | now rewrite IH]. Qed.

(** The two slices of the abbreviation, as substrings. *)
Lemma slice_first_six (s : string) :
  slice s 0 (Some 6) = substring 0 (Nat.min 6 (String.length s)) s.
Proof.
  unfold slice, sliceIndex.
  change (0 <? 0) with false. change (6 <? 0) with false. cbv iota.
  f_equal; lia.
Qed.

Lemma slice_last_four (s : string) :
  slice s (-4) None
  = substring (String.length s - 4) (Nat.min 4 (String.length s)) s.
Proof.
  unfold slice, sliceIndex.
  change (-4 <? 0) with true. cbv iota.
  f_equal; lia.
Qed.

(** X1.  An address of ten characters or more is shown as its first six
    characters, three dots and its last four characters. *)
Theorem shortPlayer_long (pre mid suf : string) :
  String.length pre = 6%nat ->
  String.length suf = 4%nat ->
  shortPlayer (String.append pre (String.append mid suf))
  = String.append pre (String.append "..." suf).
Proof.
  intros Hpre Hsuf. unfold shortPlayer.
  rewrite slice_first_six, slice_last_four.
  f_equal; [|f_equal].
  - rewrite !string_length_append, Hpre, Hsuf.
    replace (Nat.min 6 (6 + (String.length mid + 4))) with (String.length pre) by lia.
    apply substring_prefix.
  - rewrite string_append_assoc, string_length_append, Hsuf.
    replace (String.length (String.append pre mid) + 4 - 4)%nat
      with (String.length (String.append pre mid)) by lia.
    rewrite substring_skip. apply substring_whole. lia.
Qed.

Lemma shortPlayer_long_witness :
  shortPlayer "0xd60af0bbe2c6efed5651ef48feb0bf0d77323d9e" = "0xd60a...3d9e".
Proof.
  apply (@shortPlayer_long "0xd60a" "f0bbe2c6efed5651ef48feb0bf0d7732" "3d9e");
    reflexivity.
Defined.

(** X2.  An address of at most four characters is shown whole on both
    sides of the dots: the two slices overlap. *)
Theorem shortPlayer_short (player : string) :
  (String.length player <= 4)%nat ->
  shortPlayer player = String.append player (String.append "..." player).
Proof.
  intros Hlen. unfold shortPlayer.
  rewrite slice_first_six, slice_last_four.
  replace (String.length player - 4)%nat with 0%nat by lia.
  f_equal; [|f_equal]; apply substring_whole; lia.
Qed.

Lemma shortPlayer_short_witness :
  shortPlayer "" = "..." /\ shortPlayer "0xab" = "0xab...0xab".
Proof.
  split.
  - apply (@shortPlayer_short ""). simpl. lia.
  - apply (@shortPlayer_short "0xab"). simpl. lia.
Defined.

(** ** Relative times *)

(** The text of a number that is not negative starts with a digit. *)
Lemma showNumber_first (n : Z) :
  0 <= n ->
  exists c rest,
    showNumber n = String c rest /\ (48 <= nat_of_ascii c <= 57)%nat.
Proof.
  intros Hn. unfold showNumber. destruct n as [|p|p]; [| |lia].
  - exists "0"%char, EmptyString. split; [reflexivity | vm_compute; lia].
  - unfold Z.to_int, NilZero.string_of_int, NilZero.string_of_uint.
    destruct (Pos.to_uint p); simpl; do 2 eexists;
      (split; [reflexivity | vm_compute; lia]).
Qed.

Lemma counted_not_just_now (n : Z) (rest : string) :
  0 <= n -> String.append (showNumber n) rest <> "Just now".
Proof.
  intros Hn H. destruct (showNumber_first Hn) as (c & tl & Heq & Hc).
  rewrite Heq in H. simpl in H. injection H as Hc' _. subst c.
  vm_compute in Hc. lia.
Qed.

Lemma minutes_ago (now timestamp : Z) :
  roundToDouble (now - timestamp * 1000) / 60000 < 1
  <-> now - timestamp * 1000 < 60000.
Proof.
  rewrite <- roundToDouble_minute.
  pose proof (Z.div_mod (roundToDouble (now - timestamp * 1000)) 60000 ltac:(lia)).
  pose proof (Z.mod_pos_bound (roundToDouble (now - timestamp * 1000)) 60000
                ltac:(lia)).
  lia.
Qed.

(** X3.  An event is shown as ["Just now"] exactly when its timestamp is
    a valid date and it is less than a minute old, or lies in the
    future. *)
Theorem just_now_iff (now timestamp : Z) :
  formatTimestamp now timestamp = "Just now"
  <-> Z.abs (timestamp * 1000) <= MAX_TIME /\ now - timestamp * 1000 < 60000.
Proof.
  unfold formatTimestamp.
  destruct (MAX_TIME <? Z.abs (timestamp * 1000)) eqn:Hvalid.
  - apply Z.ltb_lt in Hvalid. split; [discriminate | lia].
  - apply Z.ltb_ge in Hvalid.
    set (diff := roundToDouble (now - timestamp * 1000) / 60000).
    pose proof (minutes_ago now timestamp) as Hmin. fold diff in Hmin.
    destruct (diff <? 1) eqn:H1.
    + apply Z.ltb_lt in H1. split; [intros _; split; [exact Hvalid | tauto] | reflexivity].
    + apply Z.ltb_ge in H1.
      assert (0 <= diff / 60) by (apply Z.div_pos; lia).
      assert (0 <= diff / 1440) by (apply Z.div_pos; lia).
      split; [|lia]. intros Heq. exfalso.
      destruct (diff <? 60); [|destruct (diff <? 1440)];
        revert Heq; apply counted_not_just_now; lia.
Qed.

(** X4.  A valid timestamp of a minute ago or more is shown as a count
    and a unit: the count is at least one, the minutes counted are below
    60 and the hours below 24, the count is the age rounded down to the
    unit, and the plural ["s"] is left out exactly for a count of one.
    The age is the difference of the two time values as the subtraction
    of doubles yields it: the difference itself up to [2 ^ 53]
    milliseconds, and the nearest double above. *)
Theorem formatTimestamp_counts (now timestamp : Z) :
  Z.abs now <= MAX_TIME ->
  Z.abs (timestamp * 1000) <= MAX_TIME ->
  60000 <= now - timestamp * 1000 ->
  exists n unit,
    formatTimestamp now timestamp
    = String.append (showNumber n)
        (String.append " "
           (String.append unit
              (String.append (if n =? 1 then "" else "s") " ago")))
    /\ 1 <= n
    /\ let age := roundToDouble (now - timestamp * 1000) in
       (now - timestamp * 1000 <= 2 ^ 53 -> age = now - timestamp * 1000)
       /\ ((unit = "min" /\ n < 60 /\ n * 60000 <= age < (n + 1) * 60000)
           \/ (unit = "hour" /\ n < 24 /\ n * 3600000 <= age < (n + 1) * 3600000)
           \/ (unit = "day" /\ n * 86400000 <= age < (n + 1) * 86400000)).
Proof.
  intros _ Hvalid Hold. unfold formatTimestamp.
  apply Z.ltb_ge in Hvalid. rewrite Hvalid.
  assert (60000 <= roundToDouble (now - timestamp * 1000)) as Hold'.
  { pose proof (roundToDouble_minute (now - timestamp * 1000)). lia. }
  assert (now - timestamp * 1000 <= 2 ^ 53 ->
          roundToDouble (now - timestamp * 1000) = now - timestamp * 1000) as Hexact.
  { intros Hle. apply roundToDouble_exact. lia. }
  set (age := roundToDouble (now - timestamp * 1000)) in *.
  set (diff := age / 60000).
  pose proof (Z.div_mod age 60000 ltac:(lia)) as Hd.
  pose proof (Z.mod_pos_bound age 60000 ltac:(lia)) as Hm.
  fold diff in Hd.
  assert (1 <= diff) as H1 by lia.
  apply Z.ltb_ge in H1. rewrite H1. apply Z.ltb_ge in H1.
  destruct (diff <? 60) eqn:H60; [|destruct (diff <? 1440) eqn:H1440].
  - apply Z.ltb_lt in H60.
    exists diff, "min". split; [reflexivity|]. split; [lia|].
    split; [exact Hexact|].
    left. repeat split; try reflexivity; lia.
  - apply Z.ltb_ge in H60. apply Z.ltb_lt in H1440.
    pose proof (Z.div_mod diff 60 ltac:(lia)) as Hd'.
    pose proof (Z.mod_pos_bound diff 60 ltac:(lia)) as Hm'.
    exists (diff / 60), "hour". split; [reflexivity|]. split; [lia|].
    split; [exact Hexact|].
    right; left. repeat split; try reflexivity; lia.
  - apply Z.ltb_ge in H60, H1440.
    pose proof (Z.div_mod diff 1440 ltac:(lia)) as Hd'.
    pose proof (Z.mod_pos_bound diff 1440 ltac:(lia)) as Hm'.
    exists (diff / 1440), "day". split; [reflexivity|]. split; [lia|].
    split; [exact Hexact|].
    right; right. repeat split; try reflexivity; lia.
Qed.

Lemma formatTimestamp_counts_witness :
  exists n unit,
    formatTimestamp 1700007300000 1700000000
    = String.append (showNumber n)
        (String.append " "
           (String.append unit
              (String.append (if n =? 1 then "" else "s") " ago")))
    /\ 1 <= n
    /\ let age := roundToDouble (1700007300000 - 1700000000 * 1000) in
       (1700007300000 - 1700000000 * 1000 <= 2 ^ 53
        -> age = 1700007300000 - 1700000000 * 1000)
       /\ ((unit = "min" /\ n < 60 /\ n * 60000 <= age < (n + 1) * 60000)
           \/ (unit = "hour" /\ n < 24 /\ n * 3600000 <= age < (n + 1) * 3600000)
           \/ (unit = "day" /\ n * 86400000 <= age < (n + 1) * 86400000)).
Proof.
  apply (@formatTimestamp_counts 1700007300000 1700000000).
  - unfold MAX_TIME. lia.
  - unfold MAX_TIME. lia.
  - lia.
Defined.

(** The oldest date seen at the latest moment: the age is one below
    twice [MAX_TIME], the subtraction rounds it up, and the count of
    days is the count of the rounded age. *)
Lemma formatTimestamp_rounded_age :
  formatTimestamp 8639999999999999 (-8640000000000) = "200000000 days ago"
  /\ (8639999999999999 - (-8640000000000) * 1000) / 86400000 = 199999999.
Proof. split; reflexivity. Qed.

(** * More about a cycle *)

(** ** The fields of a stored event *)

Lemma orElse_truthy (a b : string) : truthy b = true -> truthy (orElse a b) = true.
Proof. intros Hb. unfold orElse. destruct (truthy a) eqn:Ha; assumption. Qed.

(** X5.  Every event a cycle stores has a transaction hash that is not
    empty (an empty hash of the log is replaced by ["unknown"]) and a
    player in lower case, whatever the provider and the decoder return;
    both views. *)
Theorem stored_event_hash_and_player (w : World) :
  (forall acct c evs ev,
     In (SetEvents evs) (snd (Combined.fetchAllEvents w acct c)) ->
     In ev evs ->
     truthy (Combined.transactionHash ev) = true
     /\ toLowerCase (Combined.player ev) = Combined.player ev)
  /\ (forall acct c evs ev,
        In (SetEvents evs) (snd (Player.fetchRollEvents w acct c)) ->
        In ev evs ->
        truthy (Player.transactionHash ev) = true
        /\ toLowerCase (Player.player ev) = Player.player ev).
Proof.
  split; intros acct c evs ev Hin Hev.
  - destruct (traceOK_In _ _ _ _ (combined_cycle_trace w acct c) Hin)
      as (c' & _ & _ & _ & latest & _ & Hfrom).
    destruct (Hfrom ev Hev) as (address & log & _ & args & b & g & _ & _ & _ & ->).
    simpl. split; [now apply orElse_truthy | apply toLowerCase_idempotent].
  - destruct (traceOK_In _ _ _ _ (player_cycle_trace w acct c) Hin)
      as (c' & _ & _ & _ & latest & _ & Hfrom).
    destruct (Hfrom ev Hev) as (log & _ & args & b & _ & _ & _ & ->).
    simpl. split; [now apply orElse_truthy | apply toLowerCase_idempotent].
Qed.

Lemma stored_event_hash_and_player_witness :
  Forall (fun ev => truthy (Combined.transactionHash ev) = true
                    /\ toLowerCase (Combined.player ev) = Combined.player ev)
         sampleCombinedDisplay.
Proof.
  apply Forall_forall. intros ev Hev.
  apply (proj1 (stored_event_hash_and_player (sampleWorld None))
           None 0%nat sampleCombinedDisplay ev); [pick_action | exact Hev].
Defined.

(** X6.  Every event a cycle stores carries the timestamp of the block
    the provider resolved for the event's block number, and that block
    number is the one of a log a query of the cycle returned; both
    views. *)
Theorem stored_event_block_and_time (w : World) :
  (forall acct c evs ev,
     In (SetEvents evs) (snd (Combined.fetchAllEvents w acct c)) ->
     In ev evs ->
     exists latest address log b,
       getBlockNumber w = Ok latest
       /\ fetched w address (firstBlock latest) latest log
       /\ Combined.blockNumber ev = logBlockNumber log
       /\ getBlock w (Combined.blockNumber ev) = Ok (Some b)
       /\ Combined.timestamp ev = blockTimestamp b)
  /\ (forall acct c evs ev,
        In (SetEvents evs) (snd (Player.fetchRollEvents w acct c)) ->
        In ev evs ->
        exists latest log b,
          getBlockNumber w = Ok latest
          /\ fetched w Player.CONTRACT_ADDRESS (firstBlock latest) latest log
          /\ Player.blockNumber ev = logBlockNumber log
          /\ getBlock w (Player.blockNumber ev) = Ok (Some b)
          /\ Player.timestamp ev = blockTimestamp b).
Proof.
  split; intros acct c evs ev Hin Hev.
  - destruct (traceOK_In _ _ _ _ (combined_cycle_trace w acct c) Hin)
      as (c' & _ & _ & _ & latest & Hlatest & Hfrom).
    destruct (Hfrom ev Hev)
      as (address & log & Hlog & args & b & g & _ & Hblock & _ & ->).
    exists latest, address, log, b. simpl. auto.
  - destruct (traceOK_In _ _ _ _ (player_cycle_trace w acct c) Hin)
      as (c' & _ & _ & _ & latest & Hlatest & Hfrom).
    destruct (Hfrom ev Hev) as (log & Hlog & args & b & _ & Hblock & _ & ->).
    exists latest, log, b. simpl. auto.
Qed.

Lemma stored_event_block_and_time_witness :
  Forall (fun ev => exists latest log b,
            getBlockNumber (sampleWorld None) = Ok latest
            /\ fetched (sampleWorld None) Player.CONTRACT_ADDRESS
                 (firstBlock latest) latest log
            /\ Player.blockNumber ev = logBlockNumber log
            /\ getBlock (sampleWorld None) (Player.blockNumber ev) = Ok (Some b)
            /\ Player.timestamp ev = blockTimestamp b)
         samplePlayerDisplay.
Proof.
  apply Forall_forall. intros ev Hev.
  apply (proj2 (stored_event_block_and_time (sampleWorld None))
           "0xABC" 0%nat samplePlayerDisplay ev); [pick_action | exact Hev].
Defined.

(** ** The size of a query *)

(** X7.  Every log query of a cycle asks for a range that is not a
    single block and whose ends are at most [MAX_CHUNK_SIZE] apart: at
    most 451 blocks, below the 500 the provider accepts; both views,
    whatever the provider answers. *)
Theorem query_span_below_limit (w : World) :
  (forall acct c a f t,
     In (AwaitLogs a f t) (snd (Combined.fetchAllEvents w acct c)) ->
     f < t /\ t - f <= MAX_CHUNK_SIZE /\ windowBlocks (f, t) < 500)
  /\ (forall acct c a f t,
        In (AwaitLogs a f t) (snd (Player.fetchRollEvents w acct c)) ->
        f < t /\ t - f <= MAX_CHUNK_SIZE /\ windowBlocks (f, t) < 500).
Proof.
  assert (forall s l f t, In (f, t) (chunkWindows s l) ->
            f < t /\ t - f <= MAX_CHUNK_SIZE /\ windowBlocks (f, t) < 500) as Hwin.
  { intros s l f t Hin.
    pose proof (chunkWindows_bounds _ _ _ Hin) as Hb.
    pose proof (chunkWindows_size _ _ _ Hin) as Hs.
    unfold windowBlocks, MAX_CHUNK_SIZE in *. simpl in *. lia. }
  split; intros acct c a f t Hin.
  - destruct (traceOK_In _ _ _ _ (combined_cycle_trace w acct c) Hin)
      as (c' & latest & _ & Hw).
    eapply Hwin. exact Hw.
  - destruct (traceOK_In _ _ _ _ (player_cycle_trace w acct c) Hin)
      as (c' & latest & _ & Hw).
    eapply Hwin. exact Hw.
Qed.

Lemma query_span_below_limit_witness :
  1550 < 2000 /\ 2000 - 1550 <= MAX_CHUNK_SIZE /\ windowBlocks (1550, 2000) < 500.
Proof.
  apply (proj2 (query_span_below_limit (sampleWorld None))
           "0xABC" 0%nat Player.CONTRACT_ADDRESS 1550 2000).
  pick_action.
Defined.

(** ** What a fetch returns *)

Section ChunkResult.
Variable E : Type.
Variable w : World.

(** While the loop condition holds and every query resolves, the loop
    returns the logs of its windows, window after window. *)
Lemma chunkLoop_returns (guard : M E bool) (address : string)
    (s l cn : Z) (n : nat) :
  (forall c, guard c = (Ok true, [])) ->
  (forall f t, getLogs w address f t <> Thrown) ->
  forall (i : Z) (allLogs : list Log) (c : nat),
  fst (chunkLoop w guard address s l cn n i allLogs c)
  = Ok (allLogs ++ flat_map (windowLogs w address) (windowsFrom s l n i)).
Proof.
  intros Hg Hres.
  induction n as [|n IH]; intros i allLogs c; simpl.
  - now rewrite app_nil_r.
  - rewrite fst_bind_ok with (a := true) (t := []) by apply Hg.
    unfold windowLogs at 1. simpl.
    destruct (getLogs w address (Z.max (l - i * MAX_CHUNK_SIZE - MAX_CHUNK_SIZE) s)
                      (l - i * MAX_CHUNK_SIZE)) as [logs|] eqn:Hi;
      [|now apply Hres in Hi].
    erewrite fst_bind_ok by reflexivity.
    destruct (i <? cn - 1).
    + erewrite fst_bind_ok by reflexivity. rewrite IH. now rewrite <- app_assoc.
    + erewrite fst_bind_ok by reflexivity. rewrite IH. now rewrite <- app_assoc.
Qed.
End ChunkResult.

Lemma fetchEventsForContract_returns (w : World) (address : string)
    (g : Combined.GameType) (s l : Z) (acct : string) (c : nat) :
  (forall f t, getLogs w address f t <> Thrown) ->
  fst (Combined.fetchEventsForContract w address g s l acct c)
  = Ok (flat_map (contribution w g acct)
          (flat_map (windowLogs w address) (chunkWindows s l))).
Proof.
  intros Hres. unfold Combined.fetchEventsForContract.
  set (cn := ceilDiv (l - s) MAX_CHUNK_SIZE).
  pose proof (@chunkLoop_returns Combined.GameEvent w (ret true) address s l cn
                (Z.to_nat cn) (fun _ => eq_refl) Hres 0 [] c) as Hloop.
  destruct (chunkLoop w (ret true) address s l cn (Z.to_nat cn) 0 [] c)
    as [r t] eqn:Hrun.
  simpl in Hloop. subst r.
  erewrite fst_bind_ok by exact Hrun.
  rewrite parseLogs_eq. reflexivity.
Qed.

(** X8.  When every log query resolves, the fetch of a contract returns
    the events of the logs of its windows, newest window first and each
    window in the order of the provider: the result is put together
    from what the decoding step yields for each log on its own, and
    does not depend on when the fetch runs. *)
Theorem fetch_returns_events_of_windows (w : World) (address : string)
    (g : Combined.GameType) (s l : Z) (acct : string) (c : nat) :
  (forall f t, getLogs w address f t <> Thrown) ->
  fst (Combined.fetchEventsForContract w address g s l acct c)
  = Ok (flat_map (contribution w g acct)
          (flat_map (windowLogs w address) (chunkWindows s l))).
Proof. apply fetchEventsForContract_returns. Qed.

Lemma fetch_returns_events_of_windows_witness :
  fst (Combined.fetchEventsForContract (sampleWorld None)
         Combined.DICE_CONTRACT_ADDRESS Combined.dice 0 2000 "" 0%nat)
  = Ok (flat_map (contribution (sampleWorld None) Combined.dice "")
          (flat_map (windowLogs (sampleWorld None) Combined.DICE_CONTRACT_ADDRESS)
             (chunkWindows 0 2000))).
Proof.
  apply (@fetch_returns_events_of_windows (sampleWorld None)
           Combined.DICE_CONTRACT_ADDRESS Combined.dice 0 2000 "" 0%nat).
  intros f t. simpl. unfold sampleGetLogs. discriminate.
Defined.

(** X9.  A log of the block [latestBlock - MAX_CHUNK_SIZE] is returned
    twice: with a provider that answers every query with the logs of
    the chain in the queried range, and a range that needs more than
    one query, the event of such a log occurs two times in what the
    fetch returns. *)
Theorem boundary_log_returned_twice (w : World) (address : string)
    (g : Combined.GameType) (s l : Z) (acct : string) (c : nat)
    (chain : list Log) (log : Log) (ev : Combined.GameEvent) :
  (forall f t,
     getLogs w address f t
     = Ok (filter (fun x => (f <=? logBlockNumber x) && (logBlockNumber x <=? t))
                  chain)) ->
  MAX_CHUNK_SIZE < l - s ->
  In log chain ->
  logBlockNumber log = l - MAX_CHUNK_SIZE ->
  contribution w g acct log = [ev] ->
  exists before between after,
    fst (Combined.fetchEventsForContract w address g s l acct c)
    = Ok (before ++ ev :: between ++ ev :: after).
Proof.
  intros Hprov Hlen Hin Hbn Hev.
  rewrite fetchEventsForContract_returns
    by (intros f t; rewrite Hprov; discriminate).
  destruct (chunkWindows_overlap s l Hlen) as (w1 & w2 & rest & -> & H1 & H2 & _).
  assert (forall win, inWindow (l - MAX_CHUNK_SIZE) win = true ->
                      In log (windowLogs w address win)) as Hlogs.
  { intros win Hwin. unfold windowLogs. rewrite Hprov.
    apply filter_In. split; [exact Hin|]. rewrite Hbn. exact Hwin. }
  destruct (in_split _ _ (Hlogs w1 H1)) as (a1 & b1 & E1).
  destruct (in_split _ _ (Hlogs w2 H2)) as (a2 & b2 & E2).
  cbn [flat_map]. rewrite E1, E2.
  rewrite !flat_map_app. cbn [flat_map]. rewrite Hev.
  exists (flat_map (contribution w g acct) a1),
         (flat_map (contribution w g acct) b1 ++ flat_map (contribution w g acct) a2),
         (flat_map (contribution w g acct) b2
          ++ flat_map (contribution w g acct) (flat_map (windowLogs w address) rest)).
  rewrite <- !app_assoc. reflexivity.
Qed.

Lemma boundary_log_returned_twice_witness :
  exists before between after,
    fst (Combined.fetchEventsForContract (sampleWorld None)
           Combined.DICE_CONTRACT_ADDRESS Combined.dice 0 2000 "" 0%nat)
    = Ok (before
          ++ Combined.mkGameEvent 1550 "0xt1" "0xabc" 100 3 5 false Combined.dice 15500
          :: between
          ++ Combined.mkGameEvent 1550 "0xt1" "0xabc" 100 3 5 false Combined.dice 15500
          :: after).
Proof.
  apply (@boundary_log_returned_twice (sampleWorld None)
           Combined.DICE_CONTRACT_ADDRESS Combined.dice 0 2000 "" 0%nat
           sampleChain (mkLog 1550 "0xt1" ["0xroll"] "A")).
  - reflexivity.
  - unfold MAX_CHUNK_SIZE. lia.
  - simpl. left. reflexivity.
  - reflexivity.
  - reflexivity.
Defined.

(** ** The blocks a cycle looks at *)

(** X10.  When every log query resolves and the range holds more than
    one block, every block of [startBlock .. latestBlock] lies in a
    window the fetch of a contract has queried; so does every block of
    the range of a cycle of a player view that stays mounted. *)
Theorem every_block_is_queried (w : World) :
  (forall a f t, getLogs w a f t <> Thrown) ->
  (forall address g s l acct c b,
     s < l -> s <= b <= l ->
     exists win,
       In win (queried (snd (Combined.fetchEventsForContract w address g s l acct c)))
       /\ inWindow b win = true)
  /\ (teardown w = None ->
      forall latest acct c b,
      getBlockNumber w = Ok latest ->
      0 < latest -> firstBlock latest <= b <= latest ->
      exists win,
        In win (queried (snd (Player.fetchRollEvents w acct c)))
        /\ inWindow b win = true).
Proof.
  intros Hres. split.
  - intros address g s l acct c b Hsl Hb.
    rewrite fetchEventsForContract_queried by apply Hres.
    now apply chunkWindows_cover.
  - intros Hnone latest acct c b Hlatest Hpos Hb.
    rewrite (player_cycle_queried w acct Hnone c Hlatest) by apply Hres.
    apply chunkWindows_cover; [|exact Hb].
    unfold firstBlock, TOTAL_BLOCKS_TO_CHECK. lia.
Qed.

Lemma every_block_is_queried_witness :
  exists win,
    In win (queried (snd (Player.fetchRollEvents (sampleWorld None) "0xABC" 0%nat)))
    /\ inWindow 0 win = true.
Proof.
  assert (forall a f t, getLogs (sampleWorld None) a f t <> Thrown) as Hres
    by (intros a f t; simpl; unfold sampleGetLogs; discriminate).
  apply (proj2 (every_block_is_queried (sampleWorld None) Hres)
           eq_refl 2000 "0xABC" 0%nat 0 eq_refl).
  - lia.
  - unfold firstBlock, TOTAL_BLOCKS_TO_CHECK. lia.
Defined.

(** X11.  A range of a single block is not looked at: when [latestBlock]
    is not above [startBlock], the fetch of a contract returns no event
    without a single query, and a cycle of the player view that reads a
    block height of 0 stores the empty list without a log query. *)
Theorem single_block_range_is_skipped (w : World) :
  (forall address g s l acct c,
     l <= s ->
     Combined.fetchEventsForContract w address g s l acct c = (Ok [], []))
  /\ (teardown w = None ->
      forall latest acct c,
      getBlockNumber w = Ok latest ->
      latest <= 0 ->
      Player.fetchRollEvents w acct c
      = (Ok tt, [SetError None; SetLoading true; AwaitBlockNumber;
                 SetEvents []; SetLoading false])).
Proof.
  assert (forall s l, l <= s -> Z.to_nat (ceilDiv (l - s) MAX_CHUNK_SIZE) = 0%nat)
    as Hzero.
  { intros s l Hsl. pose proof (ceilDiv_spec (l - s)).
    unfold MAX_CHUNK_SIZE in *. lia. }
  split.
  - intros address g s l acct c Hsl.
    unfold Combined.fetchEventsForContract. rewrite (Hzero s l Hsl). reflexivity.
  - intros Hnone latest acct c Hlatest Hsl.
    assert (playerChunks w latest (S c) = (Ok [], [])) as Hloop.
    { unfold playerChunks. rewrite Hzero; [reflexivity|].
      unfold firstBlock, TOTAL_BLOCKS_TO_CHECK. lia. }
    rewrite (player_cycle_resolved w acct Hnone c Hlatest Hloop). reflexivity.
Qed.

Lemma single_block_range_is_skipped_witness :
  Combined.fetchEventsForContract (sampleWorld None)
    Combined.DICE_CONTRACT_ADDRESS Combined.dice 1550 1550 "" 0%nat = (Ok [], []).
Proof.
  apply (proj1 (single_block_range_is_skipped (sampleWorld None))
           Combined.DICE_CONTRACT_ADDRESS Combined.dice 1550 1550 "" 0%nat).
  lia.
Defined.

(** * The state of the views *)

(** ** After a cycle of a view that stays mounted *)

Lemma playerChunks_writes (w : World) (latest : Z) (c : nat) :
  writes (snd (playerChunks w latest c)) = [].
Proof.
  apply awaits_only_writes with (c := c).
  apply (@triple_chunkLoop Player.RollEvent w (fun _ a => isAwait a = true))
    with (PL := fun _ => True); simpl; auto.
  - apply triple_isMounted. auto.
  - intros. apply Forall_forall. auto.
Qed.

Lemma playerLookups_writes (w : World) (acct : string) (logs : list Log) :
  teardown w = None ->
  writes (flat_map (playerLookups w acct) logs) = [].
Proof.
  intros Hnone.
  replace (flat_map (playerLookups w acct) logs)
    with (snd (Player.parseLogs w acct logs [] 0%nat))
    by now rewrite (player_parseLogs_eq w acct Hnone).
  apply awaits_only_writes with (c := 0%nat).
  apply (@triple_player_parseLogs w (fun _ a => isAwait a = true) acct
           (fun _ => True) (fun _ => True)); simpl; auto.
  apply Forall_forall. auto.
Qed.

Section MountedCycles.
Variable w : World.
Hypothesis Hnone : teardown w = None.

(** The writes of a cycle of the combined view whose queries resolve. *)
Lemma combined_resolved_writes (acct : option string) (latest : Z) (c : nat) :
  getBlockNumber w = Ok latest ->
  (forall a f t, getLogs w a f t <> Thrown) ->
  writes (snd (Combined.fetchAllEvents w acct c))
  = [SetError None; SetLoading true;
     SetEvents (slice0 Combined.MAX_RESULTS
                  (sortDesc Combined.blockNumber (combinedEvents w acct latest)));
     SetLoading false].
Proof.
  intros Hlatest Hres.
  destruct (contractFetch w acct Combined.DICE_CONTRACT_ADDRESS Combined.dice
              latest (S c)) as [rd td] eqn:Hd.
  destruct (contractFetch w acct Combined.COINFLIP_CONTRACT_ADDRESS
              Combined.coinflip latest (S c)) as [rc tc] eqn:Hc.
  rewrite (combined_cycle_writes w acct Hnone c Hlatest Hd Hc).
  pose proof (fetchEventsForContract_returns w Combined.DICE_CONTRACT_ADDRESS
                Combined.dice (firstBlock latest) latest
                (Combined.accountOrEmpty acct) (S c)
                (Hres Combined.DICE_CONTRACT_ADDRESS)) as Hrd.
  pose proof (fetchEventsForContract_returns w Combined.COINFLIP_CONTRACT_ADDRESS
                Combined.coinflip (firstBlock latest) latest
                (Combined.accountOrEmpty acct) (S c)
                (Hres Combined.COINFLIP_CONTRACT_ADDRESS)) as Hrc.
  fold (contractFetch w acct Combined.DICE_CONTRACT_ADDRESS Combined.dice latest)
    in Hrd.
  fold (contractFetch w acct Combined.COINFLIP_CONTRACT_ADDRESS Combined.coinflip
          latest) in Hrc.
  rewrite Hd in Hrd. rewrite Hc in Hrc. simpl in Hrd, Hrc. subst rd rc.
  reflexivity.
Qed.

(** The writes of a cycle of the player view whose queries resolve. *)
Lemma player_resolved_writes (acct : string) (latest : Z) (c : nat) :
  getBlockNumber w = Ok latest ->
  (forall f t, getLogs w Player.CONTRACT_ADDRESS f t <> Thrown) ->
  writes (snd (Player.fetchRollEvents w acct c))
  = [SetError None; SetLoading true;
     SetEvents (slice0 Player.MAX_RESULTS
                  (sortDesc Player.blockNumber (playerEvents w acct latest)));
     SetLoading false].
Proof.
  intros Hlatest Hres.
  set (cn := ceilDiv (latest - firstBlock latest) MAX_CHUNK_SIZE).
  pose proof (@chunkLoop_returns Player.RollEvent w (isMounted _ w)
                Player.CONTRACT_ADDRESS (firstBlock latest) latest cn (Z.to_nat cn)
                (@isMounted_eq Player.RollEvent w Hnone) Hres 0 [] (S c)) as Hok.
  change (fst (playerChunks w latest (S c))
          = Ok ([] ++ flat_map (windowLogs w Player.CONTRACT_ADDRESS)
                        (chunkWindows (firstBlock latest) latest))) in Hok.
  pose proof (playerChunks_writes w latest (S c)) as Ht1.
  destruct (playerChunks w latest (S c)) as [r t1] eqn:Hloop.
  simpl in Hok, Ht1. subst r.
  rewrite (player_cycle_resolved w acct Hnone c Hlatest Hloop).
  cbn [snd].
  change ([SetError None; SetLoading true; AwaitBlockNumber] ++ t1 ++ ?x)
    with ([SetError None; SetLoading true] ++ [AwaitBlockNumber] ++ t1 ++ x).
  rewrite !writes_app, Ht1, (playerLookups_writes w acct _ Hnone). reflexivity.
Qed.
End MountedCycles.

Section FailedCycles.
Variable w : World.
Hypothesis Hnone : teardown w = None.

(** The writes of a cycle with a rejecting query. *)
Lemma combined_failed_writes (acct : option string) (c : nat) :
  getBlockNumber w = Thrown
  \/ (exists latest,
        getBlockNumber w = Ok latest
        /\ (logQueryFails w Combined.DICE_CONTRACT_ADDRESS latest
            \/ logQueryFails w Combined.COINFLIP_CONTRACT_ADDRESS latest)) ->
  writes (snd (Combined.fetchAllEvents w acct c))
  = [SetError None; SetLoading true; SetError (Some FETCH_ERROR); SetLoading false].
Proof.
  intros [Hheight|(latest & Hlatest & Hfail)].
  - rewrite (combined_cycle_no_height w acct Hnone c Hheight). reflexivity.
  - destruct (contractFetch w acct Combined.DICE_CONTRACT_ADDRESS Combined.dice
                latest (S c)) as [rd td] eqn:Hd.
    destruct (contractFetch w acct Combined.COINFLIP_CONTRACT_ADDRESS
                Combined.coinflip latest (S c)) as [rc tc] eqn:Hc.
    rewrite (combined_cycle_writes w acct Hnone c Hlatest Hd Hc).
    assert (match rd, rc with Ok _, Ok _ => False | _, _ => True end) as Hthrown.
    { destruct Hfail as [Hf|Hf].
      - pose proof (contractFetch_rejects acct Combined.dice (S c) Hf) as Hr.
        rewrite Hd in Hr. simpl in Hr. now subst rd.
      - pose proof (contractFetch_rejects acct Combined.coinflip (S c) Hf) as Hr.
        rewrite Hc in Hr. simpl in Hr. subst rc. now destruct rd. }
    destruct rd, rc; try contradiction; reflexivity.
Qed.

Lemma player_failed_writes (acct : string) (c : nat) :
  getBlockNumber w = Thrown
  \/ (exists latest,
        getBlockNumber w = Ok latest
        /\ logQueryFails w Player.CONTRACT_ADDRESS latest) ->
  writes (snd (Player.fetchRollEvents w acct c))
  = [SetError None; SetLoading true; SetError (Some FETCH_ERROR); SetLoading false].
Proof.
  intros [Hheight|(latest & Hlatest & win & Hwin & Hthrown)].
  - rewrite (player_cycle_no_height w acct Hnone c Hheight). reflexivity.
  - apply chunkWindows_In in Hwin. destruct Hwin as (j & Hj & ->).
    pose proof (playerChunks_writes w latest (S c)) as Ht1.
    destruct (playerChunks w latest (S c)) as [r t1] eqn:Hloop.
    assert (r = Thrown) as ->.
    { change r with (fst (r, t1)). rewrite <- Hloop. unfold playerChunks.
      apply chunkLoop_rejects with (j := j);
        [apply isMounted_eq, Hnone | lia | exact Hthrown]. }
    rewrite (player_cycle_rejected w acct Hnone c Hlatest Hloop).
    cbn [snd] in *.
    change ([SetError None; SetLoading true; AwaitBlockNumber] ++ t1 ++ ?x)
      with ([SetError None; SetLoading true] ++ [AwaitBlockNumber] ++ t1 ++ x).
    rewrite !writes_app, Ht1. reflexivity.
Qed.
End FailedCycles.

Lemma sampleWorld_resolves (td : option nat) :
  forall a f t, getLogs (sampleWorld td) a f t <> Thrown.
Proof. intros a f t. simpl. unfold sampleGetLogs. discriminate. Qed.

(** ** The empty filter *)

Section EmptyFilter.
Variable w : World.

Lemma contribution_empty_filter (g : Combined.GameType) (log : Log) :
  contribution w g "" log = everyPlayer w g log.
Proof.
  unfold contribution, everyPlayer, Combined.parseOne, tryCatch, bind, await, ret, throw.
  destruct (parseLog w (topics log) (data log)) as [[args|]|]; simpl; try reflexivity.
  destruct (getBlock w (logBlockNumber log)) as [[b|]|]; reflexivity.
Qed.

Lemma lookups_empty_filter (g : Combined.GameType) (log : Log) :
  lookups w g "" log
  = match parseLog w (topics log) (data log) with
    | Ok (Some _) => [AwaitBlock (logBlockNumber log)]
    | _ => []
    end.
Proof.
  unfold lookups, Combined.parseOne, tryCatch, bind, await, ret, throw.
  destruct (parseLog w (topics log) (data log)) as [[args|]|]; simpl; try reflexivity.
  destruct (getBlock w (logBlockNumber log)) as [[b|]|]; reflexivity.
Qed.
End EmptyFilter.

(** C10.  Without a connected wallet the combined view passes the empty
    string as the filter, and the empty string switches the filter off.
    With it, the decoding step looks up the block of every log that
    decodes, whoever the player is, and adds the event of the log when
    the block resolves; the fetch of a contract returns the events of
    every player in the logs of its windows; and a cycle without a
    wallet, in a view that stays mounted and with queries that resolve,
    stores the newest 50 events of every player in the logs of the two
    contracts. *)
Theorem no_wallet_no_filter (w : World) :
  (forall g log acc c,
     Combined.parseOne w g "" log acc c
     = (Ok (acc ++ everyPlayer w g log),
        match parseLog w (topics log) (data log) with
        | Ok (Some _) => [AwaitBlock (logBlockNumber log)]
        | _ => []
        end))
  /\ (forall address g s l c,
        (forall f t, getLogs w address f t <> Thrown) ->
        fst (Combined.fetchEventsForContract w address g s l "" c)
        = Ok (flat_map (everyPlayer w g)
                (flat_map (windowLogs w address) (chunkWindows s l))))
  /\ (teardown w = None ->
      forall latest c ui,
      getBlockNumber w = Ok latest ->
      (forall a f t, getLogs w a f t <> Thrown) ->
      render ui (snd (Combined.fetchAllEvents w None c))
      = mkUI (slice0 50
                (sortDesc Combined.blockNumber
                   (everyPlayerEvents w Combined.DICE_CONTRACT_ADDRESS
                      Combined.dice latest
                    ++ everyPlayerEvents w Combined.COINFLIP_CONTRACT_ADDRESS
                         Combined.coinflip latest)))
             false None).
Proof.
  split; [|split].
  - intros g log acc c.
    now rewrite parseOne_eq, contribution_empty_filter, lookups_empty_filter.
  - intros address g s l c Hres.
    rewrite fetchEventsForContract_returns by exact Hres.
    f_equal. apply flat_map_ext. intros log. apply contribution_empty_filter.
  - intros Hnone latest c ui Hlatest Hres.
    rewrite <- render_writes, (@combined_resolved_writes w Hnone None latest c Hlatest Hres).
    unfold combinedEvents, contractEvents, everyPlayerEvents.
    cbn [Combined.accountOrEmpty].
    rewrite !(flat_map_ext _ _ (contribution_empty_filter w _)).
    reflexivity.
Qed.

Lemma no_wallet_no_filter_witness :
  render (mkUI [] true None)
         (snd (Combined.fetchAllEvents (sampleWorld None) None 0%nat))
  = mkUI (slice0 50
            (sortDesc Combined.blockNumber
               (everyPlayerEvents (sampleWorld None) Combined.DICE_CONTRACT_ADDRESS
                  Combined.dice 2000
                ++ everyPlayerEvents (sampleWorld None)
                     Combined.COINFLIP_CONTRACT_ADDRESS Combined.coinflip 2000)))
         false None.
Proof.
  apply (proj2 (proj2 (no_wallet_no_filter (sampleWorld None))) eq_refl 2000 0%nat
           (mkUI [] true None) eq_refl (@sampleWorld_resolves None)).
Defined.

(** X12.  In a view that stays mounted, a cycle whose queries all
    resolve leaves the newest events of the range on display (at most
    [MAX_RESULTS] of them, sorted), no error and the loading flag
    cleared, whatever the state was before the cycle: an error of an
    earlier cycle is gone. *)
Theorem resolved_cycle_state (w : World) (latest : Z) :
  teardown w = None ->
  getBlockNumber w = Ok latest ->
  (forall a f t, getLogs w a f t <> Thrown) ->
  (forall acct c ui,
     render ui (snd (Combined.fetchAllEvents w acct c))
     = mkUI (slice0 50 (sortDesc Combined.blockNumber (combinedEvents w acct latest)))
            false None)
  /\ (forall acct c ui,
        render ui (snd (Player.fetchRollEvents w acct c))
        = mkUI (slice0 20 (sortDesc Player.blockNumber (playerEvents w acct latest)))
               false None).
Proof.
  intros Hnone Hlatest Hres. split; intros acct c ui.
  - rewrite <- render_writes,
      (combined_resolved_writes w Hnone acct c Hlatest Hres).
    reflexivity.
  - rewrite <- render_writes,
      (player_resolved_writes w Hnone acct c Hlatest (Hres Player.CONTRACT_ADDRESS)).
    reflexivity.
Qed.

Lemma resolved_cycle_state_witness :
  render (mkUI [] false (Some FETCH_ERROR))
         (snd (Player.fetchRollEvents (sampleWorld None) "0xABC" 0%nat))
  = mkUI (slice0 20 (sortDesc Player.blockNumber
                       (playerEvents (sampleWorld None) "0xABC" 2000)))
         false None.
Proof.
  apply (proj2 (@resolved_cycle_state (sampleWorld None) 2000 eq_refl eq_refl
                  (@sampleWorld_resolves None))).
Defined.

(** X13.  In a view that stays mounted, after a cycle with a rejecting
    block-height or log query the page is the error message, also when
    a list of an earlier cycle is still stored: the list is kept but
    not shown.  In the player view this holds whether or not a wallet
    is connected. *)
Theorem failed_cycle_page (w : World) :
  teardown w = None ->
  (getBlockNumber w = Thrown
   \/ (exists latest,
         getBlockNumber w = Ok latest
         /\ (logQueryFails w Combined.DICE_CONTRACT_ADDRESS latest
             \/ logQueryFails w Combined.COINFLIP_CONTRACT_ADDRESS latest)) ->
   forall acct c ui,
     CombinedView.page (render ui (snd (Combined.fetchAllEvents w acct c)))
     = CombinedView.Failure FETCH_ERROR)
  /\ (getBlockNumber w = Thrown
      \/ (exists latest,
            getBlockNumber w = Ok latest
            /\ logQueryFails w Player.CONTRACT_ADDRESS latest) ->
      forall acct c ui isConnected currentAccount,
        PlayerView.page isConnected currentAccount
          (render ui (snd (Player.fetchRollEvents w acct c)))
        = PlayerView.Failure FETCH_ERROR).
Proof.
  intros Hnone. split; intros Hfail acct c ui.
  - rewrite <- render_writes, (@combined_failed_writes w Hnone acct c Hfail).
    reflexivity.
  - intros isConnected currentAccount.
    rewrite <- render_writes, (@player_failed_writes w Hnone acct c Hfail).
    reflexivity.
Qed.

Lemma failed_cycle_page_witness :
  CombinedView.page
    (render (mkUI sampleCombinedDisplay false None)
       (snd (Combined.fetchAllEvents (failingWorld None) None 0%nat)))
  = CombinedView.Failure FETCH_ERROR.
Proof.
  apply (proj1 (@failed_cycle_page (failingWorld None) eq_refl)).
  right. exists 2000. split; [reflexivity|].
  left. apply failingWorld_query_fails.
Defined.

(** ** What the page shows *)

Lemma sortDesc_cons_length (T : Type) (key : T -> Z) (n : nat) (x : T) (l : list T) :
  (List.length (slice0 (S n) (sortDesc key (x :: l))) =? 0)%nat = false.
Proof.
  simpl. destruct (sortDesc key l) as [|y l']; simpl; [reflexivity|].
  now destruct (key y <=? key x).
Qed.

Lemma slice0_slice0 (T : Type) (i j : nat) (l : list T) :
  (i <= j)%nat -> slice0 i (slice0 j l) = slice0 i l.
Proof.
  intros Hij. unfold slice0. rewrite firstn_firstn. f_equal. lia.
Qed.

(** X14.  In a view that stays mounted, after a cycle whose queries all
    resolve the combined view shows the 12 newest events of the range
    in its table and the 10 newest in its cards, and the player view of
    a connected account shows the 20 newest; with no event in the range
    they show the empty notice (in the player view with the shortened
    account). *)
Theorem resolved_cycle_page (w : World) (latest : Z) :
  teardown w = None ->
  getBlockNumber w = Ok latest ->
  (forall a f t, getLogs w a f t <> Thrown) ->
  (forall acct c ui,
     CombinedView.page (render ui (snd (Combined.fetchAllEvents w acct c)))
     = match combinedEvents w acct latest with
       | [] => CombinedView.NoBets
       | _ :: _ =>
           CombinedView.RecentBets
             (slice0 12 (sortDesc Combined.blockNumber (combinedEvents w acct latest)))
             (slice0 10 (sortDesc Combined.blockNumber (combinedEvents w acct latest)))
       end)
  /\ (forall acct c ui,
        truthy acct = true ->
        PlayerView.page true (Some acct)
          (render ui (snd (Player.fetchRollEvents w acct c)))
        = match playerEvents w acct latest with
          | [] => PlayerView.NoBets (shortPlayer acct)
          | _ :: _ =>
              PlayerView.YourBets
                (slice0 20 (sortDesc Player.blockNumber (playerEvents w acct latest)))
          end).
Proof.
  intros Hnone Hlatest Hres. split.
  - intros acct c ui.
    rewrite <- render_writes,
      (combined_resolved_writes w Hnone acct c Hlatest Hres).
    unfold CombinedView.page, render. cbn [fold_left applyAction loading error events].
    cbn [andb]. unfold Combined.MAX_RESULTS.
    destruct (combinedEvents w acct latest) as [|x l]; [reflexivity|].
    rewrite sortDesc_cons_length.
    rewrite !slice0_slice0 by lia. reflexivity.
  - intros acct c ui Hacct.
    rewrite <- render_writes,
      (player_resolved_writes w Hnone acct c Hlatest (Hres Player.CONTRACT_ADDRESS)).
    unfold PlayerView.page, render. cbn [fold_left applyAction loading error events].
    cbn [andb negb orb]. rewrite Hacct. cbn [negb]. unfold Player.MAX_RESULTS.
    destruct (playerEvents w acct latest) as [|x l]; [reflexivity|].
    rewrite sortDesc_cons_length. reflexivity.
Qed.

Lemma resolved_cycle_page_witness :
  PlayerView.page true (Some "0xABC")
    (render (mkUI [] true None)
       (snd (Player.fetchRollEvents (sampleWorld None) "0xABC" 0%nat)))
  = match playerEvents (sampleWorld None) "0xABC" 2000 with
    | [] => PlayerView.NoBets (shortPlayer "0xABC")
    | _ :: _ =>
        PlayerView.YourBets
          (slice0 20 (sortDesc Player.blockNumber
                        (playerEvents (sampleWorld None) "0xABC" 2000)))
    end.
Proof.
  apply (proj2 (@resolved_cycle_page (sampleWorld None) 2000 eq_refl eq_refl
                  (@sampleWorld_resolves None))).
  reflexivity.
Defined.

Section CycleStart.
Variable E : Type.

Lemma snd_tryFinally {A} (m : M E A) (f : M E unit) (c : nat) :
  exists rest, snd (tryFinally m f c) = snd (m c) ++ rest.
Proof.
  unfold tryFinally. destruct (m c) as [r t].
  destruct (f (awaits t + c)%nat) as [r' t']. now exists t'.
Qed.

Lemma snd_tryCatch {A} (m h : M E A) (c : nat) :
  exists rest, snd (tryCatch m h c) = snd (m c) ++ rest.
Proof.
  unfold tryCatch. destruct (m c) as [[a|] t]; simpl.
  - exists []. now rewrite app_nil_r.
  - destruct (h (awaits t + c)%nat) as [r' t']. now exists t'.
Qed.

Lemma snd_bind_await {A B} (a : Action E) (p : Outcome A) (f : A -> M E B) (c : nat) :
  exists rest, snd (bind (await a p) f c) = a :: rest.
Proof.
  unfold bind, await. destruct p as [x|]; simpl.
  - destruct (f x (awaits [a] + c)%nat) as [r' t']. now exists t'.
  - now exists [].
Qed.
End CycleStart.

(** X15.  A cycle that starts in a mounted view first clears the error
    and sets the loading flag, then asks for the block height.  While
    it waits, the page is the list stored before the cycle if that list
    is not empty, also when the error message was on display before;
    with an empty list the page is the loading notice. *)
Theorem refresh_shows_previous_list (w : World) (c : nat) :
  mountedAt w c = true ->
  (forall acct,
     exists rest,
       snd (Combined.fetchAllEvents w acct c)
       = [SetError None; SetLoading true; AwaitBlockNumber] ++ rest)
  /\ (forall acct,
        exists rest,
          snd (Player.fetchRollEvents w acct c)
          = [SetError None; SetLoading true; AwaitBlockNumber] ++ rest)
  /\ (forall ui,
        CombinedView.page (render ui [SetError None; SetLoading true; AwaitBlockNumber])
        = match events ui with
          | [] => CombinedView.Loading
          | _ :: _ =>
              CombinedView.RecentBets (slice0 12 (events ui)) (slice0 10 (events ui))
          end)
  /\ (forall ui acct,
        truthy acct = true ->
        PlayerView.page true (Some acct)
          (render ui [SetError None; SetLoading true; AwaitBlockNumber])
        = match events ui with
          | [] => PlayerView.Loading
          | _ :: _ => PlayerView.YourBets (events ui)
          end).
Proof.
  intros Hm.
  split; [|split; [|split]].
  - intros acct. unfold Combined.fetchAllEvents.
    match goal with |- context [complete ?m c] =>
      assert (exists rest,
                snd (m c) = [SetError None; SetLoading true; AwaitBlockNumber] ++ rest)
        as [rest Hrest];
      [ | unfold complete; destruct (m c) as [r t]; cbn [snd] in *; subst t;
          exists (direct rest ++ deferred rest);
          rewrite direct_app, deferred_app; reflexivity ]
    end.
    match goal with |- context [tryFinally ?m ?f c] =>
      destruct (snd_tryFinally m f c) as [r1 ->] end.
    match goal with |- context [tryCatch ?m ?h c] =>
      destruct (snd_tryCatch m h c) as [r2 ->] end.
    erewrite snd_bind_ok
      by (unfold whenMounted, bind, isMounted; rewrite Hm; reflexivity).
    match goal with |- context [snd (bind (await ?a ?p) ?f ?c')] =>
      destruct (snd_bind_await a p f c') as [rest ->] end.
    exists (rest ++ r2 ++ r1). simpl. now rewrite <- !app_assoc.
  - intros acct. unfold Player.fetchRollEvents.
    match goal with |- context [tryFinally ?m ?f c] =>
      destruct (snd_tryFinally m f c) as [r1 ->] end.
    match goal with |- context [tryCatch ?m ?h c] =>
      destruct (snd_tryCatch m h c) as [r2 ->] end.
    erewrite snd_bind_ok
      by (unfold whenMounted, bind, isMounted; rewrite Hm; reflexivity).
    match goal with |- context [snd (bind (await ?a ?p) ?f ?c')] =>
      destruct (snd_bind_await a p f c') as [rest ->] end.
    exists (rest ++ r2 ++ r1). simpl. now rewrite <- !app_assoc.
  - intros ui. unfold CombinedView.page. simpl.
    now destruct (events ui).
  - intros ui acct Hacct. unfold PlayerView.page. simpl. rewrite Hacct.
    now destruct (events ui).
Qed.

Lemma refresh_shows_previous_list_witness :
  CombinedView.page
    (render (mkUI sampleCombinedDisplay false (Some FETCH_ERROR))
       [SetError None; SetLoading true; AwaitBlockNumber])
  = match events (mkUI sampleCombinedDisplay false (Some FETCH_ERROR)) with
    | [] => CombinedView.Loading
    | _ :: _ =>
        CombinedView.RecentBets
          (slice0 12 (events (mkUI sampleCombinedDisplay false (Some FETCH_ERROR))))
          (slice0 10 (events (mkUI sampleCombinedDisplay false (Some FETCH_ERROR))))
    end.
Proof.
  apply (proj1 (proj2 (proj2 (@refresh_shows_previous_list (sampleWorld None) 0%nat
                                eq_refl)))).
Defined.

(** X16.  Without a connected wallet or without an account the effect
    of the player view asks the provider nothing: it clears the list
    and the loading flag, and nothing else.  An error of an earlier
    cycle is not cleared, so the page stays on that error; without one
    the page asks to connect a wallet. *)
Theorem effect_without_wallet (w : World) (isConnected : bool)
    (currentAccount : option string) (c : nat) :
  isConnected = false \/ currentAccount = None \/ currentAccount = Some "" ->
  Player.effect w isConnected currentAccount c
  = (Ok tt, [SetEvents []; SetLoading false])
  /\ forall ui,
       PlayerView.page isConnected currentAccount
         (render ui (snd (Player.effect w isConnected currentAccount c)))
       = match error ui with
         | Some message =>
             if truthy message then PlayerView.Failure message
             else PlayerView.ConnectWallet
         | None => PlayerView.ConnectWallet
         end.
Proof.
  intros Hno.
  assert (Player.effect w isConnected currentAccount c
          = (Ok tt, [SetEvents []; SetLoading false])) as Hrun.
  { unfold Player.effect.
    destruct currentAccount as [a|]; [|reflexivity].
    destruct Hno as [->|[H|H]]; [reflexivity | discriminate |].
    injection H as ->. simpl. now rewrite orb_true_r. }
  split; [exact Hrun|]. intros ui. rewrite Hrun.
  unfold PlayerView.page. simpl.
  assert (match currentAccount with
          | Some a =>
              if negb isConnected || negb (truthy a) then PlayerView.ConnectWallet
              else PlayerView.NoBets (shortPlayer a)
          | None => PlayerView.ConnectWallet
          end = PlayerView.ConnectWallet) as ->; [|reflexivity].
  destruct currentAccount as [a|]; [|reflexivity].
  destruct Hno as [->|[H|H]]; [reflexivity | discriminate |].
  injection H as ->. simpl. now rewrite orb_true_r.
Qed.

Lemma effect_without_wallet_witness :
  Player.effect (sampleWorld None) false (Some "0xABC") 0%nat
  = (Ok tt, [SetEvents []; SetLoading false])
  /\ forall ui,
       PlayerView.page false (Some "0xABC")
         (render ui (snd (Player.effect (sampleWorld None) false (Some "0xABC") 0%nat)))
       = match error ui with
         | Some message =>
             if truthy message then PlayerView.Failure message
             else PlayerView.ConnectWallet
         | None => PlayerView.ConnectWallet
         end.
Proof.
  apply (@effect_without_wallet (sampleWorld None) false (Some "0xABC") 0%nat).
  left. reflexivity.
Defined.

(** ** The cap *)

Section Cap.
Variable T : Type.
Variable key : T -> Z.

Lemma sorted_split (l1 l2 : list T) :
  SortedDesc key (l1 ++ l2) ->
  forall x y, In x l1 -> In y l2 -> key y <= key x.
Proof.
  unfold SortedDesc. intros Hs.
  apply Sorted_StronglySorted in Hs; [|intros a b c Hab Hbc; lia].
  induction l1 as [|a l1 IH]; intros x y Hx Hy; [contradiction|].
  simpl in Hs. apply StronglySorted_inv in Hs. destruct Hs as [Hs Hall].
  destruct Hx as [->|Hx]; [|now apply IH].
  rewrite Forall_forall in Hall. apply Hall. apply in_or_app. now right.
Qed.

(** X17.  The cap keeps the newest: of the sorted list the views store
    the first [n] entries, every entry that is cut off has a block
    number that is not above the block number of any entry that is
    kept, and the kept and the cut-off entries together are the entries
    of the list that was sorted. *)
Theorem cap_keeps_newest (n : nat) (l : list T) :
  Permutation (slice0 n (sortDesc key l) ++ skipn n (sortDesc key l)) l
  /\ forall x y,
       In x (slice0 n (sortDesc key l)) ->
       In y (skipn n (sortDesc key l)) ->
       key y <= key x.
Proof.
  split.
  - unfold slice0. rewrite firstn_skipn. apply sortDesc_perm.
  - apply sorted_split. unfold slice0. rewrite firstn_skipn.
    apply sortDesc_sorted.
Qed.
End Cap.

Lemma cap_keeps_newest_witness :
  2 <= 3.
Proof.
  apply (proj2 (@cap_keeps_newest Z (fun z => z) 1 [2; 3; 1]) 3 2);
    simpl; auto.
Defined.

(** * More about the player filter *)

(** X18.  The filter keeps every bet of the player: a log that decodes
    to a player equal to the filter up to case, and whose block
    resolves, has its event in what the decoding loop returns, in the
    combined view and in a player view that stays mounted. *)
Theorem matching_log_is_kept (w : World) (logs : list Log) (log : Log)
    (args : RollArgs) (b : Block) (P : string) :
  In log logs ->
  parseLog w (topics log) (data log) = Ok (Some args) ->
  getBlock w (logBlockNumber log) = Ok (Some b) ->
  toLowerCase (argPlayer args) = toLowerCase P ->
  (forall g c,
     exists evs,
       fst (Combined.parseLogs w g P logs [] c) = Ok evs
       /\ In {| Combined.blockNumber := logBlockNumber log;
                Combined.transactionHash := orElse (logTransactionHash log) "unknown";
                Combined.player := toLowerCase (argPlayer args);
                Combined.amount := argAmount args;
                Combined.choice := Number (argChoice args);
                Combined.outcome := Number (argOutcome args);
                Combined.won := argWon args;
                Combined.gameType := g;
                Combined.timestamp := blockTimestamp b |} evs)
  /\ (teardown w = None ->
      forall c,
      exists evs,
        fst (Player.parseLogs w P logs [] c) = Ok evs
        /\ In {| Player.blockNumber := logBlockNumber log;
                 Player.transactionHash := orElse (logTransactionHash log) "unknown";
                 Player.player := toLowerCase (argPlayer args);
                 Player.amount := argAmount args;
                 Player.choice := Number (argChoice args);
                 Player.outcome := Number (argOutcome args);
                 Player.won := argWon args;
                 Player.timestamp := blockTimestamp b |} evs).
Proof.
  intros Hin Hparse Hblock Hmatch. split.
  - intros g c. eexists. rewrite parseLogs_eq. simpl. split; [reflexivity|].
    apply in_flat_map. exists log. split; [exact Hin|].
    rewrite (contribution_event w g P log Hparse Hblock); [now left | now right].
  - intros Hnone c. eexists. rewrite (player_parseLogs_eq w P Hnone). simpl.
    split; [reflexivity|].
    apply in_flat_map. exists log. split; [exact Hin|].
    rewrite (playerContribution_event w P Hnone log Hparse Hblock Hmatch).
    now left.
Qed.

Lemma matching_log_is_kept_witness :
  exists evs,
    fst (Player.parseLogs (sampleWorld None) "0XABC" sampleChain [] 0%nat) = Ok evs
    /\ In (Player.mkRollEvent 1550 "0xt1" "0xabc" 100 (Number 3) (Number 5) false 15500)
          evs.
Proof.
  apply (proj2 (@matching_log_is_kept (sampleWorld None) sampleChain
                  (mkLog 1550 "0xt1" ["0xroll"] "A")
                  (mkArgs "0xAbC" 100 3 5 false) (mkBlock 15500) "0XABC"
                  (or_introl eq_refl) eq_refl eq_refl eq_refl) eq_refl 0%nat).
Defined.

(** X19.  A bet of another player costs no block lookup: when the log
    decodes to a player that differs from the filter also up to case,
    the decoding step leaves the list as it is and does not suspend; in
    the combined view for a filter that is not empty, in the player view
    always. *)
Theorem other_player_costs_no_lookup (w : World) (log : Log) (args : RollArgs)
    (P : string) :
  parseLog w (topics log) (data log) = Ok (Some args) ->
  toLowerCase (argPlayer args) <> toLowerCase P ->
  (truthy P = true ->
   forall g acc c, Combined.parseOne w g P log acc c = (Ok acc, []))
  /\ (forall acc c, Player.parseOne w P log acc c = (Ok acc, [])).
Proof.
  intros Hparse Hother.
  assert ((toLowerCase (argPlayer args) =? toLowerCase P)%string = false) as Hneq
    by now apply String.eqb_neq.
  split.
  - intros HP g acc c.
    unfold Combined.parseOne, tryCatch. rewrite Hparse, HP, Hneq. reflexivity.
  - intros acc c.
    unfold Player.parseOne, tryCatch. rewrite Hparse, Hneq. reflexivity.
Qed.

Lemma other_player_costs_no_lookup_witness :
  Player.parseOne (sampleWorld None) "0xABC" (mkLog 900 "0xt3" ["0xroll"] "C") [] 0%nat
  = (Ok [], []).
Proof.
  apply (proj2 (@other_player_costs_no_lookup (sampleWorld None)
                  (mkLog 900 "0xt3" ["0xroll"] "C")
                  (mkArgs "0xDEF" 250 (2 ^ 53 + 1) 1 true) "0xABC" eq_refl
                  ltac:(discriminate))).
Defined.

(** * The number of log queries *)

Section QueryCount.
Variable E : Type.
Variable w : World.

Lemma asked_app (t t' : Trace E) : asked (t ++ t') = (asked t + asked t')%nat.
Proof.
  unfold asked. rewrite direct_app, deferred_app, !queried_app, !length_app. lia.
Qed.

Lemma asked_cons (a : Action E) (t : Trace E) :
  asked (a :: t) = (asked [a] + asked t)%nat.
Proof. apply (asked_app [a] t). Qed.

Lemma asked_later (t : Trace E) : (asked (map Later t) <= asked t)%nat.
Proof.
  induction t as [|a t IH]; [apply Nat.le_refl|].
  cbn [map]. rewrite (asked_cons (Later a)), (asked_cons a).
  apply Nat.add_le_mono; [|exact IH].
  destruct a; cbn; lia.
Qed.

(** The queries of two tasks side by side are the queries of the two
    tasks. *)
Lemma asked_sideBySide (s : list bool) :
  forall (ta tb : Trace E) (ea eb : bool),
  (asked (sideBySide s ta tb ea eb) <= asked ta + asked tb)%nat.
Proof.
  assert (forall (t : Trace E) (e : bool),
            (asked (if e then map Later t else t) <= asked t)%nat) as Hrest.
  { intros t [|]; [apply asked_later | apply Nat.le_refl]. }
  induction s as [|b s IH]; intros ta tb ea eb.
  - destruct ta as [|a ta], tb as [|b' tb].
    + pose proof (Hrest [] ea) as H. cbn [sideBySide]. lia.
    + pose proof (Hrest (b' :: tb) ea) as H. cbn [sideBySide]. lia.
    + pose proof (Hrest (a :: ta) eb) as H. cbn [sideBySide]. lia.
    + cbn [sideBySide]. rewrite asked_app.
      apply Nat.add_le_mono_l. exact (Hrest (b' :: tb) ea).
  - destruct ta as [|a ta], tb as [|b' tb].
    + pose proof (Hrest [] ea) as H. cbn [sideBySide]. lia.
    + pose proof (Hrest (b' :: tb) ea) as H. cbn [sideBySide]. lia.
    + pose proof (Hrest (a :: ta) eb) as H. cbn [sideBySide]. lia.
    + cbn [sideBySide]. destruct b.
      * rewrite asked_cons, (asked_cons a ta).
        specialize (IH ta (b' :: tb) ea eb). lia.
      * rewrite asked_cons, (asked_cons b' tb).
        specialize (IH (a :: ta) tb ea eb). lia.
Qed.

Lemma queried_direct (t : Trace E) : queried (direct t) = queried t.
Proof.
  induction t as [|a t IH]; [reflexivity|].
  destruct a; simpl; now rewrite ?IH.
Qed.

Lemma queried_le_asked (t : Trace E) : (List.length (queried t) <= asked t)%nat.
Proof.
  unfold asked. rewrite queried_app, length_app, queried_direct. lia.
Qed.

Lemma queries_complete {A} (N : nat) (m : M E A) :
  queriesAtMost N m ->
  forall c, (List.length (queried (snd (complete m c))) <= N)%nat.
Proof.
  intros Hm c. specialize (Hm c). unfold complete.
  destruct (m c) as [r t]. exact Hm.
Qed.

Lemma queries_mono {A} (N N' : nat) (m : M E A) :
  queriesAtMost N m -> (N <= N')%nat -> queriesAtMost N' m.
Proof. intros Hm Hle c. specialize (Hm c). lia. Qed.

Lemma queries_ret {A} (a : A) : queriesAtMost 0 (ret (E := E) a).
Proof. intros c. apply Nat.le_refl. Qed.

Lemma queries_throw {A} : queriesAtMost 0 (throw (E := E) (A := A)).
Proof. intros c. apply Nat.le_refl. Qed.

Lemma queries_emit (a : Action E) : isSetter a = true -> queriesAtMost 0 (emit a).
Proof. intros Ha c. destruct a; simpl in *; try discriminate; apply Nat.le_refl. Qed.

Lemma queries_await {A} (a : Action E) (p : Outcome A) :
  queriesAtMost (asked [a]) (await a p).
Proof. intros c. apply Nat.le_refl. Qed.

Lemma queries_isMounted : queriesAtMost 0 (isMounted E w).
Proof. intros c. apply Nat.le_refl. Qed.

Lemma queries_bind {A B} (N1 N2 : nat) (m : M E A) (f : A -> M E B) :
  queriesAtMost N1 m -> (forall a, queriesAtMost N2 (f a)) ->
  queriesAtMost (N1 + N2) (bind m f).
Proof.
  intros Hm Hf c. unfold bind. specialize (Hm c).
  destruct (m c) as [[a|] t]; simpl in *; [|lia].
  specialize (Hf a (awaits t + c)%nat).
  destruct (f a (awaits t + c)%nat) as [r' t']; simpl in *.
  rewrite asked_app. lia.
Qed.

Lemma queries_whenMounted (N : nat) (m : M E unit) :
  queriesAtMost N m -> queriesAtMost N (whenMounted w m).
Proof.
  intros Hm. unfold whenMounted.
  apply (queries_bind (N1 := 0) (N2 := N)); [apply queries_isMounted|].
  intros [|]; [exact Hm|]. apply queries_mono with (N := 0%nat); [apply queries_ret | lia].
Qed.

Lemma queries_tryCatch {A} (N1 N2 : nat) (m h : M E A) :
  queriesAtMost N1 m -> queriesAtMost N2 h ->
  queriesAtMost (N1 + N2) (tryCatch m h).
Proof.
  intros Hm Hh c. unfold tryCatch. specialize (Hm c).
  destruct (m c) as [[a|] t]; simpl in *; [lia|].
  specialize (Hh (awaits t + c)%nat).
  destruct (h (awaits t + c)%nat) as [r' t']; simpl in *.
  rewrite asked_app. lia.
Qed.

Lemma queries_tryFinally {A} (N1 N2 : nat) (m : M E A) (f : M E unit) :
  queriesAtMost N1 m -> queriesAtMost N2 f ->
  queriesAtMost (N1 + N2) (tryFinally m f).
Proof.
  intros Hm Hf c. unfold tryFinally. specialize (Hm c).
  destruct (m c) as [r t]; simpl in *.
  specialize (Hf (awaits t + c)%nat).
  destruct (f (awaits t + c)%nat) as [r' t']; simpl in *.
  rewrite asked_app. lia.
Qed.

Lemma queries_promiseAll {A B} (N1 N2 : nat) (ma : M E A) (mb : M E B) :
  queriesAtMost N1 ma -> queriesAtMost N2 mb ->
  queriesAtMost (N1 + N2) (promiseAll w ma mb).
Proof.
  intros Ha Hb c. unfold promiseAll. specialize (Ha c). specialize (Hb c).
  destruct (ma c) as [ra ta], (mb c) as [rb tb]; cbn [snd] in *.
  pose proof (asked_sideBySide (schedule w) ta tb (rejected ra) (rejected rb)).
  lia.
Qed.

(** The loop asks once for each index it runs over. *)
Lemma queries_chunkLoop (guard : M E bool) (address : string) (s l cn : Z) (n : nat) :
  queriesAtMost 0 guard ->
  forall i allLogs,
  queriesAtMost n (chunkLoop w guard address s l cn n i allLogs).
Proof.
  intros Hg. induction n as [|n IH]; intros i allLogs; simpl.
  - apply queries_ret.
  - apply (queries_bind (N1 := 0) (N2 := S n)); [exact Hg|].
    intros [|]; [|apply queries_mono with (N := 0%nat); [apply queries_ret | lia]].
    apply (queries_bind (N1 := 1) (N2 := n)); [apply queries_await|].
    intros logs.
    apply (queries_bind (N1 := 0) (N2 := n)).
    + destruct (i <? cn - 1); [apply queries_await | apply queries_ret].
    + intros _. apply IH.
Qed.
End QueryCount.

Lemma chunks_at_most_five (latest : Z) :
  (Z.to_nat (ceilDiv (latest - firstBlock latest) MAX_CHUNK_SIZE) <= 5)%nat.
Proof.
  pose proof (ceilDiv_spec (latest - firstBlock latest)) as H.
  unfold firstBlock, TOTAL_BLOCKS_TO_CHECK, MAX_CHUNK_SIZE in *. lia.
Qed.

Section QueryCountOfCycles.
Variable w : World.

Lemma queries_combined_parseOne (g : Combined.GameType) (acct : string)
    (log : Log) (acc : list Combined.GameEvent) :
  queriesAtMost 0 (Combined.parseOne w g acct log acc).
Proof.
  unfold Combined.parseOne.
  apply (queries_tryCatch (N1 := 0) (N2 := 0)); [|apply queries_ret].
  destruct (parseLog w (topics log) (data log)) as [[args|]|];
    [ | apply queries_ret | apply queries_throw ].
  match goal with |- context [if ?b then _ else _] => destruct b end;
    [apply queries_ret|].
  apply (queries_bind (N1 := 0) (N2 := 0)); [apply queries_await|].
  intros [b|]; apply queries_ret.
Qed.

Lemma queries_combined_parseLogs (g : Combined.GameType) (acct : string)
    (logs : list Log) :
  forall acc : list Combined.GameEvent,
  queriesAtMost 0 (Combined.parseLogs w g acct logs acc).
Proof.
  induction logs as [|log logs IH]; intros acc; simpl; [apply queries_ret|].
  apply (queries_bind (N1 := 0) (N2 := 0)); [apply queries_combined_parseOne|].
  intros evs. apply IH.
Qed.

Lemma queries_player_parseOne (acct : string) (log : Log)
    (acc : list Player.RollEvent) :
  queriesAtMost 0 (Player.parseOne w acct log acc).
Proof.
  unfold Player.parseOne.
  apply (queries_tryCatch (N1 := 0) (N2 := 0)); [|apply queries_ret].
  destruct (parseLog w (topics log) (data log)) as [[args|]|];
    [ | apply queries_ret | apply queries_throw ].
  match goal with |- context [if ?b then _ else _] => destruct b end;
    [apply queries_ret|].
  apply (queries_bind (N1 := 0) (N2 := 0)); [apply queries_await|].
  intros [b|]; [|apply queries_ret].
  apply (queries_bind (N1 := 0) (N2 := 0)); [apply queries_isMounted|].
  intros [|]; apply queries_ret.
Qed.

Lemma queries_player_parseLogs (acct : string) (logs : list Log) :
  forall acc : list Player.RollEvent,
  queriesAtMost 0 (Player.parseLogs w acct logs acc).
Proof.
  induction logs as [|log logs IH]; intros acc; simpl; [apply queries_ret|].
  apply (queries_bind (N1 := 0) (N2 := 0)); [apply queries_player_parseOne|].
  intros evs. apply IH.
Qed.

Lemma queries_contractFetch (acct : option string) (address : string)
    (g : Combined.GameType) (latest : Z) :
  queriesAtMost 5 (contractFetch w acct address g latest).
Proof.
  unfold contractFetch, Combined.fetchEventsForContract.
  apply (queries_bind (N1 := 5) (N2 := 0)).
  - eapply queries_mono; [|apply (chunks_at_most_five latest)].
    apply queries_chunkLoop. apply queries_ret.
  - intros logs. apply queries_combined_parseLogs.
Qed.

Lemma queries_fetchAllEvents (acct : option string) (c : nat) :
  (List.length (queried (snd (Combined.fetchAllEvents w acct c))) <= 10)%nat.
Proof.
  revert c. unfold Combined.fetchAllEvents. apply queries_complete.
  apply (queries_tryFinally (N1 := 10) (N2 := 0)).
  2:{ apply queries_whenMounted, queries_emit. reflexivity. }
  apply (queries_tryCatch (N1 := 10) (N2 := 0)).
  2:{ apply queries_whenMounted, queries_emit. reflexivity. }
  apply (queries_bind (N1 := 0) (N2 := 10)).
  { apply queries_whenMounted.
    apply (queries_bind (N1 := 0) (N2 := 0)); [apply queries_emit; reflexivity|].
    intros _. apply queries_emit. reflexivity. }
  intros _.
  apply (queries_bind (N1 := 0) (N2 := 10)); [apply queries_await|].
  intros latest.
  apply (queries_bind (N1 := 0) (N2 := 10)); [apply queries_isMounted|].
  intros [|]; simpl;
    [|apply queries_mono with (N := 0%nat); [apply queries_ret | lia]].
  apply (queries_bind (N1 := 10) (N2 := 0)).
  - apply (queries_promiseAll w (N1 := 5) (N2 := 5));
      apply (queries_contractFetch acct).
  - intros both.
    apply (queries_bind (N1 := 0) (N2 := 0)); [apply queries_isMounted|].
    intros [|]; simpl; [apply queries_emit; reflexivity | apply queries_ret].
Qed.

Lemma queries_fetchRollEvents (acct : string) :
  queriesAtMost 5 (Player.fetchRollEvents w acct).
Proof.
  unfold Player.fetchRollEvents.
  apply (queries_tryFinally (N1 := 5) (N2 := 0)).
  2:{ apply queries_whenMounted, queries_emit. reflexivity. }
  apply (queries_tryCatch (N1 := 5) (N2 := 0)).
  2:{ apply queries_whenMounted, queries_emit. reflexivity. }
  apply (queries_bind (N1 := 0) (N2 := 5)).
  { apply queries_whenMounted.
    apply (queries_bind (N1 := 0) (N2 := 0)); [apply queries_emit; reflexivity|].
    intros _. apply queries_emit. reflexivity. }
  intros _.
  apply (queries_bind (N1 := 0) (N2 := 5)); [apply queries_await|].
  intros latest.
  apply (queries_bind (N1 := 0) (N2 := 5)); [apply queries_isMounted|].
  intros [|]; simpl;
    [|apply queries_mono with (N := 0%nat); [apply queries_ret | lia]].
  apply (queries_bind (N1 := 5) (N2 := 0)).
  - eapply queries_mono; [|apply (chunks_at_most_five latest)].
    apply queries_chunkLoop. apply queries_isMounted.
  - intros logs.
    apply (queries_bind (N1 := 0) (N2 := 0)); [apply queries_isMounted|].
    intros [|]; simpl; [|apply queries_ret].
    apply (queries_bind (N1 := 0) (N2 := 0)); [apply queries_player_parseLogs|].
    intros evs. apply queries_whenMounted, queries_emit. reflexivity.
Qed.
End QueryCountOfCycles.

(** X20.  A cycle asks the provider for logs at most five times for
    each contract: at most ten times in the combined view and at most
    five times in the player view, whatever the block height is and
    whatever the provider answers. *)
Theorem log_queries_per_cycle (w : World) :
  (forall acct c,
     (List.length (queried (snd (Combined.fetchAllEvents w acct c))) <= 10)%nat)
  /\ (forall acct c,
        (List.length (queried (snd (Player.fetchRollEvents w acct c))) <= 5)%nat).
Proof.
  split; intros acct c.
  - apply queries_fetchAllEvents.
  - eapply Nat.le_trans; [apply queried_le_asked | apply queries_fetchRollEvents].
Qed.

(** * A cycle, in general *)

Section Returns.
Variable E : Type.
Variable Q : nat -> Action E -> Prop.

(** What a computation returns is a value it can return. *)
Lemma triple_returns {A} (P : nat -> Prop) (m : M E A) (R : A -> nat -> Prop) :
  triple Q P m R ->
  triple Q P m (fun a c' => R a c' /\ exists c, fst (m c) = Ok a).
Proof.
  intros Hm c Hc. destruct (Hm c Hc) as [Ht Hr].
  split; [exact Ht|]. intros a Ha. split; [now apply Hr | now exists c].
Qed.
End Returns.

Section CombinedGeneric.
Import Combined.
Variable w : World.
Variable currentAccount : option string.
Variable Q : nat -> Action GameEvent -> Prop.
Variable RD RC : Z -> list GameEvent -> Prop.

(** A requirement holds of every action of a cycle of the combined view
    when it holds of the writes of a mounted view, of the queries, and
    of the stored list as far as the two fetches account for it. *)
Lemma combined_cycle_generic :
  (forall c e, mountedAt w c = true -> Q c (SetError e)) ->
  (forall c b, mountedAt w c = true -> Q c (SetLoading b)) ->
  (forall c, Q c AwaitBlockNumber) ->
  (forall latest, getBlockNumber w = Ok latest ->
     triple (fun _ a => isAwait a = true /\ forall c, Q c a) (fun _ => True)
       (contractFetch w currentAccount DICE_CONTRACT_ADDRESS dice latest)
       (fun evs _ => RD latest evs)) ->
  (forall latest, getBlockNumber w = Ok latest ->
     triple (fun _ a => isAwait a = true /\ forall c, Q c a) (fun _ => True)
       (contractFetch w currentAccount COINFLIP_CONTRACT_ADDRESS coinflip latest)
       (fun evs _ => RC latest evs)) ->
  (forall latest d k c,
     getBlockNumber w = Ok latest -> RD latest d -> RC latest k ->
     mountedAt w c = true ->
     Q c (SetEvents (slice0 MAX_RESULTS (sortDesc blockNumber (d ++ k))))) ->
  forall c, traceOK Q c (snd (fetchAllEvents w currentAccount c)).
Proof.
  intros Herr Hload Hheight Hdice Hcoin Hstore.
  unfold fetchAllEvents. apply triple_complete with (R := fun _ _ => True).
  eapply triple_tryFinally with (R' := fun _ _ => True).
  2:{ apply triple_whenMounted; [|auto].
      apply triple_emit; [reflexivity | intros c [_ Hc]; now apply Hload | auto]. }
  apply triple_tryCatch with (R := fun _ _ => True).
  2:{ apply triple_whenMounted; [|auto].
      apply triple_emit; [reflexivity | intros c [_ Hc]; now apply Herr | auto]. }
  eapply triple_bind with (R := fun _ _ => True).
  { apply triple_whenMounted; [|auto].
    eapply triple_bind with (R := fun _ c => mountedAt w c = true).
    - apply triple_emit; [reflexivity | intros c [_ Hc]; now apply Herr | tauto].
    - intros _. apply triple_emit; [reflexivity | intros c Hc; now apply Hload | auto]. }
  intros _.
  eapply triple_bind with (R := fun latest _ => getBlockNumber w = Ok latest).
  { apply triple_await; simpl; auto. }
  intros latest.
  apply triple_assume with (F := getBlockNumber w = Ok latest); [auto|].
  intros Hlatest.
  eapply triple_bind with (R := fun _ _ => True).
  { apply triple_isMounted. auto. }
  intros [|]; simpl; [|apply triple_ret; auto].
  eapply triple_bind
    with (R := fun both _ => RD latest (fst both) /\ RC latest (snd both)).
  { apply triple_promiseAll with (Ra := RD latest) (Rb := RC latest).
    - apply (Hdice latest Hlatest).
    - apply (Hcoin latest Hlatest). }
  intros [d k]; simpl.
  apply triple_assume with (F := RD latest d /\ RC latest k); [auto|].
  intros [Hd Hk].
  eapply triple_bind with (R := fun b c => b = mountedAt w c).
  { apply triple_isMounted. auto. }
  intros [|]; simpl; [|apply triple_ret; auto].
  apply triple_emit; [reflexivity | | auto].
  intros c Hc. now apply Hstore with (latest := latest).
Qed.
End CombinedGeneric.

Section Tags.
Import Combined.
Variable w : World.

Lemma contribution_tag (g : GameType) (acct : string) (log : Log) (ev : GameEvent) :
  In ev (contribution w g acct log) -> gameType ev = g.
Proof.
  unfold contribution, parseOne, tryCatch, bind, await, ret, throw.
  destruct (parseLog w (topics log) (data log)) as [[args|]|]; simpl; try tauto.
  destruct (truthy acct && negb (toLowerCase (argPlayer args) =? toLowerCase acct)%string);
    simpl; try tauto.
  destruct (getBlock w (logBlockNumber log)) as [[b|]|]; simpl; try tauto.
  intros [<-|[]]. reflexivity.
Qed.

Lemma fetch_tags (address : string) (g : GameType) (s l : Z) (acct : string)
    (c : nat) (evs : list GameEvent) :
  fst (fetchEventsForContract w address g s l acct c) = Ok evs ->
  Forall (fun ev => gameType ev = g) evs.
Proof.
  unfold fetchEventsForContract.
  set (cn := ceilDiv (l - s) MAX_CHUNK_SIZE).
  destruct (chunkLoop (E := GameEvent) w (ret true) address s l cn (Z.to_nat cn)
              0 [] c) as [[logs|] t] eqn:Hrun.
  - erewrite fst_bind_ok by exact Hrun. rewrite parseLogs_eq. simpl.
    intros [= <-]. apply Forall_forall. intros ev Hev.
    apply in_flat_map in Hev. destruct Hev as (log & _ & Hev).
    eapply contribution_tag. exact Hev.
  - rewrite fst_bind_thrown by now rewrite Hrun. discriminate.
Qed.
End Tags.

(** X21.  Every event the combined view stores is tagged with the game
    of the contract it was fetched from: its block number is the one of
    a log that a query of the cycle to the dice contract returned when
    the tag is [dice], and to the coin-flip contract when the tag is
    [coinflip]. *)
Theorem stored_event_tag (w : World) (acct : option string) (c : nat)
    (evs : list Combined.GameEvent) (ev : Combined.GameEvent) :
  In (SetEvents evs) (snd (Combined.fetchAllEvents w acct c)) ->
  In ev evs ->
  exists latest log,
    getBlockNumber w = Ok latest
    /\ fetched w (contractOf (Combined.gameType ev)) (firstBlock latest) latest log
    /\ Combined.blockNumber ev = logBlockNumber log.
Proof.
  intros Hin Hev.
  set (tagged := fun (latest : Z) (ev : Combined.GameEvent) =>
                   exists log,
                     fetched w (contractOf (Combined.gameType ev))
                             (firstBlock latest) latest log
                     /\ Combined.blockNumber ev = logBlockNumber log).
  set (Q := fun (_ : nat) (a : Action Combined.GameEvent) =>
              match a with
              | SetEvents evs =>
                  exists latest,
                    getBlockNumber w = Ok latest /\ Forall (tagged latest) evs
              | _ => True
              end).
  assert (forall address g latest,
            contractOf g = address ->
            triple (fun _ a => isAwait a = true /\ forall c, Q c a) (fun _ => True)
                   (contractFetch w acct address g latest)
                   (fun evs _ => Forall (tagged latest) evs)) as Hfetch.
  { intros address g latest Haddr.
    eapply triple_conseq;
      [ apply triple_returns,
          (@triple_fetchEventsForContract w
             (fun _ a => isAwait a = true /\ forall c, Q c a)
             address g (firstBlock latest) latest
             (Combined.accountOrEmpty acct)); simpl; auto
      | auto | ].
    intros evs0 _ [Hprov (c0 & Hret)]. simpl in Hprov.
    pose proof (fetch_tags w address g (firstBlock latest) latest
                  (Combined.accountOrEmpty acct) c0 Hret) as Htags.
    rewrite Forall_forall in *. intros e He.
    destruct (Hprov e He) as (log & Hlog & args & b & g' & _ & _ & _ & Heq).
    exists log. rewrite (Htags e He), Haddr. split; [exact Hlog|].
    rewrite Heq. reflexivity. }
  pose proof (@combined_cycle_generic w acct Q
                (fun latest evs => Forall (tagged latest) evs)
                (fun latest evs => Forall (tagged latest) evs)) as Hcycle.
  assert (traceOK Q c (snd (Combined.fetchAllEvents w acct c))) as Hok.
  { apply Hcycle; try (unfold Q; simpl; auto; fail).
    intros latest d k c0 Hlatest Hd Hk _. exists latest. split; [exact Hlatest|].
    apply Forall_forall. intros e He.
    apply (display_list Combined.blockNumber) in He.
    apply in_app_or in He. rewrite Forall_forall in Hd, Hk.
    destruct He; auto. }
  destruct (traceOK_In _ _ _ _ Hok Hin) as (c' & latest & Hlatest & Hall).
  rewrite Forall_forall in Hall. destruct (Hall ev Hev) as (log & Hlog & Hbn).
  exists latest, log. auto.
Qed.

Lemma stored_event_tag_witness :
  Forall (fun ev => exists latest log,
            getBlockNumber (sampleWorld None) = Ok latest
            /\ fetched (sampleWorld None) (contractOf (Combined.gameType ev))
                 (firstBlock latest) latest log
            /\ Combined.blockNumber ev = logBlockNumber log)
         sampleCombinedDisplay.
Proof.
  apply Forall_forall. intros ev Hev.
  apply (@stored_event_tag (sampleWorld None) None 0%nat sampleCombinedDisplay ev);
    [pick_action | exact Hev].
Defined.

(** * Teardown and the queries *)

Section PlayerGeneric.
Import Player.
Variable w : World.
Variable currentAccount : string.
Variable Q : nat -> Action RollEvent -> Prop.
Variable RL : Z -> list Log -> Prop.
Variable RE : Z -> list RollEvent -> Prop.

(** A requirement holds of every action of a cycle of the player view
    when it holds of the writes of a mounted view, of the actions of the
    two loops, and of the stored list as far as the loops account for
    it. *)
Lemma player_cycle_generic :
  (forall c e, mountedAt w c = true -> Q c (SetError e)) ->
  (forall c b, mountedAt w c = true -> Q c (SetLoading b)) ->
  (forall c, Q c AwaitBlockNumber) ->
  (forall latest, getBlockNumber w = Ok latest ->
     triple Q (fun _ => True) (playerChunks w latest)
       (fun logs _ => RL latest logs)) ->
  (forall latest logs, getBlockNumber w = Ok latest -> RL latest logs ->
     triple Q (fun _ => True) (parseLogs w currentAccount logs [])
       (fun evs _ => RE latest evs)) ->
  (forall latest evs c,
     getBlockNumber w = Ok latest -> RE latest evs -> mountedAt w c = true ->
     Q c (SetEvents (slice0 MAX_RESULTS (sortDesc blockNumber evs)))) ->
  forall c, traceOK Q c (snd (fetchRollEvents w currentAccount c)).
Proof.
  intros Herr Hload Hheight Hloop Hparse Hstore.
  cut (triple Q (fun _ => True) (fetchRollEvents w currentAccount)
              (fun _ _ => True)); [intros H c; now apply H|].
  unfold fetchRollEvents.
  eapply triple_tryFinally with (R' := fun _ _ => True).
  2:{ apply triple_whenMounted; [|auto].
      apply triple_emit; [reflexivity | intros c [_ Hc]; now apply Hload | auto]. }
  apply triple_tryCatch with (R := fun _ _ => True).
  2:{ apply triple_whenMounted; [|auto].
      apply triple_emit; [reflexivity | intros c [_ Hc]; now apply Herr | auto]. }
  eapply triple_bind with (R := fun _ _ => True).
  { apply triple_whenMounted; [|auto].
    eapply triple_bind with (R := fun _ c => mountedAt w c = true).
    - apply triple_emit; [reflexivity | intros c [_ Hc]; now apply Herr | tauto].
    - intros _. apply triple_emit; [reflexivity | intros c Hc; now apply Hload | auto]. }
  intros _.
  eapply triple_bind with (R := fun latest _ => getBlockNumber w = Ok latest).
  { apply triple_await; auto. }
  intros latest.
  apply triple_assume with (F := getBlockNumber w = Ok latest); [auto|].
  intros Hlatest.
  eapply triple_bind with (R := fun _ _ => True).
  { apply triple_isMounted. auto. }
  intros [|]; simpl; [|apply triple_ret; auto].
  eapply triple_bind with (R := fun logs _ => RL latest logs).
  { eapply triple_conseq; [apply (Hloop latest Hlatest) | auto | auto]. }
  intros logs.
  apply triple_assume with (F := RL latest logs); [auto|].
  intros Hlogs.
  eapply triple_bind with (R := fun _ _ => True).
  { apply triple_isMounted. auto. }
  intros [|]; simpl; [|apply triple_ret; auto].
  eapply triple_bind with (R := fun evs _ => RE latest evs).
  { eapply triple_conseq; [apply (Hparse latest logs Hlatest Hlogs) | auto | auto]. }
  intros evs.
  apply triple_assume with (F := RE latest evs); [auto|].
  intros Hevs.
  apply triple_whenMounted; [|auto].
  apply triple_emit; [reflexivity | | auto].
  intros c [_ Hc]. now apply Hstore with (latest := latest).
Qed.
End PlayerGeneric.

Section GuardedLoop.
Variable E : Type.
Variable w : World.
Variable Q : nat -> Action E -> Prop.

(** The loop of the player view asks for logs only while the view is
    mounted. *)
Lemma triple_chunkLoop_mounted (address : string) (s l cn : Z) (n : nat) :
  (forall c f t, mountedAt w c = true -> Q c (AwaitLogs address f t)) ->
  (forall c, Q c AwaitDelay) ->
  forall (i : Z) (allLogs : list Log),
  triple Q (fun _ => True)
    (chunkLoop w (isMounted E w) address s l cn n i allLogs)
    (fun _ _ => True).
Proof.
  intros Hq Hd.
  induction n as [|n IH]; intros i allLogs; simpl.
  - apply triple_ret. auto.
  - eapply triple_bind with (R := fun go c => go = mountedAt w c).
    { apply triple_isMounted. auto. }
    intros [|]; [|apply triple_ret; auto].
    eapply triple_bind with (R := fun _ _ => True).
    { apply triple_await; auto. }
    intros logs.
    eapply triple_bind with (R := fun _ _ => True).
    { destruct (i <? cn - 1); [apply triple_await; auto | apply triple_ret; auto]. }
    intros _. apply IH.
Qed.
End GuardedLoop.

(** X22.  After the teardown the player view asks for no more logs:
    when the view is torn down during the [k]-th suspension of a cycle,
    fewer than [k] suspension points precede every log query of the
    cycle. *)
Theorem player_stops_log_queries (w : World) (k : nat) (acct : string)
    (pre post : Trace Player.RollEvent) (a : string) (f t : Z) :
  teardown w = Some k ->
  snd (Player.fetchRollEvents w acct 0%nat) = pre ++ AwaitLogs a f t :: post ->
  (awaits pre < k)%nat.
Proof.
  intros Hk Htrace.
  set (Q := fun (c : nat) (x : Action Player.RollEvent) =>
              match x with
              | AwaitLogs _ _ _ => mountedAt w c = true
              | _ => True
              end).
  assert (traceOK Q 0%nat (snd (Player.fetchRollEvents w acct 0%nat))) as Hok.
  { apply (@player_cycle_generic w acct Q (fun _ _ => True) (fun _ _ => True));
      try (unfold Q; simpl; auto; fail).
    - intros latest _. unfold playerChunks.
      apply triple_chunkLoop_mounted; unfold Q; simpl; auto.
    - intros latest logs _ _.
      eapply triple_conseq;
        [ apply (@triple_player_parseLogs w Q acct (fun _ => True) (fun _ => True));
          unfold Q; simpl; auto; apply Forall_forall; auto
        | auto | auto ]. }
  rewrite Htrace in Hok. apply traceOK_split in Hok.
  rewrite Nat.add_0_r in Hok. unfold Q, mountedAt in Hok. rewrite Hk in Hok.
  now apply Nat.ltb_lt.
Qed.

Lemma player_stops_log_queries_witness :
  (awaits [SetError None; SetLoading true; AwaitBlockNumber
           : Action Player.RollEvent] < 3)%nat.
Proof.
  apply (@player_stops_log_queries (sampleWorld (Some 3%nat)) 3%nat "0xABC"
           [SetError None; SetLoading true; AwaitBlockNumber] [AwaitDelay]
           Player.CONTRACT_ADDRESS 1550 2000); reflexivity.
Defined.

Section NoCancellation.
Variable E : Type.

Lemma bind_ext {A B} (m : M E A) (f g : A -> M E B) (c : nat) :
  (forall a c', f a c' = g a c') -> bind m f c = bind m g c.
Proof.
  intros Hfg. unfold bind. destruct (m c) as [[a|] t]; [|reflexivity].
  now rewrite Hfg.
Qed.

Lemma chunkLoop_withTeardown (w : World) (td : option nat) (address : string)
    (s l cn : Z) (n : nat) :
  forall (i : Z) (allLogs : list Log) (c : nat),
  chunkLoop (E := E) (withTeardown w td) (ret true) address s l cn n i allLogs c
  = chunkLoop w (ret true) address s l cn n i allLogs c.
Proof.
  induction n as [|n IH]; intros i allLogs c; simpl; [reflexivity|].
  apply bind_ext. intros [|] c1; [|reflexivity].
  apply bind_ext. intros logs c2.
  apply bind_ext. intros _ c3. apply IH.
Qed.
End NoCancellation.

Lemma parseLogs_withTeardown (w : World) (td : option nat) (g : Combined.GameType)
    (acct : string) (logs : list Log) :
  forall (acc : list Combined.GameEvent) (c : nat),
  Combined.parseLogs (withTeardown w td) g acct logs acc c
  = Combined.parseLogs w g acct logs acc c.
Proof.
  induction logs as [|log logs IH]; intros acc c; simpl; [reflexivity|].
  apply bind_ext. intros evs c1. apply IH.
Qed.

(** X23.  The fetch of a contract in the combined view is never cut
    short: it asks the same queries and lookups and returns the same
    events whenever the view is torn down. *)
Theorem fetch_ignores_teardown (w : World) (td : option nat) (address : string)
    (g : Combined.GameType) (s l : Z) (acct : string) (c : nat) :
  Combined.fetchEventsForContract (withTeardown w td) address g s l acct c
  = Combined.fetchEventsForContract w address g s l acct c.
Proof.
  unfold Combined.fetchEventsForContract, bind.
  rewrite chunkLoop_withTeardown.
  destruct (chunkLoop w (ret true) address s l (ceilDiv (l - s) MAX_CHUNK_SIZE)
              (Z.to_nat (ceilDiv (l - s) MAX_CHUNK_SIZE)) 0 [] c) as [[logs|] t];
    [|reflexivity].
  now rewrite parseLogs_withTeardown.
Qed.

(** * Teardown while the two fetches run *)

Ltac settle_at both c Hend :=
  match goal with |- context [mountedAt ?w ?x] =>
    replace x with (awaits both + S c)%nat
      by (rewrite ?awaits_app; cbn [awaits filter isAwait List.length app]; lia)
  end; rewrite Hend.

Section CombinedTornDown.
Import Combined.
Variable w : World.
Variable currentAccount : option string.

Lemma whenMounted_at {E} (m : M E unit) (c : nat) :
  whenMounted w m c = if mountedAt w c then m c else (Ok tt, []).
Proof.
  unfold whenMounted, bind, isMounted. destruct (mountedAt w c); [|reflexivity].
  simpl. now destruct (m c).
Qed.

(** A cycle that is mounted when it starts and when it has read the
    block height: what it writes in the end depends on the flag at the
    moment the two fetches settle. *)
Lemma combined_cycle_settles (latest : Z) (c : nat)
    (rd rc : Outcome (list GameEvent)) (td tc : Trace GameEvent) :
  mountedAt w c = true ->
  mountedAt w (S c) = true ->
  getBlockNumber w = Ok latest ->
  contractFetch w currentAccount DICE_CONTRACT_ADDRESS dice latest (S c) = (rd, td) ->
  contractFetch w currentAccount COINFLIP_CONTRACT_ADDRESS coinflip latest (S c)
  = (rc, tc) ->
  fetchAllEvents w currentAccount c
  = (Ok tt,
     [SetError None; SetLoading true; AwaitBlockNumber]
     ++ direct (sideBySide (schedule w) td tc (rejected rd) (rejected rc))
     ++ (if mountedAt w (awaits (sideBySide (schedule w) td tc (rejected rd)
                                   (rejected rc)) + S c)%nat
         then match rd, rc with
              | Ok diceEvents, Ok coinflipEvents =>
                  [SetEvents (slice0 MAX_RESULTS
                                (sortDesc blockNumber (diceEvents ++ coinflipEvents)));
                   SetLoading false]
              | _, _ => [SetError (Some FETCH_ERROR); SetLoading false]
              end
         else [])
     ++ deferred (sideBySide (schedule w) td tc (rejected rd) (rejected rc))).
Proof.
  intros Hc HSc Hlatest Hdice Hcoin. unfold fetchAllEvents.
  pose proof (promiseAll_eq w _ _ _ Hdice Hcoin) as Hall.
  remember (sideBySide (schedule w) td tc (rejected rd) (rejected rc)) as both
    eqn:Hboth.
  destruct (mountedAt w (awaits both + S c)%nat) eqn:Hend;
    destruct rd as [diceEvents|], rc as [coinflipEvents|].
  all: erewrite complete_eq;
    [ | erewrite tryFinally_eq;
        [ reflexivity
        | first
            [ eapply tryCatch_eq_ok;
              (eapply bind_eq; [rewrite whenMounted_at, Hc; reflexivity|]);
              (eapply bind_eq; [unfold await; rewrite Hlatest; reflexivity|]);
              (eapply bind_eq; [unfold isMounted; simpl; rewrite HSc; reflexivity|]);
              cbn [negb];
              (eapply bind_eq; [exact Hall|]);
              (eapply bind_eq; [unfold isMounted; reflexivity|]);
              settle_at both c Hend; reflexivity
            | eapply tryCatch_eq_thrown;
              [ (eapply bind_eq; [rewrite whenMounted_at, Hc; reflexivity|]);
                (eapply bind_eq; [unfold await; rewrite Hlatest; reflexivity|]);
                (eapply bind_eq; [unfold isMounted; simpl; rewrite HSc; reflexivity|]);
                cbn [negb];
                eapply bind_eq_thrown; exact Hall
              | rewrite whenMounted_at; settle_at both c Hend; reflexivity ] ]
        | rewrite whenMounted_at; settle_at both c Hend; reflexivity ] ].
  all: f_equal; rewrite !direct_app, !deferred_app; simpl;
    rewrite ?app_nil_r, <- ?app_assoc; reflexivity.
Qed.
End CombinedTornDown.

(** X25.  The two fetches settle as soon as one of them rejects, or
    when both have returned, and what the cycle then writes depends on
    the flag at that moment alone.  In a view torn down during the
    [k]-th suspension of a cycle, after the block height was read, the
    cycle writes the list or the message, and clears the loading flag,
    exactly when fewer than [k] suspensions have ended by the time the
    fetches settle: the block-height query and those queries, delays
    and lookups of the two fetches that the provider has answered by
    then.  A teardown while a fetch that nobody waits for any more is
    still under way does not take the message back. *)
Theorem result_written_iff_mounted_when_settled (w : World) (k : nat)
    (acct : option string) (latest : Z)
    (rd rc : Outcome (list Combined.GameEvent))
    (td tc : Trace Combined.GameEvent) :
  teardown w = Some k ->
  (2 <= k)%nat ->
  getBlockNumber w = Ok latest ->
  contractFetch w acct Combined.DICE_CONTRACT_ADDRESS Combined.dice latest 1%nat
  = (rd, td) ->
  contractFetch w acct Combined.COINFLIP_CONTRACT_ADDRESS Combined.coinflip latest 1%nat
  = (rc, tc) ->
  writes (snd (Combined.fetchAllEvents w acct 0%nat))
  = [SetError None; SetLoading true]
    ++ (if (S (awaits (sideBySide (schedule w) td tc (rejected rd) (rejected rc)))
            <? k)%nat
        then match rd, rc with
             | Ok diceEvents, Ok coinflipEvents =>
                 [SetEvents (slice0 Combined.MAX_RESULTS
                               (sortDesc Combined.blockNumber
                                  (diceEvents ++ coinflipEvents)));
                  SetLoading false]
             | _, _ => [SetError (Some FETCH_ERROR); SetLoading false]
             end
        else []).
Proof.
  intros Hk Hk2 Hlatest Hdice Hcoin.
  assert (forall c, mountedAt w c = (c <? k)%nat) as Hm.
  { intros c. unfold mountedAt. now rewrite Hk. }
  rewrite (@combined_cycle_settles w acct latest 0%nat rd rc td tc); auto.
  2:{ rewrite Hm. apply Nat.ltb_lt. lia. }
  2:{ rewrite Hm. apply Nat.ltb_lt. lia. }
  cbn [snd].
  pose proof (contractFetch_awaits w acct Combined.DICE_CONTRACT_ADDRESS
                Combined.dice latest 1%nat) as Htd.
  pose proof (contractFetch_awaits w acct Combined.COINFLIP_CONTRACT_ADDRESS
                Combined.coinflip latest 1%nat) as Htc.
  rewrite Hdice in Htd. rewrite Hcoin in Htc. cbn [snd] in Htd, Htc.
  destruct (sideBySide_writes (schedule w) (rejected rd) (rejected rc) Htd Htc)
    as [H1 H2].
  change ([SetError None; SetLoading true; AwaitBlockNumber] ++ ?x)
    with ([SetError None; SetLoading true] ++ [AwaitBlockNumber] ++ x).
  rewrite !writes_app, H1, H2, app_nil_r, Hm.
  replace (awaits (sideBySide (schedule w) td tc (rejected rd) (rejected rc)) + 1)%nat
    with (S (awaits (sideBySide (schedule w) td tc (rejected rd) (rejected rc))))
    by lia.
  destruct (S (awaits (sideBySide (schedule w) td tc (rejected rd) (rejected rc)))
            <? k)%nat; [|reflexivity].
  destruct rd, rc; reflexivity.
Qed.

Lemma result_written_iff_mounted_when_settled_witness :
  writes (snd (Combined.fetchAllEvents (failingWorld (Some 12%nat)) None 0%nat))
  = [SetError None; SetLoading true; SetError (Some FETCH_ERROR); SetLoading false]
  /\ writes (snd (Combined.fetchAllEvents (failingWorld (Some 9%nat)) None 0%nat))
     = [SetError None; SetLoading true].
Proof.
  split.
  - exact (@result_written_iff_mounted_when_settled (failingWorld (Some 12%nat))
             12%nat None 2000 _ _ _ _ eq_refl ltac:(lia) eq_refl eq_refl eq_refl).
  - exact (@result_written_iff_mounted_when_settled (failingWorld (Some 9%nat))
             9%nat None 2000 _ _ _ _ eq_refl ltac:(lia) eq_refl eq_refl eq_refl).
Defined.

(** * The delay between log queries *)

Section Spacing.
Variable E : Type.
Variable w : World.

Lemma quiet_spaced (ok : bool) (t : Trace E) : queried t = [] -> spaced ok t = true.
Proof.
  revert ok. induction t as [|a t IH]; intros ok Hq; [reflexivity|].
  destruct a; simpl in *; try discriminate; now apply IH.
Qed.

Lemma spaced_app_quiet (ok : bool) (t t' : Trace E) :
  queried t' = [] -> spaced ok (t ++ t') = spaced ok t.
Proof.
  intros Hq. revert ok. induction t as [|a t IH]; intros ok; simpl.
  - now apply quiet_spaced.
  - destruct a; simpl; now rewrite ?IH.
Qed.

(** The loop waits between two queries: it leaves the delay out only
    after the query of the last index. *)
Lemma chunkLoop_spaced (guard : M E bool) (address : string) (s l cn : Z) (n : nat) :
  (forall c, exists b, guard c = (Ok b, [])) ->
  forall (i : Z) (allLogs : list Log) (c : nat),
  n = 0%nat \/ Z.of_nat n = cn - i ->
  spaced true (snd (chunkLoop w guard address s l cn n i allLogs c)) = true.
Proof.
  intros Hg. induction n as [|n IH]; intros i allLogs c Hn; [reflexivity|].
  destruct Hn as [Hn|Hn]; [discriminate|].
  simpl. destruct (Hg c) as [b Hb].
  erewrite snd_bind_ok by exact Hb.
  destruct b; [|reflexivity]. cbn [app].
  destruct (getLogs w address (Z.max (l - i * MAX_CHUNK_SIZE - MAX_CHUNK_SIZE) s)
                    (l - i * MAX_CHUNK_SIZE)) as [logs|] eqn:Hlogs.
  - erewrite snd_bind_ok by reflexivity.
    destruct n as [|n'].
    + assert ((i <? cn - 1) = false) as -> by (apply Z.ltb_ge; lia).
      erewrite snd_bind_ok by reflexivity. reflexivity.
    + assert ((i <? cn - 1) = true) as -> by (apply Z.ltb_lt; lia).
      erewrite snd_bind_ok by reflexivity.
      cbn [app spaced andb]. apply IH. right. lia.
  - rewrite snd_bind_thrown by reflexivity. reflexivity.
Qed.
End Spacing.

(** X24.  Two log queries of a contract are never issued back to back:
    in the fetch of a contract of the combined view, whatever the
    provider answers, and in a cycle of a player view that stays
    mounted, every log query but the first comes after a delay that
    follows the query before it. *)
Theorem log_queries_are_spaced (w : World) :
  (forall address g s l acct c,
     spaced true (snd (Combined.fetchEventsForContract w address g s l acct c))
     = true)
  /\ (teardown w = None ->
      forall acct c,
        spaced true (snd (Player.fetchRollEvents w acct c)) = true).
Proof.
  assert (forall x, Z.to_nat x = 0%nat \/ Z.of_nat (Z.to_nat x) = x - 0) as Hn
    by (intros x; lia).
  split.
  - intros address g s l acct c. unfold Combined.fetchEventsForContract.
    set (cn := ceilDiv (l - s) MAX_CHUNK_SIZE).
    pose proof (@chunkLoop_spaced Combined.GameEvent w (ret true) address s l cn
                  (Z.to_nat cn) (fun _ => ex_intro _ true eq_refl) 0 [] c (Hn cn))
      as Hloop.
    destruct (chunkLoop w (ret true) address s l cn (Z.to_nat cn) 0 [] c)
      as [[logs|] t] eqn:Hrun; simpl in Hloop.
    + erewrite snd_bind_ok by exact Hrun.
      rewrite spaced_app_quiet by apply combined_parseLogs_queried. exact Hloop.
    + rewrite snd_bind_thrown by now rewrite Hrun. rewrite Hrun. exact Hloop.
  - intros Hnone acct c.
    destruct (getBlockNumber w) as [latest|] eqn:Hlatest.
    2:{ rewrite (player_cycle_no_height w acct Hnone c Hlatest). reflexivity. }
    pose proof (@chunkLoop_spaced Player.RollEvent w (isMounted _ w)
                  Player.CONTRACT_ADDRESS (firstBlock latest) latest
                  (ceilDiv (latest - firstBlock latest) MAX_CHUNK_SIZE)
                  (Z.to_nat (ceilDiv (latest - firstBlock latest) MAX_CHUNK_SIZE))
                  (fun c0 => ex_intro _ (mountedAt w c0) eq_refl) 0 [] (S c)
                  (Hn _)) as Hloop.
    change (spaced true (snd (playerChunks w latest (S c))) = true) in Hloop.
    destruct (playerChunks w latest (S c)) as [[logs|] t1] eqn:Hrun;
      simpl in Hloop.
    + rewrite (player_cycle_resolved w acct Hnone c Hlatest Hrun).
      cbn [snd app spaced]. rewrite spaced_app_quiet; [exact Hloop|].
      rewrite queried_app.
      pose proof (player_parseLogs_queried w acct logs [] 0%nat) as Hparse.
      rewrite (player_parseLogs_eq w acct Hnone) in Hparse. simpl in Hparse.
      rewrite Hparse. reflexivity.
    + rewrite (player_cycle_rejected w acct Hnone c Hlatest Hrun).
      cbn [snd app spaced]. rewrite spaced_app_quiet; [exact Hloop | reflexivity].
Qed.

Lemma log_queries_are_spaced_witness :
  spaced true (snd (Player.fetchRollEvents (sampleWorld None) "0xABC" 0%nat)) = true.
Proof.
  apply (proj2 (log_queries_are_spaced (sampleWorld None)) eq_refl).
Defined.
